(** * The client pool cache of control-plane/pkg/kafka/clientpool/pool_cache.go

    A shallow embedding of [CachePool], [cacheEntry] and [cacheValue] and of
    their methods.  Go pointers are indices into heaps kept in a [Store];
    buffered channels are bounded FIFO buffers; an operation of one goroutine
    is a computation in a small monad whose result says whether the goroutine
    returned, is parked on a channel or a mutex, or died. *)

From stdpp Require Import gmap list.

Open Scope Z_scope.

(** ** Errors, time, contexts *)

(** Values of Go's [error] interface that the cache can see: the two errors
    of package context, an error made by a factory, and the result of
    [errors.Join]. *)
#[warnings="-register-all"]
Inductive error : Type :=
  | Canceled
  | DeadlineExceeded
  | Failure (code : nat)
  | joinError (errs : list error).

(** [errors.Join]: nil arguments are discarded, and the result is nil when
    nothing is left. *)
Definition errors_Join (errs : list (option error)) : option error :=
  match omap id errs with
  | [] => None
  | l => Some (joinError l)
  end.

(** [time.Time] and [time.Duration] in nanoseconds. *)
Definition Minute : Z := 60 * 1000000000.

(** A [context.Context] at the moment it is looked at: [Err] is nil until the
    context is done, and [Done()] is closed exactly when it is not nil. *)
Record Context := { Err : option error }.

Definition Background : Context := {| Err := None |}.

(** ** Channels and mutexes *)

(** A channel made by [make(chan A, n)]: at most [n] buffered elements. *)
Record chan (A : Type) := mkChan { ch_cap : Z; ch_buf : list A }.
Arguments mkChan {A} _ _.
Arguments ch_cap {A} _.
Arguments ch_buf {A} _.

Definition chan_len {A} (c : chan A) : Z := Z.of_nat (length (ch_buf c)).

(** [sync.RWMutex]. *)
Record RWMutex := { writer : bool; readers : nat }.

Definition freeRW : RWMutex := {| writer := false; readers := 0 |}.

(** The three alternatives of the [select] in [getValue], in source order. *)
Inductive alt := AltDone | AltAvailable | AltCapacity.

(** What a caller gets as [ReturnClientFunc]: [NilReturnCapacityToCache], or
    the method value [value.returnToCache] of the cell at a pointer. *)
Inductive ReturnClientFunc :=
  | NilReturnCapacityToCache
  | returnToCacheOf (cv : nat).

(** ** The runtime *)

(** The largest buffer that [make(chan T, n)] accepts for a channel whose
    elements are one machine word, as both channel types of the cache are:
    above it, and below zero, [make] panics (makechan: size out of range).
    The limit depends on the platform and on the version of Go. *)
Class Runtime := chanLimit : N.

(** ** The data model *)

Class Closeable (V : Type) := Close : V → option error.

Section Model.
Context {K : Type} {K_eq : EqDecision K} {K_countable : Countable K}.
Context {V : Type} {V_zero : Inhabited V} {V_closeable : Closeable V}.
Context {RT : Runtime}.

(** [CreateNewValue[V] func() (V, error)]: a closure, which may answer
    differently from one call to the next; it is given the number of factory
    calls made so far. *)
Definition CreateNewValue := nat → V + error.

Record cacheValue := mkValue {
  cv_lock : bool;
  returnChan : nat;
  value : V;
  lastUsed : Z
}.

Record cacheEntry := mkEntry {
  ce_lock : RWMutex;
  available : nat;
  capacity : nat;
  maxCapacity : Z;
  createValue : CreateNewValue;
  key : K
}.

Record CachePool := mkPool {
  c_lock : RWMutex;
  entries : gmap K nat;
  lastChecked : Z
}.

(** What the goroutines of the trace did to cells, in order. *)
Inductive event :=
  | EvSend (ch : nat) (cv : nat)
  | EvRecv (ch : nat) (cv : nat)
  | EvLock (cv : nat)
  | EvUnlock (cv : nat)
  | EvClose (cv : nat) (v : V)
  | EvCreate (r : V + error).

(** The memory of the process: the pool, the heaps of entries, cells and
    channels, the wall clock, the number of factory calls made, the number of
    [go c.cleanupEntries()] goroutines launched and not yet run, and the
    trace. *)
Record Store := mkStore {
  pool : CachePool;
  entryHeap : list cacheEntry;
  cellHeap : list cacheValue;
  cellChans : list (chan nat);
  intChans : list (chan Z);
  clock : Z;
  calls : nat;
  sweeps : nat;
  trace : list event
}.

Definition set_pool (f : CachePool → CachePool) (s : Store) : Store :=
  mkStore (f (pool s)) (entryHeap s) (cellHeap s) (cellChans s) (intChans s)
          (clock s) (calls s) (sweeps s) (trace s).
Definition set_entryHeap (f : list cacheEntry → list cacheEntry) (s : Store) : Store :=
  mkStore (pool s) (f (entryHeap s)) (cellHeap s) (cellChans s) (intChans s)
          (clock s) (calls s) (sweeps s) (trace s).
Definition set_cellHeap (f : list cacheValue → list cacheValue) (s : Store) : Store :=
  mkStore (pool s) (entryHeap s) (f (cellHeap s)) (cellChans s) (intChans s)
          (clock s) (calls s) (sweeps s) (trace s).
Definition set_cellChans (f : list (chan nat) → list (chan nat)) (s : Store) : Store :=
  mkStore (pool s) (entryHeap s) (cellHeap s) (f (cellChans s)) (intChans s)
          (clock s) (calls s) (sweeps s) (trace s).
Definition set_intChans (f : list (chan Z) → list (chan Z)) (s : Store) : Store :=
  mkStore (pool s) (entryHeap s) (cellHeap s) (cellChans s) (f (intChans s))
          (clock s) (calls s) (sweeps s) (trace s).
Definition set_calls (f : nat → nat) (s : Store) : Store :=
  mkStore (pool s) (entryHeap s) (cellHeap s) (cellChans s) (intChans s)
          (clock s) (f (calls s)) (sweeps s) (trace s).
Definition set_sweeps (f : nat → nat) (s : Store) : Store :=
  mkStore (pool s) (entryHeap s) (cellHeap s) (cellChans s) (intChans s)
          (clock s) (calls s) (f (sweeps s)) (trace s).
Definition log (e : event) (s : Store) : Store :=
  mkStore (pool s) (entryHeap s) (cellHeap s) (cellChans s) (intChans s)
          (clock s) (calls s) (sweeps s) (trace s ++ [e]).

(** Writes through a pointer. *)
Definition put_entry (ce : nat) (e : cacheEntry) : Store → Store :=
  set_entryHeap (fun h => <[ce := e]> h).
Definition put_cell (cv : nat) (c : cacheValue) : Store → Store :=
  set_cellHeap (fun h => <[cv := c]> h).
Definition put_cellChan (ch : nat) (c : chan nat) : Store → Store :=
  set_cellChans (fun h => <[ch := c]> h).
Definition put_intChan (ch : nat) (c : chan Z) : Store → Store :=
  set_intChans (fun h => <[ch := c]> h).

(** ** The monad of one goroutine *)

(** [Done a s]: the call returned [a].  [Blocked s]: the goroutine is parked
    in state [s] on a channel operation or a lock that nothing in [s] can
    complete; it goes on only when another goroutine changes that.
    [Panic s]: the goroutine died in state [s] of a run-time panic (nil
    dereference, [make] with a size out of range) or of the fatal error of
    unlocking a mutex that is not locked.  [Diverged s]: a polling loop
    outran the bound it was given; the theorems on the loops show that the
    bound they get is never outrun. *)
Inductive Res (A : Type) :=
  | Done (a : A) (s : Store)
  | Blocked (s : Store)
  | Panic (s : Store)
  | Diverged (s : Store).
Arguments Done {A} _ _.
Arguments Blocked {A} _.
Arguments Panic {A} _.
Arguments Diverged {A} _.

Definition M (A : Type) : Type := Store → Res A.

Definition ret {A} (a : A) : M A := fun s => Done a s.

Definition bind {A B} (m : M A) (k : A → M B) : M B :=
  fun s => match m s with
           | Done a s' => k a s'
           | Blocked s' => Blocked s'
           | Panic s' => Panic s'
           | Diverged s' => Diverged s'
           end.

#[global] Instance M_ret : MRet M := @ret.
#[global] Instance M_bind : MBind M := fun A B k m => bind m k.

(** ** Primitive steps *)

Definition panic {A} : M A := fun s => Panic s.
Definition park {A} : M A := fun s => Blocked s.
Definition diverge {A} : M A := fun s => Diverged s.

(** [defer d] at the top of a function body [body]: [d] runs when the body
    returns, and it runs when the body panics, before the panic goes on to
    the caller.  A goroutine that is parked in the body has not run it.  The
    fatal error of an unlock, after which no deferred call runs, does not
    arise in a body below: a body unlocks only the mutex that it has locked
    itself, the other unlocks are the deferred calls. *)
Definition defer {A} (d : M unit) (body : M A) : M A :=
  fun s => match body s with
           | Done r s' => (d;; mret r) s'
           | Panic s' => (d;; panic) s'
           | Blocked s' => Blocked s'
           | Diverged s' => Diverged s'
           end.

Definition emit (e : event) : M unit := fun s => Done () (log e s).

(** [time.Now()] and [time.Since(t)]. *)
Definition time_Now : M Z := fun s => Done (clock s) s.
Definition time_Since (t : Z) : M Z := now ← time_Now; mret (now - t).

(** Dereferences; a pointer outside its heap is a nil dereference. *)
Definition load_cell (cv : nat) : M cacheValue :=
  fun s => match cellHeap s !! cv with
           | Some c => Done c s
           | None => Panic s
           end.
Definition store_cell (cv : nat) (c : cacheValue) : M unit :=
  fun s => Done () (put_cell cv c s).
Definition new_cell (c : cacheValue) : M nat :=
  fun s => Done (length (cellHeap s)) (set_cellHeap (fun h => h ++ [c]) s).

Definition load_entry (ce : nat) : M cacheEntry :=
  fun s => match entryHeap s !! ce with
           | Some e => Done e s
           | None => Panic s
           end.
Definition store_entry (ce : nat) (e : cacheEntry) : M unit :=
  fun s => Done () (put_entry ce e s).
Definition new_entry (e : cacheEntry) : M nat :=
  fun s => Done (length (entryHeap s)) (set_entryHeap (fun h => h ++ [e]) s).

Definition load_pool : M CachePool := fun s => Done (pool s) s.
Definition store_pool (c : CachePool) : M unit :=
  fun s => Done () (set_pool (fun _ => c) s).

(** [make(chan *cacheValue, n)] and [make(chan int, n)]: a panic when the
    size is out of range. *)
Definition make_cellChan (n : Z) : M nat :=
  fun s => if (n <? 0) || (Z.of_N chanLimit <? n) then Panic s
           else Done (length (cellChans s))
                     (set_cellChans (fun h => h ++ [mkChan n []]) s).
Definition make_intChan (n : Z) : M nat :=
  fun s => if (n <? 0) || (Z.of_N chanLimit <? n) then Panic s
           else Done (length (intChans s))
                     (set_intChans (fun h => h ++ [mkChan n []]) s).

(** [ch <- x]: parks while the buffer is full (an unbuffered channel has no
    room at all, and no receiver is waiting in a run of one goroutine). *)
Definition push {A} (x : A) (c : chan A) : chan A :=
  mkChan (ch_cap c) (ch_buf c ++ [x]).

Definition send_cell (ch : nat) (cv : nat) : M unit :=
  fun s => match cellChans s !! ch with
           | Some c =>
               if chan_len c <? ch_cap c
               then Done () (log (EvSend ch cv) (put_cellChan ch (push cv c) s))
               else Blocked s
           | None => Panic s
           end.
Definition send_int (ch : nat) (x : Z) : M unit :=
  fun s => match intChans s !! ch with
           | Some c =>
               if chan_len c <? ch_cap c
               then Done () (put_intChan ch (push x c) s)
               else Blocked s
           | None => Panic s
           end.

(** [select { case x := <-ch: ...; default: ... }]: the head of the buffer,
    or nothing. *)
Definition poll_cell (ch : nat) : M (option nat) :=
  fun s => match cellChans s !! ch with
           | Some c =>
               match ch_buf c with
               | cv :: rest =>
                   Done (Some cv)
                     (log (EvRecv ch cv) (put_cellChan ch (mkChan (ch_cap c) rest) s))
               | [] => Done None s
               end
           | None => Panic s
           end.
Definition poll_int (ch : nat) : M (option Z) :=
  fun s => match intChans s !! ch with
           | Some c =>
               match ch_buf c with
               | x :: rest =>
                   Done (Some x) (put_intChan ch (mkChan (ch_cap c) rest) s)
               | [] => Done None s
               end
           | None => Panic s
           end.

(** [<-ch]: parks while the buffer is empty. *)
Definition recv_cell (ch : nat) : M nat :=
  r ← poll_cell ch; match r with Some cv => mret cv | None => park end.
Definition recv_int (ch : nat) : M Z :=
  r ← poll_int ch; match r with Some x => mret x | None => park end.

(** [cv.lock.Lock()] and [cv.lock.Unlock()] of the [sync.Mutex] of a cell. *)
Definition cv_Lock (cv : nat) : M unit :=
  c ← load_cell cv;
  if cv_lock c then park
  else store_cell cv (mkValue true (returnChan c) (value c) (lastUsed c));;
       emit (EvLock cv).
Definition cv_Unlock (cv : nat) : M unit :=
  c ← load_cell cv;
  if cv_lock c
  then store_cell cv (mkValue false (returnChan c) (value c) (lastUsed c));;
       emit (EvUnlock cv)
  else panic.

(** The four methods of [sync.RWMutex]. *)
Definition rw_Lock (l : RWMutex) : option RWMutex :=
  if writer l then None
  else match readers l with
       | O => Some {| writer := true; readers := 0 |}
       | S _ => None
       end.
Definition rw_Unlock (l : RWMutex) : option RWMutex :=
  if writer l then Some {| writer := false; readers := readers l |} else None.
Definition rw_RLock (l : RWMutex) : option RWMutex :=
  if writer l then None else Some {| writer := false; readers := S (readers l) |}.
Definition rw_RUnlock (l : RWMutex) : option RWMutex :=
  match readers l with
  | S n => Some {| writer := writer l; readers := n |}
  | O => None
  end.

Definition set_c_lock (l : RWMutex) (c : CachePool) : CachePool :=
  mkPool l (entries c) (lastChecked c).
Definition set_ce_lock (l : RWMutex) (e : cacheEntry) : cacheEntry :=
  mkEntry l (available e) (capacity e) (maxCapacity e) (createValue e) (key e).

(** [c.lock.Lock()], [c.lock.Unlock()], [c.lock.RLock()], [c.lock.RUnlock()]. *)
Definition c_Lock : M unit :=
  c ← load_pool;
  match rw_Lock (c_lock c) with Some l => store_pool (set_c_lock l c) | None => park end.
Definition c_Unlock : M unit :=
  c ← load_pool;
  match rw_Unlock (c_lock c) with Some l => store_pool (set_c_lock l c) | None => panic end.
Definition c_RLock : M unit :=
  c ← load_pool;
  match rw_RLock (c_lock c) with Some l => store_pool (set_c_lock l c) | None => park end.
Definition c_RUnlock : M unit :=
  c ← load_pool;
  match rw_RUnlock (c_lock c) with Some l => store_pool (set_c_lock l c) | None => panic end.

(** The same on [ce.lock]. *)
Definition ce_Lock (ce : nat) : M unit :=
  e ← load_entry ce;
  match rw_Lock (ce_lock e) with Some l => store_entry ce (set_ce_lock l e) | None => park end.
Definition ce_Unlock (ce : nat) : M unit :=
  e ← load_entry ce;
  match rw_Unlock (ce_lock e) with Some l => store_entry ce (set_ce_lock l e) | None => panic end.
Definition ce_RLock (ce : nat) : M unit :=
  e ← load_entry ce;
  match rw_RLock (ce_lock e) with Some l => store_entry ce (set_ce_lock l e) | None => park end.
Definition ce_RUnlock (ce : nat) : M unit :=
  e ← load_entry ce;
  match rw_RUnlock (ce_lock e) with Some l => store_entry ce (set_ce_lock l e) | None => panic end.

(** A call of a factory closure: it sees how many calls came before. *)
Definition call (f : CreateNewValue) : M (V + error) :=
  fun s => let r := f (calls s) in
           Done r (log (EvCreate r) (set_calls S s)).

(** [cv.value.Close()], whose error the cache always drops. *)
Definition close_value (cv : nat) : M unit :=
  c ← load_cell cv;
  let _ := Close (value c) in
  emit (EvClose cv (value c)).

(** [go c.cleanupEntries()]: the goroutine is launched, it runs later. *)
Definition go_cleanupEntries : M unit := fun s => Done () (set_sweeps S s).

(** ** cacheValue *)

(** [cacheValue.acquireFromCache], lines 341-344. *)
Definition acquireFromCache (cv : nat) : M unit :=
  cv_Lock cv;;
  now ← time_Now;
  c ← load_cell cv;
  store_cell cv (mkValue (cv_lock c) (returnChan c) (value c) now).

(** [cacheValue.returnToCache], lines 336-339: the deferred unlock runs
    after the send. *)
Definition returnToCache (cv : nat) : M unit :=
  defer (cv_Unlock cv)
    (c ← load_cell cv;
     send_cell (returnChan c) cv).

(** [cacheValue.updateValue], lines 227-241. *)
Definition updateValue (cv : nat) (createNewValue : CreateNewValue)
    (newAvailable : nat) : M (option error) :=
  cv_Lock cv;;
  defer (cv_Unlock cv)
    (close_value cv;;
     r ← call createNewValue;
     match r with
     | inr err => mret (Some err)
     | inl newValue =>
         c ← load_cell cv;
         store_cell cv (mkValue (cv_lock c) newAvailable newValue (lastUsed c));;
         mret None
     end).

(** Calling a [ReturnClientFunc]. *)
Definition invoke (f : ReturnClientFunc) : M unit :=
  match f with
  | NilReturnCapacityToCache => mret ()
  | returnToCacheOf cv => returnToCache cv
  end.

(** ** cacheEntry *)

(** The zero [time.Time] of a cell that was never acquired. *)
Definition zeroTime : Z := 0.

(** [cacheEntry.createCacheValue], lines 267-280. *)
Definition createCacheValue (ce : nat) : M (nat + error) :=
  e ← load_entry ce;
  r ← call (createValue e);
  match r with
  | inr err => mret (inr err)
  | inl val =>
      e ← load_entry ce;
      cv ← new_cell (mkValue false (available e) val zeroTime);
      mret (inl cv)
  end.

(** The alternatives of the [select] of [getValue] that can proceed: the
    context is done, the available queue holds a cell, the capacity channel
    holds a ticket. *)
Definition ready (ctx : Context) (e : cacheEntry) (s : Store) : list alt :=
  (match Err ctx with Some _ => [AltDone] | None => [] end) ++
  (match cellChans s !! available e with
   | Some (mkChan _ (_ :: _)) => [AltAvailable]
   | _ => []
   end) ++
  (match intChans s !! capacity e with
   | Some (mkChan _ (_ :: _)) => [AltCapacity]
   | _ => []
   end).

(** [select] takes any one of the alternatives that can proceed ([pick]
    stands for the choice of the runtime) and parks when there is none. *)
Definition select (ctx : Context) (e : cacheEntry) (pick : nat) : M alt :=
  fun s => match ready ctx e s with
           | [] => Blocked s
           | a :: rest =>
               Done (nth (pick `mod` length (a :: rest))%nat (a :: rest) a) s
           end.

(** [cacheEntry.getValue], lines 243-265. *)
Definition getValue (ce : nat) (ctx : Context) (pick : nat)
    : M (V * ReturnClientFunc * option error) :=
  ce_RLock ce;;
  defer (ce_RUnlock ce)
    (let defaultValue : V := inhabitant in
     e ← load_entry ce;
     a ← select ctx e pick;
     match a with
     | AltDone => mret (defaultValue, NilReturnCapacityToCache, Err ctx)
     | AltAvailable =>
         cv ← recv_cell (available e);
         acquireFromCache cv;;
         c ← load_cell cv;
         mret (value c, returnToCacheOf cv, None)
     | AltCapacity =>
         _ ← recv_int (capacity e);
         r ← createCacheValue ce;
         match r with
         | inr err =>
             send_int (capacity e) 1;;
             mret (defaultValue, NilReturnCapacityToCache, Some err)
         | inl cv =>
             acquireFromCache cv;;
             c ← load_cell cv;
             mret (value c, returnToCacheOf cv, None)
         end
     end).

(** [for i := 0; i < n; i++ { ch <- 1 }]. *)
Fixpoint fill (ch : nat) (n : nat) : M unit :=
  match n with
  | O => mret ()
  | S n' => send_int ch 1;; fill ch n'
  end.

(** The first loop of [getAvailableCapacity]; [fuel] bounds the number of
    polls. *)
Fixpoint countTickets (fuel : nat) (ch : nat) (availableCapacity : Z) : M Z :=
  match fuel with
  | O => diverge
  | S fuel' =>
      r ← poll_int ch;
      match r with
      | Some _ => countTickets fuel' ch (availableCapacity + 1)
      | None => mret availableCapacity
      end
  end.

(** One poll more than there are tickets: the last one finds none. *)
Definition ticketBound (ch : nat) : M nat :=
  fun s => Done (match intChans s !! ch with
                 | Some c => S (length (ch_buf c))
                 | None => 1%nat
                 end) s.

(** [cacheEntry.getAvailableCapacity], lines 316-334. *)
Definition getAvailableCapacity (ce : nat) : M Z :=
  e ← load_entry ce;
  fuel ← ticketBound (capacity e);
  availableCapacity ← countTickets fuel (capacity e) 0;
  fill (capacity e) (Z.to_nat availableCapacity);;
  mret availableCapacity.

(** The loop of [getValidValuesAndCleanupOthers]. *)
Fixpoint sift (fuel : nat) (ce : nat) (stillValid : list nat) : M (list nat) :=
  match fuel with
  | O => diverge
  | S fuel' =>
      e ← load_entry ce;
      r ← poll_cell (available e);
      match r with
      | Some cv =>
          cv_Lock cv;;
          c ← load_cell cv;
          idle ← time_Since (lastUsed c);
          stillValid' ←
            (if 30 * Minute <=? idle
             then close_value cv;;
                  send_int (capacity e) 1;;
                  mret stillValid
             else mret (stillValid ++ [cv]));
          cv_Unlock cv;;
          sift fuel' ce stillValid'
      | None => mret stillValid
      end
  end.

Definition cellBound (ch : nat) : M nat :=
  fun s => Done (match cellChans s !! ch with
                 | Some c => S (length (ch_buf c))
                 | None => 1%nat
                 end) s.

(** [cacheEntry.getValidValuesAndCleanupOthers], lines 294-314. *)
Definition getValidValuesAndCleanupOthers (ce : nat) : M (list nat) :=
  e ← load_entry ce;
  fuel ← cellBound (available e);
  sift fuel ce [].

(** [for _, value := range stillValid { ce.available <- value }]. *)
Fixpoint requeue (ce : nat) (stillValid : list nat) : M unit :=
  match stillValid with
  | [] => mret ()
  | cv :: rest =>
      e ← load_entry ce;
      send_cell (available e) cv;;
      requeue ce rest
  end.

(** [cacheEntry.cleanupValues], lines 282-292. *)
Definition cleanupValues (ce : nat) : M bool :=
  ce_Lock ce;;
  defer (ce_Unlock ce)
    (stillValid ← getValidValuesAndCleanupOthers ce;
     requeue ce stillValid;;
     n ← getAvailableCapacity ce;
     e ← load_entry ce;
     mret (n =? maxCapacity e)).

(** ** CachePool *)

(** [NewLRUCache], lines 56-61, in a process whose clock shows [now]. *)
Definition NewLRUCache (now : Z) : Store :=
  mkStore (mkPool freeRW ∅ now) [] [] [] [] now 0 0 [].

(** The sweep trigger shared by [AddAndAcquire] (lines 72-75) and [Get]
    (lines 121-124). *)
Definition triggerSweep : M unit :=
  c ← load_pool;
  since ← time_Since (lastChecked c);
  if 5 * Minute <=? since
  then now ← time_Now;
       store_pool (mkPool (c_lock c) (entries c) now);;
       go_cleanupEntries
  else mret ().

(** [c.entries[key] = entry]. *)
Definition install (key : K) (entry : nat) : M unit :=
  c ← load_pool;
  store_pool (mkPool (c_lock c) (<[key := entry]> (entries c)) (lastChecked c)).

(** [delete(c.entries, key)]. *)
Definition uninstall (key : K) : M unit :=
  c ← load_pool;
  store_pool (mkPool (c_lock c) (delete key (entries c)) (lastChecked c)).

(** [CachePool.AddAndAcquire], lines 66-115. *)
Definition AddAndAcquire (ctx : Context) (pick : nat) (key : K)
    (createValue : CreateNewValue) (maxEntries : Z)
    : M (V * ReturnClientFunc * bool * option error) :=
  c_Lock;;
  defer c_Unlock
    (let defaultValue : V := inhabitant in
     triggerSweep;;
     c ← load_pool;
     match entries c !! key with
     | Some entry =>
         '(val, returnValue, err) ← getValue entry ctx pick;
         match err with
         | Some err =>
             invoke returnValue;;
             mret (defaultValue, NilReturnCapacityToCache, true, Some err)
         | None => mret (val, returnValue, true, None)
         end
     | None =>
         available ← make_cellChan maxEntries;
         capacity ← make_intChan maxEntries;
         fill capacity (Z.to_nat maxEntries);;
         entry ← new_entry
                   (mkEntry freeRW available capacity maxEntries createValue key);
         install key entry;;
         _ ← recv_int capacity;
         r ← createCacheValue entry;
         match r with
         | inr err =>
             send_int capacity 1;;
             mret (defaultValue, NilReturnCapacityToCache, false, Some err)
         | inl cv =>
             acquireFromCache cv;;
             c ← load_cell cv;
             mret (value c, returnToCacheOf cv, false, None)
         end
     end).

(** [CachePool.Get], lines 117-141. *)
Definition Get (ctx : Context) (pick : nat) (key : K)
    : M (V * ReturnClientFunc * bool * option error) :=
  c_RLock;;
  defer c_RUnlock
    (triggerSweep;;
     let defaultValue : V := inhabitant in
     c ← load_pool;
     match entries c !! key with
     | None => mret (defaultValue, NilReturnCapacityToCache, false, None)
     | Some entry =>
         '(val, returnValue, err) ← getValue entry ctx pick;
         match err with
         | Some err =>
             invoke returnValue;;
             mret (defaultValue, NilReturnCapacityToCache, true, Some err)
         | None => mret (val, returnValue, true, None)
         end
     end).

(** Lines 165-185 of [UpdateIfExists]: the new channels, the swap under the
    entry lock, the tickets of the new regime.  Returns [oldAvailable],
    [newAvailable] and [inUse]. *)
Definition swapEntry (entry : nat) (createValue : CreateNewValue)
    (maxEntries : Z) : M (nat * nat * Z) :=
  newAvailable ← make_cellChan maxEntries;
  newCapacity ← make_intChan maxEntries;
  ce_Lock entry;;
  availableCapacity ← getAvailableCapacity entry;
  e ← load_entry entry;
  let oldAvailable := available e in
  let oldMaxCapacity := maxCapacity e in
  store_entry entry
    (mkEntry (ce_lock e) newAvailable newCapacity maxEntries createValue (key e));;
  let inUse := oldMaxCapacity - availableCapacity in
  (if 0 <? maxEntries - inUse
   then fill newCapacity (Z.to_nat (maxEntries - inUse))
   else mret ());;
  ce_Unlock entry;;
  mret (oldAvailable, newAvailable, inUse).

(** Lines 189-207 of [UpdateIfExists]: [for inUse > 0], with [inUse] going
    down by one in every iteration.  Returns [j] and [err]. *)
Fixpoint drain (entry oldAvailable newAvailable : nat)
    (createValue : CreateNewValue) (maxEntries : Z)
    (inUse : nat) (j : Z) (err : option error) : M (Z * option error) :=
  match inUse with
  | O => mret (j, err)
  | S inUse' =>
      cv ← recv_cell oldAvailable;
      if maxEntries <=? j
      then cv_Lock cv;;
           close_value cv;;
           cv_Unlock cv;;
           drain entry oldAvailable newAvailable createValue maxEntries inUse' j err
      else
        e ← updateValue cv createValue newAvailable;
        match e with
        | Some e =>
            en ← load_entry entry;
            send_int (capacity en) 1;;
            drain entry oldAvailable newAvailable createValue maxEntries inUse' j
                  (errors_Join [err; Some e])
        | None =>
            send_cell newAvailable cv;;
            drain entry oldAvailable newAvailable createValue maxEntries inUse'
                  (j + 1) err
        end
  end.

(** [CachePool.UpdateIfExists], lines 156-214. *)
Definition UpdateIfExists (key : K) (createValue : CreateNewValue)
    (maxEntries : Z) : M (bool * option error) :=
  c_RLock;;
  defer c_RUnlock
    (c ← load_pool;
     match entries c !! key with
     | None => mret (false, None)
     | Some entry =>
         '(oldAvailable, newAvailable, inUse) ←
           swapEntry entry createValue maxEntries;
         '(j, err) ← drain entry oldAvailable newAvailable createValue
                       maxEntries (Z.to_nat inUse) 0 None;
         match err with
         | Some err => if j =? 0 then mret (true, Some err) else mret (true, None)
         | None => mret (true, None)
         end
     end).

(** [for k := range c.entries]: the entries of the map in the order in which
    the runtime yields them, which the language leaves open ([order] stands
    for its choice). *)
Definition rangeEntries (order : nat) (m : gmap K nat) : list (K * nat) :=
  let l := map_to_list m in
  let ps := permutations l in
  nth (order `mod` length ps)%nat ps l.

(** [CachePool.Keys], lines 143-154. *)
Definition Keys (order : nat) : M (list K) :=
  c_RLock;;
  defer c_RUnlock
    (c ← load_pool;
     let keys : list K := [] in
     mret (foldl (λ keys kv, keys ++ [kv.1]) keys
             (rangeEntries order (entries c)))).

(** The loop of [cleanupEntries] over the entries of the map: an entry that
    was deleted before the loop reached it is not visited. *)
Fixpoint sweepEntries (es : list (K * nat)) : M unit :=
  match es with
  | [] => mret ()
  | (k, entry) :: rest =>
      c ← load_pool;
      match entries c !! k with
      | None => sweepEntries rest
      | Some _ =>
          noneLeft ← cleanupValues entry;
          (if noneLeft : bool
           then e ← load_entry entry; uninstall (key e)
           else mret ());;
          sweepEntries rest
      end
  end.

(** [CachePool.cleanupEntries], lines 216-225. *)
Definition cleanupEntries (order : nat) : M unit :=
  c_Lock;;
  defer c_Unlock
    (c ← load_pool;
     sweepEntries (rangeEntries order (entries c))).

(** ** Vocabulary of the statements *)

(** A cell that the sweep closes: idle for thirty minutes or more. *)
Definition expired (s : Store) (cv : nat) : bool :=
  match cellHeap s !! cv with
  | Some c => 30 * Minute <=? clock s - lastUsed c
  | None => false
  end.

(** Several events at once. *)
Definition logs (evs : list event) (s : Store) : Store :=
  mkStore (pool s) (entryHeap s) (cellHeap s) (cellChans s) (intChans s)
          (clock s) (calls s) (sweeps s) (trace s ++ evs).

(** What the sweep does to one cell of the queue. *)
Definition sift_events (ch : nat) (s : Store) (cv : nat) : list event :=
  match cellHeap s !! cv with
  | Some c =>
      [EvRecv ch cv; EvLock cv] ++
      (if expired s cv then [EvClose cv (value c)] else []) ++ [EvUnlock cv]
  | None => []
  end.

(** The sweep trigger fires when five minutes have passed since the last
    check; it then stamps [lastChecked] and launches one sweep. *)
Definition dueSweep (s : Store) : bool :=
  5 * Minute <=? clock s - lastChecked (pool s).
Definition checkedAt (s : Store) : Z :=
  if dueSweep s then clock s else lastChecked (pool s).
Definition sweepsAfter (s : Store) : nat :=
  if dueSweep s then S (sweeps s) else sweeps s.

(** [s'] has the map of [s], and every entry of [s] is in [s'] with the same
    channels, bound, factory and key (its lock may differ). *)
Definition same_setup (e e' : cacheEntry) : Prop :=
  available e' = available e ∧ capacity e' = capacity e ∧
  maxCapacity e' = maxCapacity e ∧ createValue e' = createValue e ∧
  key e' = key e.
Definition same_entries (s s' : Store) : Prop :=
  entries (pool s') = entries (pool s) ∧
  ∀ ce e, entryHeap s !! ce = Some e →
          ∃ e', entryHeap s' !! ce = Some e' ∧ same_setup e e'.

(** [keeps m]: when [m] returns, the map and the setup of the entries are
    those of the start. *)
Definition keeps {A} (m : M A) : Prop :=
  ∀ s a s', m s = Done a s' → same_entries s s'.

(** [ensures Q m]: whatever [m] returns satisfies [Q]. *)
Definition ensures {A} (Q : A → Prop) (m : M A) : Prop :=
  ∀ s a s', m s = Done a s' → Q a.

(** What [AddAndAcquire] and [Get] make of the results of [getValue]. *)
Definition found (r : V * ReturnClientFunc * option error)
    : V * ReturnClientFunc * bool * option error :=
  match r.2 with
  | Some err => (inhabitant, NilReturnCapacityToCache, true, Some err)
  | None => (r.1.1, r.1.2, true, None)
  end.

(** The cells of an entry that callers hold: locked, and bound to the
    available queue of the entry. *)
Definition held_for (e : cacheEntry) (c : cacheValue) : bool :=
  cv_lock c && (returnChan c =? available e)%nat.
Definition in_use (s : Store) (e : cacheEntry) : nat :=
  length (List.filter (held_for e) (cellHeap s)).

(** Idle cells, cells in use and tickets of an entry, counted together. *)
Definition census (s : Store) (e : cacheEntry) : option Z :=
  match cellChans s !! available e, intChans s !! capacity e with
  | Some ca, Some cc => Some (chan_len ca + Z.of_nat (in_use s e) + chan_len cc)
  | _, _ => None
  end.

(** Capacity conservation. *)
Definition conserved (s : Store) (e : cacheEntry) : Prop :=
  census s e = Some (maxCapacity e).

(** The store inside a method of the pool, once the lock of the pool is
    taken (it then reads [l]) and the sweep trigger has run; and the store
    once the lock is free again. *)
Definition inside (l : RWMutex) (s : Store) : Store :=
  mkStore (mkPool l (entries (pool s)) (checkedAt s)) (entryHeap s) (cellHeap s)
          (cellChans s) (intChans s) (clock s) (calls s) (sweepsAfter s) (trace s).
Definition outside (s : Store) : Store :=
  set_pool (λ c, mkPool freeRW (entries c) (lastChecked c)) s.

(** What the loop of [UpdateIfExists] does with one cell it drains: it
    closes it as excess, or it fails to rebuild it, or it rebuilds it. *)
Inductive fate :=
  | Excess
  | Failed (err : error)
  | Rebuilt (v : V).

(** The fates of the next [n] cells, when [call] factory calls were made
    before and [j] cells are already in the new queue: the control flow of
    the loop, without the store. *)
Fixpoint fates (f : CreateNewValue) (maxEntries : Z) (n : nat) (call : nat)
    (j : Z) : list fate :=
  match n with
  | O => []
  | S n' =>
      if maxEntries <=? j
      then Excess :: fates f maxEntries n' call j
      else match f call with
           | inr err => Failed err :: fates f maxEntries n' (S call) j
           | inl v => Rebuilt v :: fates f maxEntries n' (S call) (j + 1)
           end
  end.

Definition failures (fs : list fate) : list error :=
  omap (λ x, match x with Failed err => Some err | _ => None end) fs.
Definition is_rebuilt (x : fate) : bool :=
  match x with Rebuilt _ => true | _ => false end.
Definition is_excess (x : fate) : bool :=
  match x with Excess => true | _ => false end.
Definition rebuilt (fs : list fate) : nat := length (List.filter is_rebuilt fs).
Definition attempts (fs : list fate) : nat :=
  length (List.filter (λ x, negb (is_excess x)) fs).

(** The cells that were rebuilt, in the order in which they were drained. *)
Fixpoint kept (cells : list nat) (fs : list fate) : list nat :=
  match cells, fs with
  | cv :: cells', Rebuilt _ :: fs' => cv :: kept cells' fs'
  | _ :: cells', _ :: fs' => kept cells' fs'
  | _, _ => []
  end.

(** [err = errors.Join(err, e)] for the errors of the failed rebuilds, in
    order. *)
Definition joinErrs (err : option error) (es : list error) : option error :=
  fold_left (λ acc e, errors_Join [acc; Some e]) es err.

(** What the loop does to a drained cell whose value is [v], by the fate of
    the cell: it takes it from the old queue, locks it and closes its value;
    a cell in excess is then left; for the others the factory is called, and
    a rebuilt cell is sent to the new queue. *)
Definition drain_events (old new cv : nat) (v : V) (x : fate) : list event :=
  [EvRecv old cv; EvLock cv; EvClose cv v] ++
  match x with
  | Excess => [EvUnlock cv]
  | Failed err => [EvCreate (inr err); EvUnlock cv]
  | Rebuilt v' => [EvCreate (inl v'); EvUnlock cv; EvSend new cv]
  end.

(** What it does to the cells of a queue, fate by fate, [h] being the heap of
    cells before the loop. *)
Fixpoint drained (old new : nat) (h : list cacheValue) (cells : list nat)
    (fs : list fate) : list event :=
  match cells, fs with
  | cv :: cells', x :: fs' =>
      match h !! cv with
      | Some c => drain_events old new cv (value c) x
      | None => []
      end ++ drained old new h cells' fs'
  | _, _ => []
  end.

(** A cell that exists and that nobody holds. *)
Definition idle_cell (s : Store) (cv : nat) : Prop :=
  ∃ c, cellHeap s !! cv = Some c ∧ cv_lock c = false.

(** ** Pools in order *)

(** Whether the element at index [i] of a heap satisfies [P]. *)
Definition hit {A} (P : A → bool) (l : list A) (i : nat) : bool :=
  match l !! i with Some x => P x | None => false end.

(** Whether the cell at [cv] is one that a caller holds for [e]. *)
Definition held_at (s : Store) (e : cacheEntry) (cv : nat) : bool :=
  hit (held_for e) (cellHeap s) cv.

(** A cell that waits in the queue of [e]: it exists, nobody holds it, and it
    goes back to that queue. *)
Definition queued_for (s : Store) (e : cacheEntry) (cv : nat) : Prop :=
  ∃ c, cellHeap s !! cv = Some c ∧ cv_lock c = false ∧
       returnChan c = available e.

(** An entry in order: its two channels have the bound of the entry as their
    size, its queue holds idle cells of the entry, each of them once, and
    capacity is conserved. *)
Definition sound (s : Store) (e : cacheEntry) : Prop :=
  ∃ buf tk,
    cellChans s !! available e = Some (mkChan (maxCapacity e) buf) ∧
    intChans s !! capacity e = Some (mkChan (maxCapacity e) tk) ∧
    NoDup buf ∧ Forall (queued_for s e) buf ∧
    conserved s e.

(** The heaps of a pool in order: every key of the map leads to an entry in
    order, with that key and a free lock; two keys never share a channel;
    and no cell is bound to a channel that does not exist. *)
Definition Tidy (s : Store) : Prop :=
  (∀ k ce, entries (pool s) !! k = Some ce →
     ∃ e, entryHeap s !! ce = Some e ∧ key e = k ∧ ce_lock e = freeRW ∧
          sound s e) ∧
  (∀ k1 k2 ce1 ce2 e1 e2, k1 ≠ k2 →
     entries (pool s) !! k1 = Some ce1 → entries (pool s) !! k2 = Some ce2 →
     entryHeap s !! ce1 = Some e1 → entryHeap s !! ce2 = Some e2 →
     available e1 ≠ available e2 ∧ capacity e1 ≠ capacity e2) ∧
  (∀ cv c, cellHeap s !! cv = Some c →
     (returnChan c < length (cellChans s))%nat).

(** A pool in order that no goroutine is in. *)
Definition Sound (s : Store) : Prop :=
  c_lock (pool s) = freeRW ∧ Tidy s.

(** An entry that a sweep removes from the map: none of its cells is in use
    and every idle one has expired. *)
Definition vacant (s : Store) (ce : nat) : bool :=
  match entryHeap s !! ce with
  | Some e =>
      match cellChans s !! available e with
      | Some ca => forallb (expired s) (ch_buf ca) && (in_use s e =? 0)%nat
      | None => false
      end
  | None => false
  end.

End Model.

Arguments Done {K _ _ V A} _ _.
Arguments Blocked {K _ _ V A} _.
Arguments Panic {K _ _ V A} _.
Arguments Diverged {K _ _ V A} _.

(** ** A pool of numbered resources, for the runs below *)

#[global] Instance nat_Closeable : Closeable nat := fun _ => None.

(** The limit of [make] on 64-bit Linux, where the header of a channel (96
    bytes) and its buffer (eight bytes an element) are at most 2^48 bytes
    together. *)
#[global] Instance linux64 : Runtime := 35184372088820%N.

Definition K0 : Type := nat.
Definition V0 : Type := nat.

(** Factories: one that works and hands out the call number, one that never
    works, one that fails on call number [n] only. *)
Definition working : @CreateNewValue V0 := fun i => inl (100 + i)%nat.
Definition broken : @CreateNewValue V0 := fun _ => inr (Failure 7).
Definition brokenAt (n : nat) : @CreateNewValue V0 :=
  fun i => if (i =? n)%nat then inr (Failure 7) else inl (100 + i)%nat.

Definition run {A} (m : @M K0 _ _ V0 A) (s : @Store K0 _ _ V0) : @Store K0 _ _ V0 :=
  match m s with
  | Done _ s' => s'
  | Blocked s' => s'
  | Panic s' => s'
  | Diverged s' => s'
  end.

(** The clock moves on by [d]. *)
Definition later (d : Z) (s : @Store K0 _ _ V0) : @Store K0 _ _ V0 :=
  mkStore (pool s) (entryHeap s) (cellHeap s) (cellChans s) (intChans s)
          (clock s + d) (calls s) (sweeps s) (trace s).

Definition Cancelled : Context := {| Err := Some Canceled |}.

(** A new pool; key 1 with bound 2 and one cell held; both cells held; both
    cells released; the same half an hour and a minute later; and a pool in
    which the first call for key 1 had a factory that never works. *)
Definition fresh : @Store K0 _ _ V0 := NewLRUCache 0.
Definition oneHeld := run (AddAndAcquire Background 0 1%nat working 2) fresh.
Definition twoHeld := run (AddAndAcquire Background 0 1%nat working 2) oneHeld.
Definition twoIdle := run (returnToCache 1) (run (returnToCache 0) twoHeld).
Definition twoStale := later (31 * Minute) twoIdle.
Definition noCell := run (AddAndAcquire Background 0 1%nat broken 2) fresh.


(** The entry of key 1 in these pools. *)
Definition entry1 (f : @CreateNewValue V0) : @cacheEntry K0 V0 :=
  mkEntry freeRW 0 0 2 f 1%nat.

(** [twoIdle] after [UpdateIfExists] to bound 1 with a factory whose first
    call there fails. *)
Definition shrunk := run (UpdateIfExists 1%nat (brokenAt 2) 1) twoIdle.

(** The entry of key 1 in [shrunk]: its channels are the two made by the
    update, at index 1 of their heaps. *)
Definition entry1' : @cacheEntry K0 V0 := mkEntry freeRW 1 1 1 (brokenAt 2) 1%nat.
(** * Proofs *)

Section Proofs.
Context {K : Type} {K_eq : EqDecision K} {K_countable : Countable K}.
Context {V : Type} {V_zero : Inhabited V} {V_closeable : Closeable V}.
Context {RT : Runtime}.

Abbreviation Store := (@Store K _ _ V).
Abbreviation M := (@M K _ _ V).
Abbreviation keeps m := (@keeps K _ _ V _ m).
Abbreviation ensures Q m := (@ensures K _ _ V _ Q m).

(** ** Running a computation step by step *)

Lemma bind_Done {A B} (m : M A) (k : A → M B) (s s' : Store) (a : A) :
  m s = Done a s' → (m ≫= k) s = k a s'.
Proof. intros Hm. unfold mbind, M_bind, bind. now rewrite Hm. Qed.

Lemma bind_assoc {A B C} (m : M A) (k : A → M B) (k' : B → M C) (s : Store) :
  ((m ≫= k) ≫= k') s = (m ≫= λ a, k a ≫= k') s.
Proof. unfold mbind, M_bind, bind. now destruct (m s). Qed.

Lemma mret_bind {A B} (a : A) (k : A → M B) (s : Store) : (mret a ≫= k) s = k a s.
Proof. reflexivity. Qed.

Lemma mret_run {A} (a : A) (s : Store) : (mret a : M A) s = Done a s.
Proof. reflexivity. Qed.

(** Writing back what is there changes nothing. *)
Lemma put_intChan_id ch c (s : Store) :
  intChans s !! ch = Some c → put_intChan ch c s = s.
Proof.
  intros Hc. destruct s. unfold put_intChan, set_intChans. simpl in *.
  f_equal. now apply list_insert_id.
Qed.

Lemma put_intChan_twice ch c c' (s : Store) :
  put_intChan ch c (put_intChan ch c' s) = put_intChan ch c s.
Proof.
  unfold put_intChan, set_intChans. simpl. f_equal. apply list_insert_insert_eq.
Qed.

Lemma put_intChan_lookup ch c c' (s : Store) :
  intChans s !! ch = Some c' → intChans (put_intChan ch c s) !! ch = Some c.
Proof.
  intros Hc. simpl. apply list_lookup_insert_eq. eapply lookup_lt_Some, Hc.
Qed.

(** ** The ticket loops *)

Lemma poll_int_cons ch cap x rest (s : Store) :
  intChans s !! ch = Some (mkChan cap (x :: rest)) →
  poll_int ch s = Done (Some x) (put_intChan ch (mkChan cap rest) s).
Proof. intros Hc. unfold poll_int. now rewrite Hc. Qed.

Lemma poll_int_nil ch cap (s : Store) :
  intChans s !! ch = Some (mkChan cap []) → poll_int ch s = Done None s.
Proof. intros Hc. unfold poll_int. now rewrite Hc. Qed.

Lemma send_int_room ch c x (s : Store) :
  intChans s !! ch = Some c → chan_len c < ch_cap c →
  send_int ch x s = Done () (put_intChan ch (push x c) s).
Proof.
  intros Hc Hlt. unfold send_int. rewrite Hc.
  destruct (Z.ltb_spec (chan_len c) (ch_cap c)); [reflexivity | lia].
Qed.

Lemma countTickets_S fuel ch acc :
  countTickets (S fuel) ch acc
  = (r ← poll_int ch;
     match r with
     | Some _ => countTickets fuel ch (acc + 1)
     | None => mret acc
     end : M Z).
Proof. reflexivity. Qed.

Lemma fill_S ch n : fill ch (S n) = (send_int ch 1;; fill ch n : M unit).
Proof. reflexivity. Qed.

(** Polling until the channel is empty counts its tickets and empties it. *)
Lemma countTickets_run ch cap buf : ∀ acc (s : Store),
  intChans s !! ch = Some (mkChan cap buf) →
  countTickets (S (length buf)) ch acc s
  = Done (acc + Z.of_nat (length buf)) (put_intChan ch (mkChan cap []) s).
Proof.
  induction buf as [|x rest IH]; intros acc s Hc.
  - simpl length. rewrite countTickets_S, (bind_Done _ _ _ _ _ (poll_int_nil _ _ _ Hc)).
    rewrite put_intChan_id by exact Hc. simpl. now rewrite Z.add_0_r.
  - change (length (x :: rest)) with (S (length rest)).
    rewrite countTickets_S, (bind_Done _ _ _ _ _ (poll_int_cons _ _ _ _ _ Hc)).
    cbv beta iota. rewrite IH by (eapply put_intChan_lookup, Hc).
    rewrite put_intChan_twice. f_equal. lia.
Qed.

(** Sending [n] tickets into a channel with room for them. *)
Lemma fill_run ch cap n : ∀ buf (s : Store),
  intChans s !! ch = Some (mkChan cap buf) →
  Z.of_nat (length buf + n) ≤ cap →
  fill ch n s = Done () (put_intChan ch (mkChan cap (buf ++ replicate n 1)) s).
Proof.
  induction n as [|n IH]; intros buf s Hc Hroom.
  - simpl. rewrite app_nil_r. now rewrite put_intChan_id.
  - rewrite fill_S.
    rewrite (bind_Done _ _ _ _ _ (send_int_room _ _ 1 _ Hc ltac:(unfold chan_len; simpl; lia))).
    cbv beta. unfold push; simpl ch_cap; simpl ch_buf.
    rewrite (IH (buf ++ [1])).
    + rewrite put_intChan_twice. rewrite <- app_assoc. reflexivity.
    + eapply put_intChan_lookup, Hc.
    + rewrite length_app. simpl. lia.
Qed.



Lemma lookup_snoc {A} (h : list A) (x : A) : (h ++ [x]) !! length h = Some x.
Proof. now apply list_lookup_middle. Qed.

Lemma insert_snoc {A} (h : list A) (x y : A) :
  <[length h := y]> (h ++ [x]) = h ++ [y].
Proof.
  replace (length h) with (length h + 0)%nat at 1 by lia.
  now rewrite insert_app_r.
Qed.

Ltac lk :=
  first
    [ eassumption
    | reflexivity
    | solve [ simpl; eassumption ]
    | solve [ simpl; reflexivity ]
    | solve [ simpl; rewrite ?insert_snoc; apply lookup_snoc ]
    | solve [ simpl; rewrite ?list_insert_insert_eq;
              rewrite list_lookup_insert_eq
                by (rewrite ?length_insert; eapply lookup_lt_Some; eassumption);
              reflexivity ]
    | solve [ unfold chan_len in *; simpl in *; lia ] ].

Ltac step L :=
  rewrite ?bind_assoc; erewrite bind_Done; [ | eapply L; lk ]; cbv beta iota.

Lemma store_ext (s1 s2 : Store) :
  pool s1 = pool s2 → entryHeap s1 = entryHeap s2 → cellHeap s1 = cellHeap s2 →
  cellChans s1 = cellChans s2 → intChans s1 = intChans s2 →
  clock s1 = clock s2 → calls s1 = calls s2 → sweeps s1 = sweeps s2 →
  trace s1 = trace s2 → s1 = s2.
Proof. destruct s1, s2. simpl. now intros -> -> -> -> -> -> -> -> ->. Qed.

Lemma Done_eq {A} (a a' : A) (s s' : Store) :
  a = a' → s = s' → Done a s = Done a' s'.
Proof. now intros -> ->. Qed.

(** Two stores are compared field by field. *)
Ltac store_eq :=
  apply store_ext; simpl;
  rewrite ?list_insert_insert_eq, ?insert_snoc, <- ?app_assoc; simpl;
  try reflexivity.

(** Two results: first the values, then the stores. *)
Ltac done_eq := apply Done_eq; [ try reflexivity | store_eq ].

Lemma load_entry_run ce e (s : Store) :
  entryHeap s !! ce = Some e → load_entry ce s = Done e s.
Proof. intros He. unfold load_entry. now rewrite He. Qed.

Lemma load_cell_run cv c (s : Store) :
  cellHeap s !! cv = Some c → load_cell cv s = Done c s.
Proof. intros Hc. unfold load_cell. now rewrite Hc. Qed.

Lemma poll_cell_cons ch cap cv rest (s : Store) :
  cellChans s !! ch = Some (mkChan cap (cv :: rest)) →
  poll_cell ch s
  = Done (Some cv) (log (EvRecv ch cv) (put_cellChan ch (mkChan cap rest) s)).
Proof. intros Hc. unfold poll_cell. now rewrite Hc. Qed.

Lemma poll_cell_nil ch cap (s : Store) :
  cellChans s !! ch = Some (mkChan cap []) → poll_cell ch s = Done None s.
Proof. intros Hc. unfold poll_cell. now rewrite Hc. Qed.

Lemma send_cell_room ch c cv (s : Store) :
  cellChans s !! ch = Some c → chan_len c < ch_cap c →
  send_cell ch cv s = Done () (log (EvSend ch cv) (put_cellChan ch (push cv c) s)).
Proof.
  intros Hc Hlt. unfold send_cell. rewrite Hc.
  destruct (Z.ltb_spec (chan_len c) (ch_cap c)); [reflexivity | lia].
Qed.

Lemma cv_Lock_run cv c (s : Store) :
  cellHeap s !! cv = Some c → cv_lock c = false →
  cv_Lock cv s
  = Done () (log (EvLock cv)
               (put_cell cv (mkValue true (returnChan c) (value c) (lastUsed c)) s)).
Proof.
  intros Hc Hl. unfold cv_Lock. rewrite (bind_Done _ _ _ _ _ (load_cell_run _ _ _ Hc)).
  now rewrite Hl.
Qed.

Lemma cv_Unlock_run cv c (s : Store) :
  cellHeap s !! cv = Some c → cv_lock c = true →
  cv_Unlock cv s
  = Done () (log (EvUnlock cv)
               (put_cell cv (mkValue false (returnChan c) (value c) (lastUsed c)) s)).
Proof.
  intros Hc Hl. unfold cv_Unlock. rewrite (bind_Done _ _ _ _ _ (load_cell_run _ _ _ Hc)).
  now rewrite Hl.
Qed.

Lemma close_value_run cv c (s : Store) :
  cellHeap s !! cv = Some c →
  close_value cv s = Done () (log (EvClose cv (value c)) s).
Proof.
  intros Hc. unfold close_value.
  now rewrite (bind_Done _ _ _ _ _ (load_cell_run _ _ _ Hc)).
Qed.

Lemma time_Since_run t (s : Store) : time_Since t s = Done (clock s - t) s.
Proof. reflexivity. Qed.

Lemma sift_S fuel ce stillValid :
  sift (S fuel) ce stillValid
  = (e ← load_entry ce;
      r ← poll_cell (available e);
      match r with
      | Some cv =>
          cv_Lock cv;;
          c ← load_cell cv;
          idle ← time_Since (lastUsed c);
          stillValid' ←
            (if 30 * Minute <=? idle
             then close_value cv;;
                  send_int (capacity e) 1;;
                  mret stillValid
             else mret (stillValid ++ [cv]));
          cv_Unlock cv;;
          sift fuel ce stillValid'
      | None => mret stillValid
      end : M (list nat)).
Proof. reflexivity. Qed.

(** One iteration of the loop of [getValidValuesAndCleanupOthers] on a cell
    [cv] that nobody holds. *)
Lemma sift_iter ce e cap cv rest capi tickets c fuel acc (s : Store) :
  entryHeap s !! ce = Some e →
  cellChans s !! available e = Some (mkChan cap (cv :: rest)) →
  intChans s !! capacity e = Some (mkChan capi tickets) →
  cellHeap s !! cv = Some c → cv_lock c = false →
  Z.of_nat (length tickets + (if expired s cv then 1 else 0)) ≤ capi →
  sift (S fuel) ce acc s
  = sift fuel ce (if expired s cv then acc else acc ++ [cv])
      (logs (sift_events (available e) s cv)
         (put_intChan (capacity e)
            (mkChan capi (tickets ++ if expired s cv then [1] else []))
            (put_cellChan (available e) (mkChan cap rest) s))).
Proof.
  intros He Hca Hci Hp Hl Hroom.
  rewrite sift_S.
  step load_entry_run. step poll_cell_cons. step cv_Lock_run.
  step load_cell_run. step time_Since_run. simpl lastUsed. simpl clock.
  unfold sift_events, expired in *. rewrite Hp in *.
  destruct c as [l rc v lu]; simpl in *; subst l.
  destruct (30 * Minute <=? clock s - lu).
  - step close_value_run. step send_int_room. rewrite mret_bind.
    step cv_Unlock_run. f_equal. store_eq.
    now apply list_insert_id.
  - rewrite mret_bind. step cv_Unlock_run. f_equal. store_eq.
    + now apply list_insert_id.
    + rewrite app_nil_r. symmetry. now apply list_insert_id.
Qed.


(** The whole loop: the expired cells of the queue are closed and pay a
    ticket each, the others are collected in the order of the queue. *)
Lemma sift_run ce e cap capi : ∀ buf tickets acc (s : Store),
  entryHeap s !! ce = Some e →
  cellChans s !! available e = Some (mkChan cap buf) →
  intChans s !! capacity e = Some (mkChan capi tickets) →
  Forall (idle_cell s) buf →
  Z.of_nat (length tickets + length (List.filter (expired s) buf)) ≤ capi →
  sift (S (length buf)) ce acc s
  = Done (acc ++ List.filter (λ cv, negb (expired s cv)) buf)
      (logs (concat (map (sift_events (available e) s) buf))
         (put_intChan (capacity e)
            (mkChan capi
               (tickets ++ replicate (length (List.filter (expired s) buf)) 1))
            (put_cellChan (available e) (mkChan cap []) s))).
Proof.
  induction buf as [|cv rest IH]; intros tickets acc s He Hca Hci Hidle Hroom.
  - simpl length. rewrite sift_S. step load_entry_run. step poll_cell_nil.
    rewrite mret_run. simpl. rewrite !app_nil_r. done_eq.
    + symmetry. now apply list_insert_id.
    + symmetry. now apply list_insert_id.
    + now rewrite app_nil_r.
  - apply Forall_cons in Hidle as [(c & Hc & Hl) Hidle].
    change (length (cv :: rest)) with (S (length rest)).
    rewrite (sift_iter ce e cap cv rest capi tickets c _ acc s He Hca Hci Hc Hl).
    2:{ simpl in Hroom. destruct (expired s cv); simpl in *; lia. }
    rewrite (IH (tickets ++ if expired s cv then [1] else [])
                (if expired s cv then acc else acc ++ [cv])).
    + simpl List.filter. simpl map. simpl concat.
      change (expired (logs _ _)) with (expired s).
      change (sift_events (available e) (logs _ _)) with (sift_events (available e) s).
      destruct (expired s cv); simpl; done_eq; now rewrite <- ?app_assoc.
    + lk.
    + lk.
    + lk.
    + exact Hidle.
    + change (expired (logs _ _)) with (expired s). simpl in Hroom.
      rewrite length_app. destruct (expired s cv); simpl in *; lia.
Qed.


Lemma requeue_run ce e cap : ∀ vs buf (s : Store),
  entryHeap s !! ce = Some e →
  cellChans s !! available e = Some (mkChan cap buf) →
  Z.of_nat (length buf + length vs) ≤ cap →
  requeue ce vs s
  = Done () (logs (map (EvSend (available e)) vs)
               (put_cellChan (available e) (mkChan cap (buf ++ vs)) s)).
Proof.
  induction vs as [|cv vs IH]; intros buf s He Hca Hroom.
  - simpl. rewrite mret_run. rewrite app_nil_r. done_eq.
    + symmetry. now apply list_insert_id.
    + now rewrite app_nil_r.
  - simpl requeue. step load_entry_run. step send_cell_room.
    rewrite (IH (buf ++ [cv])).
    + unfold push. simpl. done_eq.
    + lk.
    + lk.
    + simpl. rewrite length_app. simpl in *. lia.
Qed.

Lemma ticketBound_run ch c (s : Store) :
  intChans s !! ch = Some c → ticketBound ch s = Done (S (length (ch_buf c))) s.
Proof. intros Hc. unfold ticketBound. now rewrite Hc. Qed.

Lemma cellBound_run ch c (s : Store) :
  cellChans s !! ch = Some c → cellBound ch s = Done (S (length (ch_buf c))) s.
Proof. intros Hc. unfold cellBound. now rewrite Hc. Qed.

(** [getAvailableCapacity] as a state transformer. *)
Lemma getAvailableCapacity_run ce e cap buf (s : Store) :
  entryHeap s !! ce = Some e →
  intChans s !! capacity e = Some (mkChan cap buf) →
  Z.of_nat (length buf) ≤ cap →
  getAvailableCapacity ce s
  = Done (Z.of_nat (length buf))
      (put_intChan (capacity e) (mkChan cap (replicate (length buf) 1)) s).
Proof.
  intros He Hc Hwf. unfold getAvailableCapacity.
  step load_entry_run. step ticketBound_run. simpl ch_buf.
  step countTickets_run. rewrite Z.add_0_l, Nat2Z.id.
  erewrite bind_Done; [ | eapply (fill_run _ cap _ []); [lk | simpl; lia] ].
  rewrite mret_run. simpl. now rewrite put_intChan_twice.
Qed.

(** C8. [getAvailableCapacity] returns the number of tickets that the
    capacity channel of the entry holds, and when it returns the channel
    holds as many tickets as before the call (the same channel, with the same
    bound); nothing else in the store changes, and a channel that held only
    the tickets [1] that the cache sends is left exactly as it was. *)
Theorem getAvailableCapacity_counts_and_restores ce e c (s : Store) :
  entryHeap s !! ce = Some e →
  intChans s !! capacity e = Some c →
  chan_len c ≤ ch_cap c →
  ∃ s', getAvailableCapacity ce s = Done (chan_len c) s' ∧
        (∃ c', intChans s' !! capacity e = Some c' ∧
               chan_len c' = chan_len c ∧ ch_cap c' = ch_cap c) ∧
        (∀ ch, ch ≠ capacity e → intChans s' !! ch = intChans s !! ch) ∧
        pool s' = pool s ∧ entryHeap s' = entryHeap s ∧
        cellHeap s' = cellHeap s ∧ cellChans s' = cellChans s ∧
        trace s' = trace s ∧
        (Forall (eq 1) (ch_buf c) → s' = s).
Proof.
  intros He Hc Hwf. destruct c as [cap buf]. unfold chan_len in *. simpl in *.
  eexists. split; [ now apply (getAvailableCapacity_run ce e cap buf) | ].
  split; [ | split; [ | repeat split ] ].
  - eexists. split; [ eapply put_intChan_lookup, Hc | ].
    unfold chan_len. simpl. now rewrite length_replicate.
  - intros ch Hne. simpl. now apply list_lookup_insert_ne.
  - intros Hones. apply put_intChan_id. rewrite Hc. do 2 f_equal.
    clear -Hones. induction Hones as [|x l Hx _ IH]; simpl; [reflexivity|].
    rewrite <- Hx. f_equal. exact IH.
Qed.

Lemma ce_Lock_run ce e (s : Store) :
  entryHeap s !! ce = Some e → ce_lock e = freeRW →
  ce_Lock ce s
  = Done () (put_entry ce (set_ce_lock {| writer := true; readers := 0 |} e) s).
Proof.
  intros He Hl. unfold ce_Lock. step load_entry_run. now rewrite Hl.
Qed.

Lemma ce_Unlock_run ce e (s : Store) :
  entryHeap s !! ce = Some e → writer (ce_lock e) = true →
  ce_Unlock ce s
  = Done () (put_entry ce
               (set_ce_lock {| writer := false; readers := readers (ce_lock e) |} e) s).
Proof.
  intros He Hl. unfold ce_Unlock. step load_entry_run. unfold rw_Unlock.
  now rewrite Hl.
Qed.

(** ** Deferred calls *)

Lemma defer_run {A} (d : M unit) (body : M A) (s s1 s2 : Store) (a : A) :
  body s = Done a s1 → d s1 = Done () s2 → defer d body s = Done a s2.
Proof.
  intros Hb Hd. unfold defer. rewrite Hb.
  now rewrite (bind_Done _ _ _ _ _ Hd).
Qed.

(** A body that does not panic: the deferred call comes after it. *)
Lemma defer_seq {A} (d : M unit) (body : M A) (s : Store) (res : Res A) :
  (r ← body; d;; mret r) s = res → (∀ s', res ≠ Panic s') →
  defer d body s = res.
Proof.
  intros Hrun Hres. unfold defer.
  unfold mbind, M_bind, bind in Hrun. unfold mbind, M_bind, bind.
  destruct (body s) as [r s1|s1|s1|s1]; try exact Hrun.
  subst res. now destruct (Hres s1).
Qed.

(** A body that panics: the deferred call runs, and the panic goes on. *)
Lemma defer_Panic {A} (d : M unit) (body : M A) (s s1 s2 : Store) :
  body s = Panic s1 → d s1 = Done () s2 → defer d body s = Panic s2.
Proof.
  intros Hb Hd. unfold defer. rewrite Hb.
  now rewrite (bind_Done _ _ _ _ _ Hd).
Qed.

Lemma defer_Blocked {A} (d : M unit) (body : M A) (s s1 : Store) :
  body s = Blocked s1 → defer d body s = Blocked s1.
Proof. intros Hb. unfold defer. now rewrite Hb. Qed.

Ltac undefer := apply defer_seq; [ | intros ? ?; discriminate ].

Lemma defer_cong {A} (d : M unit) (body body' : M A) (s : Store) :
  body s = body' s → defer d body s = defer d body' s.
Proof. intros Hb. unfold defer. now rewrite Hb. Qed.

(** What a call with a deferred call returns, it returns after its body has
    returned and the deferred call after it. *)
Lemma defer_inv {A} (d : M unit) (body : M A) (s s' : Store) (a : A) :
  defer d body s = Done a s' →
  ∃ s1, body s = Done a s1 ∧ d s1 = Done () s'.
Proof.
  unfold defer. destruct (body s) as [r s1|s1|s1|s1]; try discriminate.
  - unfold mbind, M_bind, bind.
    destruct (d s1) as [[] s2|s2|s2|s2] eqn:Hd; try discriminate.
    intros Hrun. injection Hrun as -> ->. now exists s1.
  - unfold mbind, M_bind, bind. destruct (d s1); discriminate.
Qed.


(** C6. [cleanupValues], on an entry whose queued cells nobody holds: the
    queue is drained without waiting; every drained cell with
    [now - lastUsed >= 30 min] is closed and pays one ticket into the
    capacity channel, every other cell is kept; the kept cells are sent back
    in the order in which they were drained; and the result is true exactly
    when the capacity channel then holds [maxCapacity] tickets. *)
Theorem cleanupValues_sweeps_idle_cells ce e ca cc (s : Store) :
  entryHeap s !! ce = Some e →
  ce_lock e = freeRW →
  cellChans s !! available e = Some ca →
  intChans s !! capacity e = Some cc →
  Forall (idle_cell s) (ch_buf ca) →
  chan_len ca ≤ ch_cap ca →
  chan_len cc + Z.of_nat (length (List.filter (expired s) (ch_buf ca))) ≤ ch_cap cc →
  let gone := List.filter (expired s) (ch_buf ca) in
  let kept := List.filter (λ cv, negb (expired s cv)) (ch_buf ca) in
  let tickets := (length (ch_buf cc) + length gone)%nat in
  ∃ s',
    cleanupValues ce s = Done (Z.of_nat tickets =? maxCapacity e) s' ∧
    cellChans s' !! available e = Some (mkChan (ch_cap ca) kept) ∧
    intChans s' !! capacity e = Some (mkChan (ch_cap cc) (replicate tickets 1)) ∧
    trace s' = trace s ++ concat (map (sift_events (available e) s) (ch_buf ca))
                       ++ map (EvSend (available e)) kept ∧
    cellHeap s' = cellHeap s ∧ entryHeap s' = entryHeap s ∧ pool s' = pool s.
Proof.
  intros He Hl Hca Hcc Hidle Hwa Hroom. cbv zeta.
  destruct ca as [cap buf], cc as [capi tk]. unfold chan_len in *. simpl in *.
  set (gone := List.filter (expired s) buf) in *.
  set (kept := List.filter (λ cv, negb (expired s cv)) buf) in *.
  set (tickets := (length tk + length gone)%nat) in *.
  assert (Hkept : (length kept ≤ length buf)%nat) by apply List.filter_length_le.
  eexists. split; [ | split; [ | split; [ | split; [ | split; [ | split ] ] ] ] ].
  - unfold cleanupValues.
    step ce_Lock_run.
    set (e1 := set_ce_lock {| writer := true; readers := 0 |} e).
    eapply defer_run.
    + unfold getValidValuesAndCleanupOthers. rewrite ?bind_assoc.
      step load_entry_run. simpl available. step cellBound_run. simpl ch_buf.
      erewrite bind_Done;
        [ | eapply (sift_run ce e1 cap capi buf tk []);
            [ lk | exact Hca | exact Hcc | exact Hidle | ] ].
      2:{ change (expired _) with (expired s). fold gone. lia. }
      cbv beta. simpl app. change (expired _) with (expired s). fold gone kept.
      erewrite bind_Done;
        [ | eapply (requeue_run ce e1 cap kept []); [ lk | lk | simpl; lia ] ].
      cbv beta.
      erewrite bind_Done;
        [ | eapply (getAvailableCapacity_run ce e1 capi
                      (tk ++ replicate (length gone) 1)); [ lk | lk | ] ].
      2:{ rewrite length_app, length_replicate. lia. }
      cbv beta iota. step load_entry_run. rewrite mret_run.
      simpl maxCapacity. rewrite length_app, length_replicate. fold tickets.
      reflexivity.
    + eapply ce_Unlock_run; lk.
  - lk.
  - lk.
  - simpl. now rewrite <- app_assoc.
  - reflexivity.
  - simpl. rewrite list_insert_insert_eq. apply list_insert_id.
    rewrite He. f_equal. destruct e; simpl in *. now subst.
  - reflexivity.
Qed.


Lemma ce_RLock_run ce e (s : Store) :
  entryHeap s !! ce = Some e → writer (ce_lock e) = false →
  ce_RLock ce s
  = Done () (put_entry ce
               (set_ce_lock {| writer := false; readers := S (readers (ce_lock e)) |} e) s).
Proof.
  intros He Hl. unfold ce_RLock. step load_entry_run. unfold rw_RLock.
  now rewrite Hl.
Qed.

Lemma ce_RUnlock_run ce e n (s : Store) :
  entryHeap s !! ce = Some e → readers (ce_lock e) = S n →
  ce_RUnlock ce s
  = Done () (put_entry ce
               (set_ce_lock {| writer := writer (ce_lock e); readers := n |} e) s).
Proof.
  intros He Hl. unfold ce_RUnlock. step load_entry_run. unfold rw_RUnlock.
  now rewrite Hl.
Qed.

Lemma recv_int_run ch cap x rest (s : Store) :
  intChans s !! ch = Some (mkChan cap (x :: rest)) →
  recv_int ch s = Done x (put_intChan ch (mkChan cap rest) s).
Proof. intros Hc. unfold recv_int. now step poll_int_cons. Qed.

Lemma recv_int_empty ch cap (s : Store) :
  intChans s !! ch = Some (mkChan cap []) → recv_int ch s = Blocked s.
Proof. intros Hc. unfold recv_int. now step poll_int_nil. Qed.

Lemma recv_cell_run ch cap cv rest (s : Store) :
  cellChans s !! ch = Some (mkChan cap (cv :: rest)) →
  recv_cell ch s
  = Done cv (log (EvRecv ch cv) (put_cellChan ch (mkChan cap rest) s)).
Proof. intros Hc. unfold recv_cell. now step poll_cell_cons. Qed.

Lemma recv_cell_empty ch cap (s : Store) :
  cellChans s !! ch = Some (mkChan cap []) → recv_cell ch s = Blocked s.
Proof. intros Hc. unfold recv_cell. now step poll_cell_nil. Qed.

Lemma call_run (f : CreateNewValue) (s : Store) :
  call f s = Done (f (calls s)) (log (EvCreate (f (calls s))) (set_calls S s)).
Proof. reflexivity. Qed.

Lemma time_Now_run (s : Store) : time_Now s = Done (clock s) s.
Proof. reflexivity. Qed.

Lemma acquireFromCache_run cv c (s : Store) :
  cellHeap s !! cv = Some c → cv_lock c = false →
  acquireFromCache cv s
  = Done () (log (EvLock cv)
               (put_cell cv (mkValue true (returnChan c) (value c) (clock s)) s)).
Proof.
  intros Hc Hl. unfold acquireFromCache.
  step cv_Lock_run. step time_Now_run. step load_cell_run.
  unfold store_cell. simpl. done_eq.
Qed.

Lemma acquireFromCache_held cv c (s : Store) :
  cellHeap s !! cv = Some c → cv_lock c = true →
  acquireFromCache cv s = Blocked s.
Proof.
  intros Hc Hl. unfold acquireFromCache, cv_Lock.
  rewrite !bind_assoc. step load_cell_run. now rewrite Hl.
Qed.

Lemma createCacheValue_ok ce e v (s : Store) :
  entryHeap s !! ce = Some e → createValue e (calls s) = inl v →
  createCacheValue ce s
  = Done (inl (length (cellHeap s)))
      (set_cellHeap (λ h, h ++ [mkValue false (available e) v zeroTime])
         (log (EvCreate (inl v)) (set_calls S s))).
Proof.
  intros He Hf. unfold createCacheValue. step load_entry_run.
  erewrite bind_Done by apply call_run. rewrite Hf. cbv beta iota.
  step load_entry_run. reflexivity.
Qed.

Lemma createCacheValue_fail ce e err (s : Store) :
  entryHeap s !! ce = Some e → createValue e (calls s) = inr err →
  createCacheValue ce s
  = Done (inr err) (log (EvCreate (inr err)) (set_calls S s)).
Proof.
  intros He Hf. unfold createCacheValue. step load_entry_run.
  erewrite bind_Done by apply call_run. now rewrite Hf.
Qed.


(** ** [getValue], alternative by alternative *)

Lemma select_inv ctx e pick a (s s' : Store) :
  select ctx e pick s = Done a s' → s' = s ∧ a ∈ ready ctx e s.
Proof.
  unfold select. destruct (ready ctx e s) as [|a0 rest]; [discriminate|].
  intros Heq.
  assert (Ha : a = nth (pick `mod` length (a0 :: rest))%nat (a0 :: rest) a0 ∧ s' = s)
    by (split; congruence).
  destruct Ha as [-> ->]. split; [reflexivity|].
  apply list_elem_of_In, nth_In, Nat.mod_upper_bound. discriminate.
Qed.

Lemma select_frame ctx e e1 pick a (s s1 : Store) :
  select ctx e pick s = Done a s → ready ctx e1 s1 = ready ctx e s →
  select ctx e1 pick s1 = Done a s1.
Proof.
  unfold select. intros Hs Hr. rewrite Hr.
  destruct (ready ctx e s); [discriminate|]. f_equal. congruence.
Qed.

Lemma ready_AltDone ctx e (s : Store) :
  AltDone ∈ ready ctx e s → is_Some (Err ctx).
Proof.
  unfold ready. intros Hin. destruct (Err ctx); [eauto|].
  simpl in Hin. apply elem_of_app in Hin as [Hin|Hin].
  - destruct (cellChans s !! available e) as [[? [|? ?]]|];
      simpl in Hin; try (apply elem_of_nil in Hin; contradiction).
    apply list_elem_of_singleton in Hin. discriminate.
  - destruct (intChans s !! capacity e) as [[? [|? ?]]|];
      simpl in Hin; try (apply elem_of_nil in Hin; contradiction).
    apply list_elem_of_singleton in Hin. discriminate.
Qed.

Lemma ready_AltAvailable ctx e (s : Store) :
  AltAvailable ∈ ready ctx e s →
  ∃ cap cv rest, cellChans s !! available e = Some (mkChan cap (cv :: rest)).
Proof.
  unfold ready. intros Hin.
  apply elem_of_app in Hin as [Hin|Hin].
  { destruct (Err ctx); [apply list_elem_of_singleton in Hin; discriminate|].
    apply elem_of_nil in Hin. contradiction. }
  apply elem_of_app in Hin as [Hin|Hin].
  - destruct (cellChans s !! available e) as [[? [|? ?]]|];
      try (apply elem_of_nil in Hin; contradiction). eauto.
  - destruct (intChans s !! capacity e) as [[? [|? ?]]|];
      try (apply elem_of_nil in Hin; contradiction).
    apply list_elem_of_singleton in Hin. discriminate.
Qed.

Lemma ready_AltCapacity ctx e (s : Store) :
  AltCapacity ∈ ready ctx e s →
  ∃ cap x rest, intChans s !! capacity e = Some (mkChan cap (x :: rest)).
Proof.
  unfold ready. intros Hin.
  apply elem_of_app in Hin as [Hin|Hin].
  { destruct (Err ctx); [apply list_elem_of_singleton in Hin; discriminate|].
    apply elem_of_nil in Hin. contradiction. }
  apply elem_of_app in Hin as [Hin|Hin].
  - destruct (cellChans s !! available e) as [[? [|? ?]]|];
      try (apply elem_of_nil in Hin; contradiction).
    apply list_elem_of_singleton in Hin. discriminate.
  - destruct (intChans s !! capacity e) as [[? [|? ?]]|];
      try (apply elem_of_nil in Hin; contradiction). eauto.
Qed.

Ltac enter_getValue He Hw Hsel :=
  unfold getValue;
  step ce_RLock_run; undefer; rewrite ?bind_assoc;
  step load_entry_run; rewrite ?bind_assoc;
  erewrite bind_Done; [ | eapply select_frame; [ exact Hsel | reflexivity ] ];
  cbv beta iota.

Lemma getValue_AltDone ce e ctx pick (s : Store) :
  entryHeap s !! ce = Some e → writer (ce_lock e) = false →
  select ctx e pick s = Done AltDone s →
  getValue ce ctx pick s = Done (inhabitant, NilReturnCapacityToCache, Err ctx) s.
Proof.
  intros He Hw Hsel. enter_getValue He Hw Hsel.
  rewrite mret_bind. step ce_RUnlock_run. rewrite mret_run.
  done_eq. apply list_insert_id. rewrite He. f_equal.
  destruct e as [[w r] ? ? ? ? ?]. simpl in *. now subst.
Qed.

Lemma getValue_AltCapacity_fail ce e ctx pick cap x rest err (s : Store) :
  entryHeap s !! ce = Some e → writer (ce_lock e) = false →
  select ctx e pick s = Done AltCapacity s →
  intChans s !! capacity e = Some (mkChan cap (x :: rest)) →
  Z.of_nat (length (x :: rest)) ≤ cap →
  createValue e (calls s) = inr err →
  getValue ce ctx pick s
  = Done (inhabitant, NilReturnCapacityToCache, Some err)
      (log (EvCreate (inr err))
         (set_calls S (put_intChan (capacity e) (mkChan cap (rest ++ [1])) s))).
Proof.
  intros He Hw Hsel Hc Hwf Hf. enter_getValue He Hw Hsel.
  step recv_int_run. step createCacheValue_fail. step send_int_room.
  rewrite mret_bind. step ce_RUnlock_run. rewrite mret_run.
  unfold push. simpl. done_eq. apply list_insert_id. rewrite He. f_equal.
  destruct e as [[w r] ? ? ? ? ?]. simpl in *. now subst.
Qed.

Lemma getValue_AltCapacity_ok ce e ctx pick cap x rest v (s : Store) :
  entryHeap s !! ce = Some e → writer (ce_lock e) = false →
  select ctx e pick s = Done AltCapacity s →
  intChans s !! capacity e = Some (mkChan cap (x :: rest)) →
  createValue e (calls s) = inl v →
  getValue ce ctx pick s
  = Done (v, returnToCacheOf (length (cellHeap s)), None)
      (logs [EvCreate (inl v); EvLock (length (cellHeap s))]
         (set_cellHeap (λ h, h ++ [mkValue true (available e) v (clock s)])
            (set_calls S (put_intChan (capacity e) (mkChan cap rest) s)))).
Proof.
  intros He Hw Hsel Hc Hf. enter_getValue He Hw Hsel.
  step recv_int_run. step createCacheValue_ok. simpl length.
  rewrite ?bind_assoc. erewrite bind_Done;
    [ | eapply (acquireFromCache_run _ (mkValue false (available e) v zeroTime));
        [ simpl; apply list_lookup_middle; reflexivity | reflexivity ] ].
  cbv beta.
  rewrite ?bind_assoc. erewrite bind_Done;
    [ | eapply load_cell_run; simpl;
        rewrite list_lookup_insert_eq by (rewrite length_app; simpl; lia);
        reflexivity ].
  cbv beta. rewrite mret_bind. step ce_RUnlock_run. rewrite mret_run.
  simpl. done_eq.
  apply list_insert_id. rewrite He. f_equal.
  destruct e as [[w r] ? ? ? ? ?]. simpl in *. now subst.
Qed.

Lemma getValue_AltAvailable ce e ctx pick cap cv rest c (s : Store) :
  entryHeap s !! ce = Some e → writer (ce_lock e) = false →
  select ctx e pick s = Done AltAvailable s →
  cellChans s !! available e = Some (mkChan cap (cv :: rest)) →
  cellHeap s !! cv = Some c → cv_lock c = false →
  getValue ce ctx pick s
  = Done (value c, returnToCacheOf cv, None)
      (logs [EvRecv (available e) cv; EvLock cv]
         (put_cell cv (mkValue true (returnChan c) (value c) (clock s))
            (put_cellChan (available e) (mkChan cap rest) s))).
Proof.
  intros He Hw Hsel Hc Hcv Hl. enter_getValue He Hw Hsel.
  step recv_cell_run. step acquireFromCache_run. step load_cell_run.
  rewrite mret_bind. step ce_RUnlock_run. rewrite mret_run.
  simpl. done_eq. apply list_insert_id. rewrite He. f_equal.
  destruct e as [[w r] ? ? ? ? ?]. simpl in *. now subst.
Qed.


(** C2. In [getValue]: when the capacity alternative of the [select] fires
    and the factory fails, the ticket that was taken is put back (the channel
    holds its other tickets followed by one new ticket, so as many as before)
    and the error of the factory is returned with the zero value and the
    no-op release; when the cancellation alternative fires, the call returns
    the error of the context and leaves the whole store, the capacity channel
    included, as it was. *)
Theorem getValue_failure_and_cancellation ce e ctx pick (s : Store) :
  entryHeap s !! ce = Some e →
  writer (ce_lock e) = false →
  (∀ cc err,
     select ctx e pick s = Done AltCapacity s →
     intChans s !! capacity e = Some cc →
     chan_len cc ≤ ch_cap cc →
     createValue e (calls s) = inr err →
     ∃ s', getValue ce ctx pick s
           = Done (inhabitant, NilReturnCapacityToCache, Some err) s' ∧
           intChans s' !! capacity e
           = Some (mkChan (ch_cap cc) (tail (ch_buf cc) ++ [1])) ∧
           length (tail (ch_buf cc) ++ [1]) = length (ch_buf cc) ∧
           cellChans s' = cellChans s ∧ cellHeap s' = cellHeap s ∧
           entryHeap s' = entryHeap s ∧ pool s' = pool s) ∧
  (select ctx e pick s = Done AltDone s →
     is_Some (Err ctx) ∧
     getValue ce ctx pick s
     = Done (inhabitant, NilReturnCapacityToCache, Err ctx) s).
Proof.
  intros He Hw. split.
  - intros cc err Hsel Hcc Hwf Hf.
    destruct (select_inv ctx e pick _ s s Hsel) as [_ Hin].
    destruct (ready_AltCapacity ctx e s Hin) as (cap & x & rest & Hcc').
    rewrite Hcc in Hcc'. injection Hcc' as ->. unfold chan_len in Hwf. simpl in *.
    eexists. split; [ eapply getValue_AltCapacity_fail; eauto | ].
    repeat split.
    + lk.
    + rewrite length_app. simpl. lia.
  - intros Hsel. destruct (select_inv ctx e pick _ s s Hsel) as [_ Hin].
    split; [ eapply (ready_AltDone ctx e s), Hin | ].
    now apply (getValue_AltDone ce e).
Qed.


(** ** The pool lock and the sweep trigger *)

Lemma c_Lock_run (s : Store) :
  c_lock (pool s) = freeRW →
  c_Lock s
  = Done () (set_pool (λ c, set_c_lock {| writer := true; readers := 0 |} c) s).
Proof. intros Hl. unfold c_Lock, load_pool. erewrite bind_Done by reflexivity.
  cbv beta. now rewrite Hl. Qed.

Lemma c_Unlock_run (s : Store) :
  writer (c_lock (pool s)) = true →
  c_Unlock s
  = Done () (set_pool (λ c, set_c_lock {| writer := false;
                                          readers := readers (c_lock c) |} c) s).
Proof. intros Hl. unfold c_Unlock, load_pool. erewrite bind_Done by reflexivity.
  cbv beta. unfold rw_Unlock. now rewrite Hl. Qed.

Lemma c_RLock_run (s : Store) :
  writer (c_lock (pool s)) = false →
  c_RLock s
  = Done () (set_pool (λ c, set_c_lock {| writer := false;
                                          readers := S (readers (c_lock c)) |} c) s).
Proof. intros Hl. unfold c_RLock, load_pool. erewrite bind_Done by reflexivity.
  cbv beta. unfold rw_RLock. now rewrite Hl. Qed.

Lemma c_RUnlock_run n (s : Store) :
  readers (c_lock (pool s)) = S n →
  c_RUnlock s
  = Done () (set_pool (λ c, set_c_lock {| writer := writer (c_lock c);
                                          readers := n |} c) s).
Proof. intros Hl. unfold c_RUnlock, load_pool. erewrite bind_Done by reflexivity.
  cbv beta. unfold rw_RUnlock. now rewrite Hl. Qed.

Lemma load_pool_run (s : Store) : load_pool s = Done (pool s) s.
Proof. reflexivity. Qed.

Lemma triggerSweep_run (s : Store) :
  triggerSweep s
  = Done () (set_sweeps (λ _, sweepsAfter s)
               (set_pool (λ c, mkPool (c_lock c) (entries c) (checkedAt s)) s)).
Proof.
  unfold triggerSweep. step load_pool_run. step time_Since_run.
  unfold sweepsAfter, checkedAt, dueSweep.
  destruct (5 * Minute <=? clock s - lastChecked (pool s)).
  - step time_Now_run. unfold store_pool, go_cleanupEntries.
    erewrite bind_Done by reflexivity. done_eq.
  - rewrite mret_run. done_eq. now destruct (pool s).
Qed.

Lemma make_cellChan_run n (s : Store) :
  0 ≤ n → n ≤ Z.of_N chanLimit →
  make_cellChan n s
  = Done (length (cellChans s)) (set_cellChans (λ h, h ++ [mkChan n []]) s).
Proof.
  intros Hn Hlim. unfold make_cellChan.
  destruct (Z.ltb_spec n 0); [lia|].
  destruct (Z.ltb_spec (Z.of_N chanLimit) n); [lia|reflexivity].
Qed.

Lemma make_intChan_run n (s : Store) :
  0 ≤ n → n ≤ Z.of_N chanLimit →
  make_intChan n s
  = Done (length (intChans s)) (set_intChans (λ h, h ++ [mkChan n []]) s).
Proof.
  intros Hn Hlim. unfold make_intChan.
  destruct (Z.ltb_spec n 0); [lia|].
  destruct (Z.ltb_spec (Z.of_N chanLimit) n); [lia|reflexivity].
Qed.

Lemma new_entry_run e (s : Store) :
  new_entry e s = Done (length (entryHeap s)) (set_entryHeap (λ h, h ++ [e]) s).
Proof. reflexivity. Qed.

Lemma install_run k entry (s : Store) :
  install k entry s
  = Done () (set_pool (λ c, mkPool (c_lock c) (<[k := entry]> (entries c))
                              (lastChecked c)) s).
Proof. reflexivity. Qed.


(** ** [AddAndAcquire] on a key that has no entry *)

Lemma AddAndAcquire_new_ok ctx pick k f n v (s : Store) :
  c_lock (pool s) = freeRW → entries (pool s) !! k = None →
  1 ≤ n → n ≤ Z.of_N chanLimit → f (calls s) = inl v →
  AddAndAcquire ctx pick k f n s
  = Done (v, returnToCacheOf (length (cellHeap s)), false, None)
      (mkStore
         (mkPool freeRW (<[k := length (entryHeap s)]> (entries (pool s)))
            (checkedAt s))
         (entryHeap s ++
            [mkEntry freeRW (length (cellChans s)) (length (intChans s)) n f k])
         (cellHeap s ++ [mkValue true (length (cellChans s)) v (clock s)])
         (cellChans s ++ [mkChan n []])
         (intChans s ++ [mkChan n (replicate (Z.to_nat n - 1) 1)])
         (clock s) (S (calls s)) (sweepsAfter s)
         (trace s ++ [EvCreate (inl v); EvLock (length (cellHeap s))])).
Proof.
  intros Hl Hnone Hn Hlim Hf. unfold AddAndAcquire.
  step c_Lock_run. undefer. rewrite ?bind_assoc.
  step triggerSweep_run. step load_pool_run. simpl entries. rewrite Hnone.
  step make_cellChan_run. step make_intChan_run.
  simpl length.
  rewrite ?bind_assoc. erewrite bind_Done;
    [ | eapply (fill_run _ n (Z.to_nat n) []); [ lk | simpl; lia ] ].
  cbv beta. simpl app.
  step new_entry_run. step install_run.
  assert (Hrep : replicate (Z.to_nat n) 1 = 1 :: replicate (Z.to_nat n - 1) 1).
  { destruct (Z.to_nat n) eqn:E; [lia|]. simpl. now rewrite Nat.sub_0_r. }
  rewrite Hrep.
  rewrite ?bind_assoc. erewrite bind_Done;
    [ | eapply recv_int_run; simpl; rewrite insert_snoc; apply lookup_snoc ].
  cbv beta.
  rewrite ?bind_assoc. erewrite bind_Done;
    [ | eapply createCacheValue_ok; [ simpl; apply lookup_snoc | exact Hf ] ].
  cbv beta iota. simpl length.
  rewrite ?bind_assoc. erewrite bind_Done;
    [ | eapply (acquireFromCache_run _ (mkValue false _ v zeroTime));
        [ simpl; apply lookup_snoc | reflexivity ] ].
  cbv beta.
  rewrite ?bind_assoc. erewrite bind_Done;
    [ | eapply load_cell_run; simpl; rewrite insert_snoc; apply lookup_snoc ].
  cbv beta. rewrite mret_bind. step c_Unlock_run. rewrite mret_run.
  simpl. done_eq.
Qed.

Lemma AddAndAcquire_new_fail ctx pick k f n err (s : Store) :
  c_lock (pool s) = freeRW → entries (pool s) !! k = None →
  1 ≤ n → n ≤ Z.of_N chanLimit → f (calls s) = inr err →
  AddAndAcquire ctx pick k f n s
  = Done (inhabitant, NilReturnCapacityToCache, false, Some err)
      (mkStore
         (mkPool freeRW (<[k := length (entryHeap s)]> (entries (pool s)))
            (checkedAt s))
         (entryHeap s ++
            [mkEntry freeRW (length (cellChans s)) (length (intChans s)) n f k])
         (cellHeap s)
         (cellChans s ++ [mkChan n []])
         (intChans s ++ [mkChan n (replicate (Z.to_nat n) 1)])
         (clock s) (S (calls s)) (sweepsAfter s)
         (trace s ++ [EvCreate (inr err)])).
Proof.
  intros Hl Hnone Hn Hlim Hf. unfold AddAndAcquire.
  step c_Lock_run. undefer. rewrite ?bind_assoc.
  step triggerSweep_run. step load_pool_run. simpl entries. rewrite Hnone.
  step make_cellChan_run. step make_intChan_run.
  simpl length.
  rewrite ?bind_assoc. erewrite bind_Done;
    [ | eapply (fill_run _ n (Z.to_nat n) []); [ lk | simpl; lia ] ].
  cbv beta. simpl app.
  step new_entry_run. step install_run.
  assert (Hrep : replicate (Z.to_nat n) 1 = 1 :: replicate (Z.to_nat n - 1) 1).
  { destruct (Z.to_nat n) eqn:E; [lia|]. simpl. now rewrite Nat.sub_0_r. }
  assert (Hrep' : replicate (Z.to_nat n - 1) 1 ++ [1] = replicate (Z.to_nat n) 1).
  { rewrite <- replicate_S_end. f_equal. lia. }
  rewrite Hrep.
  rewrite ?bind_assoc. erewrite bind_Done;
    [ | eapply recv_int_run; simpl; rewrite insert_snoc; apply lookup_snoc ].
  cbv beta.
  rewrite ?bind_assoc. erewrite bind_Done;
    [ | eapply createCacheValue_fail; [ simpl; apply lookup_snoc | exact Hf ] ].
  cbv beta iota.
  rewrite ?bind_assoc. erewrite bind_Done;
    [ | eapply send_int_room;
        [ simpl; rewrite !insert_snoc; apply lookup_snoc
        | unfold chan_len; simpl; rewrite length_replicate; lia ] ].
  cbv beta. rewrite mret_bind. step c_Unlock_run. rewrite mret_run.
  unfold push. simpl. done_eq. now rewrite Hrep', Hrep.
Qed.


(** ** What every run of a computation keeps *)

Lemma same_entries_refl (s : Store) : same_entries s s.
Proof. split; [reflexivity|]. intros ce e He. exists e. now repeat split. Qed.

Lemma same_entries_trans (s1 s2 s3 : Store) :
  same_entries s1 s2 → same_entries s2 s3 → same_entries s1 s3.
Proof.
  intros [Hm1 H1] [Hm2 H2]. split; [congruence|].
  intros ce e He. destruct (H1 ce e He) as (e' & He' & ? & ? & ? & ? & ?).
  destruct (H2 ce e' He') as (e'' & He'' & ? & ? & ? & ? & ?).
  exists e''. split; [exact He''|]. repeat split; congruence.
Qed.

Lemma same_entries_frame (s s' : Store) :
  pool s' = pool s → entryHeap s' = entryHeap s → same_entries s s'.
Proof.
  intros Hp He. split; [now rewrite Hp|]. intros ce e Hce. exists e.
  rewrite He. now repeat split.
Qed.

Lemma bind_inv {A B} (m : M A) (k : A → M B) (s s' : Store) (b : B) :
  (m ≫= k) s = Done b s' → ∃ a s1, m s = Done a s1 ∧ k a s1 = Done b s'.
Proof.
  unfold mbind, M_bind, bind. destruct (m s) as [a s1| | |]; try discriminate.
  eauto.
Qed.

Lemma keeps_bind {A B} (m : M A) (k : A → M B) :
  keeps m → (∀ a, keeps (k a)) → keeps (m ≫= k).
Proof.
  intros Hm Hk s b s' Hrun. apply bind_inv in Hrun as (a & s1 & H1 & H2).
  eapply same_entries_trans; [ eapply Hm, H1 | eapply Hk, H2 ].
Qed.

Lemma keeps_ret {A} (a : A) : keeps (mret a : M A).
Proof. intros s a' s' [= _ <-]. apply same_entries_refl. Qed.

Lemma keeps_defer {A} (d : M unit) (body : M A) :
  keeps d → keeps body → keeps (defer d body).
Proof.
  intros Hd Hb s a s' Hrun. apply defer_inv in Hrun as (s1 & H1 & H2).
  eapply same_entries_trans; [ eapply Hb, H1 | eapply Hd, H2 ].
Qed.

Lemma ensures_bind {A B} (Q : B → Prop) (m : M A) (k : A → M B) :
  (∀ a, ensures Q (k a)) → ensures Q (m ≫= k).
Proof.
  intros Hk s b s' Hrun. apply bind_inv in Hrun as (a & s1 & H1 & H2).
  eapply Hk, H2.
Qed.

Lemma ensures_ret {A} (Q : A → Prop) (a : A) : Q a → ensures Q (mret a : M A).
Proof. intros HQ s a' s' [= <- _]. exact HQ. Qed.

Lemma ensures_defer {A} (Q : A → Prop) (d : M unit) (body : M A) :
  ensures Q body → ensures Q (defer d body).
Proof.
  intros Hb s a s' Hrun. apply defer_inv in Hrun as (s1 & H1 & _).
  eapply Hb, H1.
Qed.

(** A step that leaves the pool and the heap of entries alone. *)
Lemma keeps_frame {A} (m : M A) :
  (∀ s a s', m s = Done a s' → pool s' = pool s ∧ entryHeap s' = entryHeap s) →
  keeps m.
Proof. intros Hm s a s' Hrun. destruct (Hm s a s' Hrun). now apply same_entries_frame. Qed.

Lemma keeps_load_entry ce : keeps (load_entry ce).
Proof.
  apply keeps_frame. intros s a s'. unfold load_entry.
  destruct (entryHeap s !! ce); [|discriminate]. now intros [= _ <-].
Qed.

Lemma keeps_load_cell cv : keeps (load_cell cv).
Proof.
  apply keeps_frame. intros s a s'. unfold load_cell.
  destruct (cellHeap s !! cv); [|discriminate]. now intros [= _ <-].
Qed.

Lemma keeps_load_pool : keeps load_pool.
Proof. apply keeps_frame. now intros s a s' [= _ <-]. Qed.

Lemma keeps_store_cell cv c : keeps (store_cell cv c).
Proof. apply keeps_frame. now intros s a s' [= _ <-]. Qed.

Lemma keeps_new_cell c : keeps (new_cell c).
Proof. apply keeps_frame. now intros s a s' [= _ <-]. Qed.

Lemma keeps_emit e : keeps (emit e).
Proof. apply keeps_frame. now intros s a s' [= _ <-]. Qed.

Lemma keeps_time_Now : keeps time_Now.
Proof. apply keeps_frame. now intros s a s' [= _ <-]. Qed.

Lemma keeps_call f : keeps (call f).
Proof. apply keeps_frame. now intros s a s' [= _ <-]. Qed.

Lemma keeps_park {A} : keeps (park : M A).
Proof. intros s a s'. discriminate. Qed.

Lemma keeps_panic {A} : keeps (panic : M A).
Proof. intros s a s'. discriminate. Qed.

Lemma keeps_select ctx e pick : keeps (select ctx e pick).
Proof.
  intros s a s' Hsel. apply select_inv in Hsel as [-> _]. apply same_entries_refl.
Qed.

Lemma keeps_poll_cell ch : keeps (poll_cell ch).
Proof.
  apply keeps_frame. intros s a s'. unfold poll_cell.
  destruct (cellChans s !! ch) as [[cap [|cv rest]]|]; try discriminate;
    now intros [= _ <-].
Qed.

Lemma keeps_poll_int ch : keeps (poll_int ch).
Proof.
  apply keeps_frame. intros s a s'. unfold poll_int.
  destruct (intChans s !! ch) as [[cap [|cv rest]]|]; try discriminate;
    now intros [= _ <-].
Qed.

Lemma keeps_send_cell ch cv : keeps (send_cell ch cv).
Proof.
  apply keeps_frame. intros s a s'. unfold send_cell.
  destruct (cellChans s !! ch) as [c|]; [|discriminate].
  destruct (chan_len c <? ch_cap c); [|discriminate]. now intros [= _ <-].
Qed.

Lemma keeps_send_int ch x : keeps (send_int ch x).
Proof.
  apply keeps_frame. intros s a s'. unfold send_int.
  destruct (intChans s !! ch) as [c|]; [|discriminate].
  destruct (chan_len c <? ch_cap c); [|discriminate]. now intros [= _ <-].
Qed.

Lemma keeps_store_entry_lock ce e l (s s' : Store) :
  entryHeap s !! ce = Some e →
  store_entry ce (set_ce_lock l e) s = Done () s' → same_entries s s'.
Proof.
  intros He [= <-]. split; [reflexivity|]. intros ce' e' He'. simpl.
  destruct (decide (ce = ce')) as [<-|Hne].
  - rewrite list_lookup_insert_eq by (eapply lookup_lt_Some, He).
    eexists. split; [reflexivity|]. rewrite He in He'. injection He' as <-.
    now repeat split.
  - rewrite list_lookup_insert_ne by exact Hne. exists e'. now repeat split.
Qed.

Lemma keeps_store_pool_lock l lc (s s' : Store) :
  store_pool (mkPool l (entries (pool s)) lc) s = Done () s' → same_entries s s'.
Proof.
  intros [= <-]. split; [reflexivity|]. intros ce e He. exists e. simpl.
  now repeat split.
Qed.


Create HintDb keeps discriminated.
#[local] Hint Resolve keeps_ret keeps_park keeps_panic keeps_load_entry
  keeps_load_cell keeps_load_pool keeps_store_cell keeps_new_cell keeps_emit
  keeps_time_Now keeps_call keeps_select keeps_poll_cell keeps_poll_int
  keeps_send_cell keeps_send_int : keeps.

Ltac keeps_tac :=
  repeat first
    [ solve [ auto with keeps ]
    | apply keeps_defer
    | apply keeps_bind; [ | intros ? ]
    | match goal with
      | |- keeps (match ?x with _ => _ end) => destruct x
      end ].

Lemma keeps_entry_relock (f : RWMutex → option RWMutex) (orelse : M unit) ce :
  (∀ s a s', orelse s ≠ Done a s') →
  keeps (e ← load_entry ce;
         match f (ce_lock e) with
         | Some l => store_entry ce (set_ce_lock l e)
         | None => orelse
         end).
Proof.
  intros Hor s a s' Hrun. apply bind_inv in Hrun as (e & s1 & Hload & Hrest).
  unfold load_entry in Hload.
  destruct (entryHeap s !! ce) as [e0|] eqn:He; [|discriminate].
  injection Hload as -> ->.
  destruct (f (ce_lock e)) as [l|]; [| now apply Hor in Hrest].
  destruct a. eapply keeps_store_entry_lock; eauto.
Qed.

Lemma keeps_pool_relock (f : RWMutex → option RWMutex) (orelse : M unit) :
  (∀ s a s', orelse s ≠ Done a s') →
  keeps (c ← load_pool;
         match f (c_lock c) with
         | Some l => store_pool (set_c_lock l c)
         | None => orelse
         end).
Proof.
  intros Hor s a s' Hrun. apply bind_inv in Hrun as (c & s1 & Hload & Hrest).
  injection Hload as <- <-.
  destruct (f (c_lock (pool s))) as [l|]; [| now apply Hor in Hrest].
  destruct a. eapply keeps_store_pool_lock, Hrest.
Qed.

Lemma keeps_ce_Lock ce : keeps (ce_Lock ce).
Proof. now apply keeps_entry_relock. Qed.
Lemma keeps_ce_RLock ce : keeps (ce_RLock ce).
Proof. now apply keeps_entry_relock. Qed.
Lemma keeps_ce_Unlock ce : keeps (ce_Unlock ce).
Proof. now apply keeps_entry_relock. Qed.
Lemma keeps_ce_RUnlock ce : keeps (ce_RUnlock ce).
Proof. now apply keeps_entry_relock. Qed.
Lemma keeps_c_Lock : keeps c_Lock.
Proof. now apply keeps_pool_relock. Qed.
Lemma keeps_c_RLock : keeps c_RLock.
Proof. now apply keeps_pool_relock. Qed.
Lemma keeps_c_Unlock : keeps c_Unlock.
Proof. now apply keeps_pool_relock. Qed.
Lemma keeps_c_RUnlock : keeps c_RUnlock.
Proof. now apply keeps_pool_relock. Qed.

Lemma keeps_triggerSweep : keeps triggerSweep.
Proof.
  intros s a s'. rewrite triggerSweep_run. intros [= _ <-].
  split; [reflexivity|]. intros ce e He. exists e. now repeat split.
Qed.

#[local] Hint Resolve keeps_ce_Lock keeps_ce_RLock keeps_ce_Unlock
  keeps_ce_RUnlock keeps_c_Lock keeps_c_Unlock keeps_c_RLock keeps_c_RUnlock
  keeps_triggerSweep : keeps.

Lemma keeps_recv_cell ch : keeps (recv_cell ch).
Proof. unfold recv_cell. keeps_tac. Qed.

Lemma keeps_recv_int ch : keeps (recv_int ch).
Proof. unfold recv_int. keeps_tac. Qed.

Lemma keeps_cv_Lock cv : keeps (cv_Lock cv).
Proof. unfold cv_Lock. keeps_tac. Qed.

Lemma keeps_cv_Unlock cv : keeps (cv_Unlock cv).
Proof. unfold cv_Unlock. keeps_tac. Qed.

#[local] Hint Resolve keeps_recv_cell keeps_recv_int keeps_cv_Lock
  keeps_cv_Unlock : keeps.

Lemma keeps_acquireFromCache cv : keeps (acquireFromCache cv).
Proof. unfold acquireFromCache. keeps_tac. Qed.

Lemma keeps_returnToCache cv : keeps (returnToCache cv).
Proof. unfold returnToCache. keeps_tac. Qed.

Lemma keeps_createCacheValue ce : keeps (createCacheValue ce).
Proof. unfold createCacheValue. keeps_tac. Qed.

#[local] Hint Resolve keeps_acquireFromCache keeps_returnToCache
  keeps_createCacheValue : keeps.

Lemma keeps_invoke rv : keeps (invoke rv).
Proof. destruct rv; simpl; auto with keeps. Qed.

Lemma keeps_getValue ce ctx pick : keeps (getValue ce ctx pick).
Proof. unfold getValue. keeps_tac. Qed.

#[local] Hint Resolve keeps_invoke keeps_getValue : keeps.

(** On an error [getValue] hands out the no-op release. *)
Lemma getValue_error_release ce ctx pick :
  ensures (λ r, r.2 ≠ None → r.1.2 = NilReturnCapacityToCache)
    (getValue ce ctx pick).
Proof.
  unfold getValue. apply ensures_bind. intros _. apply ensures_defer.
  apply ensures_bind. intros e. apply ensures_bind. intros [| |].
  - now apply ensures_ret.
  - repeat (apply ensures_bind; intros ?). now apply ensures_ret.
  - apply ensures_bind. intros _. apply ensures_bind. intros [cv|err].
    + repeat (apply ensures_bind; intros ?). now apply ensures_ret.
    + apply ensures_bind. intros _. now apply ensures_ret.
Qed.


Lemma bind_cong {A B} (m : M A) (k k' : A → M B) (s : Store) :
  (∀ a s1, m s = Done a s1 → k a s1 = k' a s1) → (m ≫= k) s = (m ≫= k') s.
Proof.
  intros Hk. unfold mbind, M_bind, bind.
  destruct (m s) as [a s1| | |]; auto.
Qed.

(** ** [AddAndAcquire] and [Get] on a key that has an entry *)

Lemma AddAndAcquire_via_getValue ctx pick k f n entry (s : Store) :
  entries (pool s) !! k = Some entry →
  AddAndAcquire ctx pick k f n s
  = (c_Lock;;
     defer c_Unlock
       (triggerSweep;;
        r ← getValue entry ctx pick;
        mret (found r))) s.
Proof.
  intros Hk. unfold AddAndAcquire.
  apply bind_cong. intros [] s1 Hlock. apply defer_cong.
  apply bind_cong. intros [] s2 Htrig.
  step load_pool_run.
  destruct (keeps_c_Lock _ _ _ Hlock) as [Hm1 _].
  destruct (keeps_triggerSweep _ _ _ Htrig) as [Hm2 _].
  rewrite Hm2, Hm1, Hk. rewrite ?bind_assoc.
  apply bind_cong. intros [[val rv] [err|]] s3 Hget; [|reflexivity].
  assert (Hrv : rv = NilReturnCapacityToCache)
    by (apply (getValue_error_release _ _ _ _ _ _ Hget); discriminate).
  subst rv. reflexivity.
Qed.

Lemma Get_via_getValue ctx pick k entry (s : Store) :
  entries (pool s) !! k = Some entry →
  Get ctx pick k s
  = (c_RLock;;
     defer c_RUnlock
       (triggerSweep;;
        r ← getValue entry ctx pick;
        mret (found r))) s.
Proof.
  intros Hk. unfold Get.
  apply bind_cong. intros [] s1 Hlock. apply defer_cong.
  apply bind_cong. intros [] s2 Htrig.
  step load_pool_run.
  destruct (keeps_c_RLock _ _ _ Hlock) as [Hm1 _].
  destruct (keeps_triggerSweep _ _ _ Htrig) as [Hm2 _].
  rewrite Hm2, Hm1, Hk. rewrite ?bind_assoc.
  apply bind_cong. intros [[val rv] [err|]] s3 Hget; [|reflexivity].
  assert (Hrv : rv = NilReturnCapacityToCache)
    by (apply (getValue_error_release _ _ _ _ _ _ Hget); discriminate).
  subst rv. reflexivity.
Qed.

(** C10. When the key has an entry, [AddAndAcquire] does not look at the
    factory and the bound it is given: any other pair gives the same run.
    The call is [getValue] on that entry, between the lock of the pool and
    the sweep trigger before and the deferred unlock after, with [true] as
    third result.  When it returns, the map is the same and every entry, this one
    included, has the factory, bound, available queue and capacity channel
    it had. *)
Theorem AddAndAcquire_existing_entry ctx pick k f n entry (s : Store) :
  entries (pool s) !! k = Some entry →
  (∀ f' n', AddAndAcquire ctx pick k f' n' s = AddAndAcquire ctx pick k f n s) ∧
  AddAndAcquire ctx pick k f n s
  = (c_Lock;;
     defer c_Unlock
       (triggerSweep;;
        r ← getValue entry ctx pick;
        mret (match r.2 with
              | Some err => (inhabitant, NilReturnCapacityToCache, true, Some err)
              | None => (r.1.1, r.1.2, true, None)
              end))) s ∧
  (∀ r s', AddAndAcquire ctx pick k f n s = Done r s' →
           r.1.2 = true ∧ same_entries s s').
Proof.
  intros Hk.
  split; [ intros f' n'; now rewrite !(AddAndAcquire_via_getValue _ _ _ _ _ entry) | ].
  split; [ now apply AddAndAcquire_via_getValue | ].
  intros r s' Hrun. rewrite (AddAndAcquire_via_getValue _ _ _ _ _ entry) in Hrun by exact Hk.
  split.
  - apply bind_inv in Hrun as (? & ? & _ & Hrun).
    apply defer_inv in Hrun as (? & Hrun & _).
    apply bind_inv in Hrun as (? & ? & _ & Hrun).
    apply bind_inv in Hrun as ([[val rv] err] & ? & _ & Hrun).
    injection Hrun as <- _. now destruct err.
  - revert Hrun. generalize s r s'.
    change (keeps (c_Lock;;
       defer c_Unlock
         (triggerSweep;;
          r ← getValue entry ctx pick;
          mret (found r)))).
    keeps_tac.
Qed.

(** ** [returnToCache] *)

Lemma returnToCache_run cv c ca (s : Store) :
  cellHeap s !! cv = Some c → cv_lock c = true →
  cellChans s !! returnChan c = Some ca → chan_len ca < ch_cap ca →
  returnToCache cv s
  = Done () (logs [EvSend (returnChan c) cv; EvUnlock cv]
               (put_cell cv (mkValue false (returnChan c) (value c) (lastUsed c))
                  (put_cellChan (returnChan c) (push cv ca) s))).
Proof.
  intros Hc Hl Hca Hroom. unfold returnToCache. undefer.
  rewrite ?bind_assoc. step load_cell_run. step send_cell_room.
  step cv_Unlock_run. rewrite mret_run. done_eq.
Qed.

Lemma filter_hit {A} (f : A → bool) (l : list A) i x :
  l !! i = Some x → f x = true → (1 ≤ length (List.filter f l))%nat.
Proof.
  intros Hi Hf.
  assert (Hin : In x (List.filter f l)).
  { apply filter_In. split; [|exact Hf]. apply list_elem_of_In.
    eapply list_elem_of_lookup_2, Hi. }
  destruct (List.filter f l); [destruct Hin | simpl; lia].
Qed.

(** C7 (as the code has it). [returnToCache] first sends the cell on the
    channel it is bound to and then releases its lock.  For a cell in use
    that is bound to the available queue of an entry with conserved capacity
    and a queue as large as [maxCapacity], the send does not park.  In the
    state between the two steps the cell is in the queue and its lock is
    still held: whoever takes it from the queue there parks in
    [acquireFromCache] until the lock is released. *)
Theorem returnToCache_send_then_unlock cv c e ca (s : Store) :
  cellHeap s !! cv = Some c → cv_lock c = true → returnChan c = available e →
  cellChans s !! available e = Some ca → ch_cap ca = maxCapacity e →
  conserved s e →
  ∃ s1 s2,
    (c' ← load_cell cv; send_cell (returnChan c') cv) s = Done () s1 ∧
    cv_Unlock cv s1 = Done () s2 ∧
    returnToCache cv s = Done () s2 ∧
    trace s1 = trace s ++ [EvSend (available e) cv] ∧
    trace s2 = trace s ++ [EvSend (available e) cv; EvUnlock cv] ∧
    cellChans s1 !! available e = Some (push cv ca) ∧
    cellHeap s1 !! cv = Some c ∧
    (∀ s' : Store, cellHeap s' !! cv = Some c → acquireFromCache cv s' = Blocked s') ∧
    cellChans s2 !! available e = Some (push cv ca) ∧
    cellHeap s2 !! cv
    = Some (mkValue false (returnChan c) (value c) (lastUsed c)).
Proof.
  intros Hc Hl Hrc Hca Hcap Hcons.
  assert (Hroom : chan_len ca < ch_cap ca).
  { unfold conserved, census in Hcons. rewrite Hca in Hcons.
    destruct (intChans s !! capacity e) as [cc|]; [|discriminate].
    injection Hcons as Hsum.
    assert (1 ≤ in_use s e)%nat.
    { eapply filter_hit; [exact Hc|]. unfold held_for.
      rewrite Hl, Hrc, Nat.eqb_refl. reflexivity. }
    unfold chan_len in *. lia. }
  rewrite <- Hrc in *.
  eexists _, _. split; [ | split; [ | split ] ].
  - step load_cell_run. eapply send_cell_room; eauto.
  - eapply cv_Unlock_run; [ lk | exact Hl ].
  - rewrite (returnToCache_run cv c ca) by assumption. done_eq.
  - split; [ lk | ]. split; [ simpl; now rewrite <- app_assoc | ].
    split; [ lk | ]. split; [ exact Hc | ].
    split; [ intros s' Hc'; now apply (acquireFromCache_held cv c) | ].
    split; [ lk | ]. lk.
Qed.


Lemma Get_run ctx pick k entry r (s s2 : Store) :
  c_lock (pool s) = freeRW → entries (pool s) !! k = Some entry →
  getValue entry ctx pick (inside {| writer := false; readers := 1 |} s)
  = Done r s2 →
  c_lock (pool s2) = {| writer := false; readers := 1 |} →
  Get ctx pick k s = Done (found r) (outside s2).
Proof.
  intros Hl Hk Hget Hl2. rewrite (Get_via_getValue _ _ _ entry) by exact Hk.
  rewrite ?bind_assoc. erewrite bind_Done; [ | eapply c_RLock_run; now rewrite Hl ].
  cbv beta. undefer. step triggerSweep_run.
  rewrite ?bind_assoc. erewrite bind_Done.
  2:{ etransitivity; [ | exact Hget ]. f_equal. unfold inside. store_eq.
      now rewrite Hl. }
  cbv beta. rewrite mret_bind.
  erewrite bind_Done; [ | eapply (c_RUnlock_run 0); now rewrite Hl2 ].
  rewrite mret_run. unfold outside. done_eq. now rewrite Hl2.
Qed.

Lemma AddAndAcquire_run ctx pick k f n entry r (s s2 : Store) :
  c_lock (pool s) = freeRW → entries (pool s) !! k = Some entry →
  getValue entry ctx pick (inside {| writer := true; readers := 0 |} s)
  = Done r s2 →
  c_lock (pool s2) = {| writer := true; readers := 0 |} →
  AddAndAcquire ctx pick k f n s = Done (found r) (outside s2).
Proof.
  intros Hl Hk Hget Hl2.
  rewrite (AddAndAcquire_via_getValue _ _ _ _ _ entry) by exact Hk.
  step c_Lock_run. undefer. step triggerSweep_run.
  rewrite ?bind_assoc. erewrite bind_Done.
  2:{ etransitivity; [ | exact Hget ]. f_equal; unfold inside; store_eq. }
  cbv beta. rewrite mret_bind.
  erewrite bind_Done; [ | eapply c_Unlock_run; now rewrite Hl2 ].
  rewrite mret_run. unfold outside. done_eq. now rewrite Hl2.
Qed.

Lemma select_of_ready ctx e pick a rest (s : Store) :
  ready ctx e s = a :: rest →
  select ctx e pick s
  = Done (nth (pick `mod` S (length rest))%nat (a :: rest) a) s.
Proof. intros Hr. unfold select. now rewrite Hr. Qed.


(** ** Acquire, release, acquire again *)

(** C9 (as the code has it). On a key without entry, with a bound of at least
    one that [make] accepts and a factory that works, [AddAndAcquire] hands
    out a new cell;
    after its release, a [Get] under a context that is not done returns that
    same cell when the bound is one, whatever the choice of the [select].
    With a bound of two or more a ticket is ready as well: one choice of the
    [select] returns the released cell, the other one has the factory build
    a second cell and returns that one. *)
Theorem release_then_Get ctx pick ctx' k f n v (s : Store) :
  c_lock (pool s) = freeRW → entries (pool s) !! k = None →
  1 ≤ n → n ≤ Z.of_N chanLimit →
  f (calls s) = inl v → Err ctx' = None →
  let cv := length (cellHeap s) in
  ∃ s1 s2,
    AddAndAcquire ctx pick k f n s
    = Done (v, returnToCacheOf cv, false, None) s1 ∧
    invoke (returnToCacheOf cv) s1 = Done () s2 ∧
    (n = 1 → ∀ pick', ∃ s3,
       Get ctx' pick' k s2 = Done (v, returnToCacheOf cv, true, None) s3) ∧
    (2 ≤ n →
       (∃ s3, Get ctx' 0 k s2 = Done (v, returnToCacheOf cv, true, None) s3) ∧
       (∀ v', f (S (calls s)) = inl v' → ∃ s3,
          Get ctx' 1 k s2 = Done (v', returnToCacheOf (S cv), true, None) s3)).
Proof.
  intros Hl Hnone Hn Hlim Hf Hctx. cbv zeta.
  pose (cv := length (cellHeap s)). pose (av := length (cellChans s)).
  pose (cp := length (intChans s)). pose (entry := length (entryHeap s)).
  pose (e := mkEntry freeRW av cp n f k).
  eexists _, _. split; [ now apply AddAndAcquire_new_ok | ].
  split.
  { simpl invoke.
    eapply (returnToCache_run cv (mkValue true av v (clock s)) (mkChan n []));
      [ cbv delta [av cv]; lk | reflexivity | cbv delta [av cv]; lk
      | unfold chan_len; simpl; lia ]. }
  match goal with
  | |- context [Get _ _ _ ?st] => set (s2 := st)
  end.
  assert (Hk2 : entries (pool s2) !! k = Some entry) by apply lookup_insert_eq.
  assert (He : ∀ l, entryHeap (inside l s2) !! entry = Some e)
    by (intros; unfold s2; cbv delta [e av cp cv entry]; lk).
  assert (Hqueue : ∀ l, cellChans (inside l s2) !! available e
                        = Some (mkChan n [cv]))
    by (intros; unfold s2; cbv delta [e av cp cv entry]; lk).
  assert (Hcell : ∀ l, cellHeap (inside l s2) !! cv
                       = Some (mkValue false av v (clock s)))
    by (intros; unfold s2; cbv delta [e av cp cv entry]; lk).
  assert (Htickets : ∀ l, intChans (inside l s2) !! capacity e
                          = Some (mkChan n (replicate (Z.to_nat n - 1) 1)))
    by (intros; unfold s2; cbv delta [e av cp cv entry]; lk).
  fold cv.
  split.
  - intros -> pick'. eexists.
    eapply (Get_run ctx' pick' k entry (v, returnToCacheOf cv, None));
      [ reflexivity | exact Hk2 | | ].
    { eapply (getValue_AltAvailable entry e ctx' pick' 1 cv []
                (mkValue false av v (clock s)));
        [ apply He | reflexivity | | apply Hqueue | apply Hcell | reflexivity ].
      erewrite select_of_ready
        by (unfold ready; rewrite Hctx, Hqueue, Htickets; reflexivity).
      simpl length. now rewrite Nat.mod_1_r. }
    reflexivity.
  - intros Hn2.
    assert (Hrep : replicate (Z.to_nat n - 1) 1
                   = 1 :: replicate (Z.to_nat n - 2) 1).
    { destruct (Z.to_nat n - 1)%nat as [|m] eqn:E; [lia|].
      simpl. f_equal. f_equal. lia. }
    assert (Hready : ∀ l, ready ctx' e (inside l s2) = [AltAvailable; AltCapacity]).
    { intros l. unfold ready. rewrite Hctx, Hqueue, Htickets, Hrep. reflexivity. }
    split.
    + eexists.
      eapply (Get_run ctx' 0 k entry (v, returnToCacheOf cv, None));
        [ reflexivity | exact Hk2 | | ].
      { eapply (getValue_AltAvailable entry e ctx' 0 n cv []
                  (mkValue false av v (clock s)));
          [ apply He | reflexivity | | apply Hqueue | apply Hcell | reflexivity ].
        now erewrite select_of_ready by apply Hready. }
      reflexivity.
    + intros v' Hf'. eexists.
      eapply (Get_run ctx' 1 k entry (v', returnToCacheOf (S cv), None));
        [ reflexivity | exact Hk2 | | ].
      { etransitivity.
        { eapply (getValue_AltCapacity_ok entry e ctx' 1 n 1
                    (replicate (Z.to_nat n - 2) 1) v');
            [ apply He | reflexivity | | rewrite Htickets, Hrep; reflexivity
            | exact Hf' ].
          now erewrite select_of_ready by apply Hready. }
        apply Done_eq; [ | reflexivity ].
        simpl. rewrite length_insert, length_app. simpl.
        do 3 f_equal. unfold cv. lia. }
      reflexivity.
Qed.

(** ** [UpdateIfExists] *)

Lemma updateValue_fail cv c f newAvailable err (s : Store) :
  cellHeap s !! cv = Some c → cv_lock c = false → f (calls s) = inr err →
  updateValue cv f newAvailable s
  = Done (Some err)
      (logs [EvLock cv; EvClose cv (value c); EvCreate (inr err); EvUnlock cv]
         (set_calls S s)).
Proof.
  intros Hc Hl Hf. unfold updateValue.
  step cv_Lock_run. undefer. rewrite ?bind_assoc. step close_value_run.
  rewrite ?bind_assoc. erewrite bind_Done by apply call_run.
  simpl calls. rewrite Hf. cbv beta iota. rewrite mret_bind.
  step cv_Unlock_run. rewrite mret_run. done_eq.
  apply list_insert_id. rewrite Hc. f_equal. destruct c; simpl in *. now subst.
Qed.

Lemma updateValue_ok cv c f newAvailable v (s : Store) :
  cellHeap s !! cv = Some c → cv_lock c = false → f (calls s) = inl v →
  updateValue cv f newAvailable s
  = Done None
      (logs [EvLock cv; EvClose cv (value c); EvCreate (inl v); EvUnlock cv]
         (put_cell cv (mkValue false newAvailable v (lastUsed c))
            (set_calls S s))).
Proof.
  intros Hc Hl Hf. unfold updateValue.
  step cv_Lock_run. undefer. rewrite ?bind_assoc. step close_value_run.
  rewrite ?bind_assoc. erewrite bind_Done by apply call_run.
  simpl calls. rewrite Hf. cbv beta iota.
  step load_cell_run. unfold store_cell.
  rewrite ?bind_assoc. erewrite bind_Done by reflexivity. cbv beta.
  rewrite mret_bind. step cv_Unlock_run. rewrite mret_run. done_eq.
Qed.

Lemma drain_S entry old new f m n j err :
  drain entry old new f m (S n) j err
  = (cv ← recv_cell old;
     if m <=? j
     then cv_Lock cv;;
          close_value cv;;
          cv_Unlock cv;;
          drain entry old new f m n j err
     else
       e ← updateValue cv f new;
       match e with
       | Some e =>
           en ← load_entry entry;
           send_int (capacity en) 1;;
           drain entry old new f m n j (errors_Join [err; Some e])
       | None =>
           send_cell new cv;;
           drain entry old new f m n (j + 1) err
       end : M (Z * option error)).
Proof. reflexivity. Qed.

(** A drained cell that finds the new queue full is closed and dropped. *)
Lemma drain_excess entry old new f m n j err capo cv rest c (s : Store) :
  m ≤ j →
  cellChans s !! old = Some (mkChan capo (cv :: rest)) →
  cellHeap s !! cv = Some c → cv_lock c = false →
  drain entry old new f m (S n) j err s
  = drain entry old new f m n j err
      (logs [EvRecv old cv; EvLock cv; EvClose cv (value c); EvUnlock cv]
         (put_cellChan old (mkChan capo rest) s)).
Proof.
  intros Hj Hold Hc Hl. rewrite drain_S. step recv_cell_run.
  destruct (Z.leb_spec m j); [|lia].
  step cv_Lock_run. step close_value_run. step cv_Unlock_run.
  f_equal. store_eq.
  apply list_insert_id. rewrite Hc. f_equal. destruct c; simpl in *. now subst.
Qed.

(** A drained cell whose rebuild fails pays a ticket into the capacity
    channel that the entry has now, and its error is joined to the others. *)
Lemma drain_failed entry en old new f m n j err capo cv rest c cc e (s : Store) :
  j < m →
  entryHeap s !! entry = Some en →
  cellChans s !! old = Some (mkChan capo (cv :: rest)) →
  cellHeap s !! cv = Some c → cv_lock c = false →
  intChans s !! capacity en = Some cc → chan_len cc < ch_cap cc →
  f (calls s) = inr e →
  drain entry old new f m (S n) j err s
  = drain entry old new f m n j (errors_Join [err; Some e])
      (logs [EvRecv old cv; EvLock cv; EvClose cv (value c);
             EvCreate (inr e); EvUnlock cv]
         (set_calls S
            (put_intChan (capacity en) (push 1 cc)
               (put_cellChan old (mkChan capo rest) s)))).
Proof.
  intros Hj He Hold Hc Hl Hcc Hroom Hf. rewrite drain_S. step recv_cell_run.
  destruct (Z.leb_spec m j); [lia|].
  rewrite ?bind_assoc. erewrite bind_Done;
    [ | eapply (updateValue_fail cv c); [ lk | exact Hl | exact Hf ] ].
  cbv beta iota. step load_entry_run. step send_int_room.
  f_equal. store_eq.
Qed.

(** A drained cell that is rebuilt goes to the back of the new queue. *)
Lemma drain_rebuilt entry old new f m n j err capo cv rest c cn v (s : Store) :
  j < m → old ≠ new →
  cellChans s !! old = Some (mkChan capo (cv :: rest)) →
  cellHeap s !! cv = Some c → cv_lock c = false →
  cellChans s !! new = Some cn → chan_len cn < ch_cap cn →
  f (calls s) = inl v →
  drain entry old new f m (S n) j err s
  = drain entry old new f m n (j + 1) err
      (logs [EvRecv old cv; EvLock cv; EvClose cv (value c);
             EvCreate (inl v); EvUnlock cv; EvSend new cv]
         (put_cell cv (mkValue false new v (lastUsed c))
            (set_calls S
               (put_cellChan new (push cv cn)
                  (put_cellChan old (mkChan capo rest) s))))).
Proof.
  intros Hj Hne Hold Hc Hl Hcn Hroom Hf. rewrite drain_S. step recv_cell_run.
  destruct (Z.leb_spec m j); [lia|].
  rewrite ?bind_assoc. erewrite bind_Done;
    [ | eapply (updateValue_ok cv c); [ lk | exact Hl | exact Hf ] ].
  cbv beta iota.
  rewrite ?bind_assoc. erewrite bind_Done;
    [ | eapply (send_cell_room new cn);
        [ simpl; rewrite list_lookup_insert_ne by exact Hne; exact Hcn
        | exact Hroom ] ].
  cbv beta. f_equal. store_eq.
Qed.


Lemma idle_cell_put cv c' p (s s1 : Store) :
  cellHeap s1 = <[cv := c']> (cellHeap s) → cv_lock c' = false →
  idle_cell s p → idle_cell s1 p.
Proof.
  intros Hh Hl (c & Hc & Hcl). unfold idle_cell. rewrite Hh.
  destruct (decide (cv = p)) as [->|Hne].
  - exists c'. split; [|exact Hl].
    apply list_lookup_insert_eq. eapply lookup_lt_Some, Hc.
  - exists c. split; [|exact Hcl]. now rewrite list_lookup_insert_ne.
Qed.

(** The loop of [UpdateIfExists] on [cells], the next cells of the old
    queue, all idle: it returns, and what it returns and leaves behind is
    what [fates] says, provided the capacity channel of the entry has room
    for the tickets of the failed rebuilds. *)
Lemma drain_run entry en old new f m capo capc :
  old ≠ new →
  ∀ cells rest j err bufn tk (s : Store),
    entryHeap s !! entry = Some en →
    cellChans s !! old = Some (mkChan capo (cells ++ rest)) →
    cellChans s !! new = Some (mkChan m bufn) →
    Z.of_nat (length bufn) = j →
    intChans s !! capacity en = Some (mkChan capc tk) →
    Forall (idle_cell s) cells →
    Z.of_nat (length tk
              + length (failures (fates f m (length cells) (calls s) j))) ≤ capc →
    ∃ s',
      drain entry old new f m (length cells) j err s
      = Done (j + Z.of_nat (rebuilt (fates f m (length cells) (calls s) j)),
              joinErrs err (failures (fates f m (length cells) (calls s) j))) s' ∧
      cellChans s' !! old = Some (mkChan capo rest) ∧
      cellChans s' !! new
      = Some (mkChan m (bufn ++ kept cells (fates f m (length cells) (calls s) j))) ∧
      intChans s' !! capacity en
      = Some (mkChan capc
                (tk ++ replicate
                         (length (failures (fates f m (length cells) (calls s) j))) 1)) ∧
      calls s' = (calls s + attempts (fates f m (length cells) (calls s) j))%nat ∧
      entryHeap s' = entryHeap s ∧ pool s' = pool s ∧
      (∀ p, idle_cell s p → idle_cell s' p).
Proof.
  intros Hne. induction cells as [|cv cells IH];
    intros rest j err bufn tk s He Hold Hnew Hj Htk Hidle Hroom.
  - exists s. simpl. unfold rebuilt, attempts. simpl.
    rewrite Z.add_0_r, !app_nil_r, Nat.add_0_r. simpl in Hold. now repeat split.
  - apply Forall_cons in Hidle as [(c & Hc & Hl) Hidle].
    simpl length in *. simpl fates in *. simpl app in Hold.
    destruct (Z.leb_spec m j) as [Hfull|Hfree].
    + (* excess *)
      rewrite (drain_excess entry old new f m _ j err capo cv (cells ++ rest) c s)
        by assumption.
      match goal with
      | |- context [drain _ _ _ _ _ _ _ _ ?st] => set (s1 := st)
      end.
      edestruct (IH rest j err bufn tk s1)
        as (s' & Hrun & H1 & H2 & H3 & H4 & H5 & H6 & H7);
        [ | | | | | | | exists s' ].
      * exact He.
      * lk.
      * simpl. rewrite list_lookup_insert_ne by exact Hne. exact Hnew.
      * exact Hj.
      * exact Htk.
      * exact Hidle.
      * exact Hroom.
      * simpl in *. split; [ exact Hrun | ]. now repeat split.
    + destruct (f (calls s)) as [v|e] eqn:Hf.
      * (* rebuilt *)
        rewrite (drain_rebuilt entry old new f m _ j err capo cv (cells ++ rest) c
                   (mkChan m bufn) v s)
          by (try assumption; unfold chan_len; simpl; lia).
        match goal with
        | |- context [drain _ _ _ _ _ _ _ _ ?st] => set (s1 := st)
        end.
        edestruct (IH rest (j + 1) err (bufn ++ [cv]) tk s1)
          as (s' & Hrun & H1 & H2 & H3 & H4 & H5 & H6 & H7);
          [ | | | | | | | exists s' ].
        -- exact He.
        -- simpl. rewrite list_lookup_insert_ne by congruence. lk.
        -- lk.
        -- rewrite length_app. simpl. lia.
        -- exact Htk.
        -- eapply Forall_impl; [ exact Hidle | ].
           intros p Hp. eapply (idle_cell_put cv); [ reflexivity | | exact Hp ].
           reflexivity.
        -- exact Hroom.
        -- simpl in *. unfold rebuilt, attempts in *. simpl.
           split; [ rewrite Hrun; f_equal; f_equal; lia | ].
           split; [ exact H1 | ]. split; [ now rewrite H2, <- app_assoc | ].
           split; [ exact H3 | ]. split; [ lia | ].
           split; [ exact H5 | ]. split; [ exact H6 | ].
           intros p Hp. apply H7.
           eapply (idle_cell_put cv); [ reflexivity | | exact Hp ]. reflexivity.
      * (* failed *)
        rewrite (drain_failed entry en old new f m _ j err capo cv (cells ++ rest) c
                   (mkChan capc tk) e s)
          by (try assumption; unfold chan_len; simpl in *; lia).
        match goal with
        | |- context [drain _ _ _ _ _ _ _ _ ?st] => set (s1 := st)
        end.
        edestruct (IH rest j (errors_Join [err; Some e]) bufn (tk ++ [1]) s1)
          as (s' & Hrun & H1 & H2 & H3 & H4 & H5 & H6 & H7);
          [ | | | | | | | exists s' ].
        -- exact He.
        -- lk.
        -- simpl. rewrite list_lookup_insert_ne by exact Hne. exact Hnew.
        -- exact Hj.
        -- lk.
        -- exact Hidle.
        -- simpl in *. rewrite length_app. simpl. lia.
        -- simpl in *. unfold rebuilt, attempts in *. simpl.
           split; [ exact Hrun | ]. split; [ exact H1 | ]. split; [ exact H2 | ].
           split; [ rewrite H3, <- app_assoc; reflexivity | ].
           split; [ lia | ]. now repeat split.
Qed.


(** Lines 165-185 as a state transformer. *)
Lemma swapEntry_run entry e f m capc tk (s : Store) :
  entryHeap s !! entry = Some e → ce_lock e = freeRW →
  intChans s !! capacity e = Some (mkChan capc tk) →
  Z.of_nat (length tk) ≤ capc → Z.of_nat (length tk) ≤ maxCapacity e →
  0 ≤ m → m ≤ Z.of_N chanLimit →
  swapEntry entry f m s
  = Done (available e, length (cellChans s),
          maxCapacity e - Z.of_nat (length tk))
      (mkStore (pool s)
         (<[entry := mkEntry freeRW (length (cellChans s)) (length (intChans s))
                       m f (key e)]> (entryHeap s))
         (cellHeap s)
         (cellChans s ++ [mkChan m []])
         (<[capacity e := mkChan capc (replicate (length tk) 1)]> (intChans s)
          ++ [mkChan m (replicate
                          (Z.to_nat (m - (maxCapacity e - Z.of_nat (length tk))))
                          1)])
         (clock s) (calls s) (sweeps s) (trace s)).
Proof.
  intros He Hl Hcc Hwf Hle Hm Hlim. unfold swapEntry.
  assert (Hlt : (capacity e < length (intChans s))%nat)
    by (eapply lookup_lt_Some, Hcc).
  step make_cellChan_run. step make_intChan_run. step ce_Lock_run.
  rewrite ?bind_assoc. erewrite bind_Done;
    [ | eapply (getAvailableCapacity_run entry _ capc tk);
        [ lk | simpl; rewrite lookup_app_l by exact Hlt; exact Hcc | exact Hwf ] ].
  cbv beta. step load_entry_run. simpl available. simpl maxCapacity.
  simpl key. simpl ce_lock. simpl capacity.
  unfold store_entry. rewrite ?bind_assoc. erewrite bind_Done by reflexivity.
  cbv beta.
  set (inUse := maxCapacity e - Z.of_nat (length tk)).
  assert (Hfill : ∀ (s1 : Store) buf0,
            intChans s1 !! length (intChans s) = Some (mkChan m buf0) → buf0 = [] →
            (if 0 <? m - inUse
             then fill (length (intChans s)) (Z.to_nat (m - inUse))
             else mret ()) s1
            = Done () (put_intChan (length (intChans s))
                         (mkChan m (replicate (Z.to_nat (m - inUse)) 1)) s1)).
  { intros s1 buf0 Hs1 ->. destruct (Z.ltb_spec 0 (m - inUse)).
    - erewrite (fill_run _ m _ []); [ reflexivity | exact Hs1 | simpl; lia ].
    - replace (Z.to_nat (m - inUse)) with 0%nat by lia. simpl.
      rewrite mret_run. now rewrite put_intChan_id. }
  rewrite ?bind_assoc. erewrite bind_Done;
    [ | eapply (Hfill _ []); [ | reflexivity ] ].
  2:{ simpl. rewrite insert_app_l by exact Hlt.
      rewrite lookup_app_r by (rewrite length_insert; lia).
      rewrite length_insert, Nat.sub_diag. reflexivity. }
  cbv beta.
  rewrite ?bind_assoc. erewrite bind_Done;
    [ | eapply ce_Unlock_run; [ lk | reflexivity ] ].
  cbv beta. rewrite mret_run. simpl. done_eq.
  rewrite insert_app_l by exact Hlt.
  replace (length (intChans s))
    with (length (<[capacity e := mkChan capc (replicate (length tk) 1)]>
                    (intChans s))) at 1 by apply length_insert.
  now rewrite insert_snoc.
Qed.


(** ** What [fates] says *)

Lemma fates_full (f : @CreateNewValue V) m n call j :
  m ≤ j → fates f m n call j = replicate n Excess.
Proof.
  intros Hj. revert call. induction n as [|n IH]; intros call; simpl.
  - reflexivity.
  - destruct (Z.leb_spec m j); [ now rewrite IH | lia ].
Qed.

Lemma rebuilt_replicate_Excess n :
  rebuilt (replicate n (Excess : @fate V)) = 0%nat.
Proof. unfold rebuilt. induction n; simpl; auto. Qed.

Lemma rebuilt_bound (f : @CreateNewValue V) m n : ∀ call j,
  j ≤ m → j + Z.of_nat (rebuilt (fates f m n call j)) ≤ m.
Proof.
  induction n as [|n IH]; intros call j Hj; simpl.
  - unfold rebuilt. simpl. lia.
  - destruct (Z.leb_spec m j).
    + assert (j = m) by lia. subst j.
      rewrite fates_full by lia.
      change (Excess :: replicate n Excess) with (replicate (S n) (@Excess V)).
      rewrite rebuilt_replicate_Excess. lia.
    + destruct (f call) as [v|e].
      * unfold rebuilt in *. simpl. specialize (IH (S call) (j + 1)). lia.
      * unfold rebuilt in *. simpl. apply IH. lia.
Qed.

Lemma kept_length (f : @CreateNewValue V) m : ∀ cells call j,
  length (kept cells (fates f m (length cells) call j))
  = rebuilt (fates f m (length cells) call j).
Proof.
  induction cells as [|cv cells IH]; intros call j; simpl; [reflexivity|].
  destruct (m <=? j); simpl.
  - unfold rebuilt. simpl. apply IH.
  - destruct (f call); unfold rebuilt; simpl.
    + f_equal. apply IH.
    + apply IH.
Qed.

Lemma failures_cons (x : @fate V) l :
  failures (x :: l)
  = match x with Failed err => err :: failures l | _ => failures l end.
Proof. now destruct x. Qed.

Lemma failures_bound (f : @CreateNewValue V) m n : ∀ call j,
  (length (failures (fates f m n call j)) ≤ n)%nat.
Proof.
  induction n as [|n IH]; intros call j; simpl; [ reflexivity | ].
  destruct (m <=? j).
  - rewrite failures_cons. specialize (IH call j). lia.
  - destruct (f call); rewrite failures_cons; simpl.
    + specialize (IH (S call) (j + 1)). lia.
    + specialize (IH (S call) j). lia.
Qed.





(** ** Calls that find no entry *)

(** Taking and giving back the read lock of the pool leaves it as it was. *)
Lemma pool_relock (s : Store) :
  writer (c_lock (pool s)) = false →
  set_pool (λ c, set_c_lock {| writer := writer (c_lock c);
                               readers := readers (c_lock (pool s)) |} c)
    (set_pool (λ c, set_c_lock {| writer := false;
                                  readers := S (readers (c_lock c)) |} c) s)
  = s.
Proof.
  intros Hw. destruct s as [[[w r] es lc] ? ? ? ? ? ? ? ?]. simpl in *. now subst.
Qed.

Lemma UpdateIfExists_miss k f m (s : Store) :
  writer (c_lock (pool s)) = false → entries (pool s) !! k = None →
  UpdateIfExists k f m s = Done (false, None) s.
Proof.
  intros Hw Hk. unfold UpdateIfExists.
  step c_RLock_run. eapply defer_run.
  - step load_pool_run. simpl. rewrite Hk. reflexivity.
  - etransitivity; [ eapply (c_RUnlock_run (readers (c_lock (pool s)))); reflexivity | ].
    f_equal. now apply pool_relock.
Qed.

Lemma Get_miss ctx pick k (s : Store) :
  writer (c_lock (pool s)) = false → entries (pool s) !! k = None →
  Get ctx pick k s
  = Done (inhabitant, NilReturnCapacityToCache, false, None)
      (inside (c_lock (pool s)) s).
Proof.
  intros Hw Hk. unfold Get.
  step c_RLock_run. eapply defer_run.
  - step triggerSweep_run. step load_pool_run. simpl. rewrite Hk. reflexivity.
  - etransitivity; [ eapply (c_RUnlock_run (readers (c_lock (pool s)))); reflexivity | ].
    apply Done_eq; [ reflexivity | ].
    destruct s as [[[w r] es lc] ? ? ? ? ? ? ? ?]. simpl in *. subst. reflexivity.
Qed.

(** X1. A key without entry: [Get] returns the zero value, the no-op release
    function, found = false and no error, whatever the context, and changes
    nothing but the time of the last check and the count of launched sweeps;
    [UpdateIfExists] returns (false, nil) and leaves the store as it was: no
    channel is made and the factory is not called, whatever the bound. *)
Theorem missing_key_is_reported ctx pick k f m (s : Store) :
  writer (c_lock (pool s)) = false → entries (pool s) !! k = None →
  Get ctx pick k s
  = Done (inhabitant, NilReturnCapacityToCache, false, None)
      (inside (c_lock (pool s)) s) ∧
  UpdateIfExists k f m s = Done (false, None) s.
Proof.
  intros Hw Hk. split.
  - now apply Get_miss.
  - now apply UpdateIfExists_miss.
Qed.

(** ** The keys of the map *)

Lemma rangeEntries_Permutation order (m : gmap K nat) :
  rangeEntries order m ≡ₚ map_to_list m.
Proof.
  unfold rangeEntries. symmetry. apply permutations_Permutation.
  assert (Hne : (0 < length (permutations (map_to_list m)))%nat).
  { pose proof (permutations_refl (map_to_list m)) as Hin.
    apply list_elem_of_lookup in Hin as [i Hi].
    apply lookup_lt_Some in Hi. lia. }
  apply list_elem_of_In, nth_In, Nat.mod_upper_bound. lia.
Qed.

Lemma foldl_snoc_fst {A B} (l : list (A * B)) : ∀ acc,
  foldl (λ keys kv, keys ++ [kv.1]) acc l = acc ++ l.*1.
Proof.
  induction l as [|x l IH]; intros acc; simpl.
  - now rewrite app_nil_r.
  - rewrite IH. now rewrite <- app_assoc.
Qed.

(** X2. [Keys], when no writer holds the lock of the pool, returns every key
    of the map exactly once, in the order of the iteration, as many keys as
    the map has entries, and leaves the store as it was. *)
Theorem Keys_lists_every_key_once order (s : Store) :
  writer (c_lock (pool s)) = false →
  ∃ keys,
    Keys order s = Done keys s ∧
    NoDup keys ∧
    (∀ k, k ∈ keys ↔ is_Some (entries (pool s) !! k)) ∧
    length keys = size (entries (pool s)).
Proof.
  intros Hw. exists ((rangeEntries order (entries (pool s))).*1).
  pose proof (rangeEntries_Permutation order (entries (pool s))) as Hp.
  split; [ | split; [ | split ] ].
  - unfold Keys. step c_RLock_run. eapply defer_run.
    + step load_pool_run. simpl entries. rewrite foldl_snoc_fst. reflexivity.
    + etransitivity;
        [ eapply (c_RUnlock_run (readers (c_lock (pool s)))); reflexivity | ].
      f_equal. now apply pool_relock.
  - rewrite Hp. apply NoDup_fst_map_to_list.
  - intros k. rewrite Hp. rewrite list_elem_of_fmap. split.
    + intros [[k' ce] [-> Hin]]. apply elem_of_map_to_list in Hin. eauto.
    + intros [ce Hce]. exists (k, ce). split; [ reflexivity | ].
      now apply elem_of_map_to_list.
  - rewrite length_fmap, Hp. apply length_map_to_list.
Qed.

(** ** Calls that do not return *)

Lemma bind_Blocked {A B} (m : M A) (k : A → M B) (s s' : Store) :
  m s = Blocked s' → (m ≫= k) s = Blocked s'.
Proof. intros Hm. unfold mbind, M_bind, bind. now rewrite Hm. Qed.

Lemma bind_Panic {A B} (m : M A) (k : A → M B) (s s' : Store) :
  m s = Panic s' → (m ≫= k) s = Panic s'.
Proof. intros Hm. unfold mbind, M_bind, bind. now rewrite Hm. Qed.

Lemma c_Lock_held (s : Store) :
  writer (c_lock (pool s)) = true → c_Lock s = Blocked s.
Proof.
  intros Hw. unfold c_Lock. step load_pool_run. unfold rw_Lock. now rewrite Hw.
Qed.

Lemma c_RLock_held (s : Store) :
  writer (c_lock (pool s)) = true → c_RLock s = Blocked s.
Proof.
  intros Hw. unfold c_RLock. step load_pool_run. unfold rw_RLock. now rewrite Hw.
Qed.

Lemma make_cellChan_out_of_range n (s : Store) :
  n < 0 ∨ Z.of_N chanLimit < n → make_cellChan n s = Panic s.
Proof.
  intros Hn. unfold make_cellChan.
  destruct (Z.ltb_spec n 0); [ reflexivity | ].
  destruct (Z.ltb_spec (Z.of_N chanLimit) n); [ reflexivity | lia ].
Qed.

(** With the write lock of the pool taken, every method of the pool waits at
    its first line. *)
Lemma pool_locked_blocks ctx pick k f n order (s : Store) :
  writer (c_lock (pool s)) = true →
  AddAndAcquire ctx pick k f n s = Blocked s ∧
  Get ctx pick k s = Blocked s ∧
  UpdateIfExists k f n s = Blocked s ∧
  Keys order s = Blocked s ∧
  cleanupEntries order s = Blocked s.
Proof.
  intros Hw. repeat split.
  - unfold AddAndAcquire. eapply bind_Blocked. now apply c_Lock_held.
  - unfold Get. eapply bind_Blocked. now apply c_RLock_held.
  - unfold UpdateIfExists. eapply bind_Blocked. now apply c_RLock_held.
  - unfold Keys. eapply bind_Blocked. now apply c_RLock_held.
  - unfold cleanupEntries. eapply bind_Blocked. now apply c_Lock_held.
Qed.

(** X4. [AddAndAcquire] of a new key with [maxEntries = 0] never returns: it
    installs the entry, makes no factory call and parks on the empty
    capacity channel with the write lock of the pool taken, so that every
    later call of [AddAndAcquire], [Get], [UpdateIfExists], [Keys] and
    [cleanupEntries] parks as well, whatever its context. *)
Theorem AddAndAcquire_zero_capacity_wedges ctx pick k f (s : Store) :
  c_lock (pool s) = freeRW → entries (pool s) !! k = None →
  ∃ s',
    AddAndAcquire ctx pick k f 0 s = Blocked s' ∧
    entries (pool s') !! k = Some (length (entryHeap s)) ∧
    calls s' = calls s ∧
    ∀ ctx' pick' k' f' n' order,
      AddAndAcquire ctx' pick' k' f' n' s' = Blocked s' ∧
      Get ctx' pick' k' s' = Blocked s' ∧
      UpdateIfExists k' f' n' s' = Blocked s' ∧
      Keys order s' = Blocked s' ∧
      cleanupEntries order s' = Blocked s'.
Proof.
  intros Hl Hk. eexists. split; [ | split; [ | split ] ].
  - unfold AddAndAcquire. step c_Lock_run. undefer. rewrite ?bind_assoc.
    step triggerSweep_run. step load_pool_run. simpl entries. rewrite Hk.
    step make_cellChan_run. step make_intChan_run.
    simpl length.
    rewrite ?bind_assoc. erewrite bind_Done;
      [ | eapply (fill_run _ 0 (Z.to_nat 0) []); [ lk | simpl; lia ] ].
    cbv beta. simpl app.
    step new_entry_run. step install_run.
    rewrite ?bind_assoc. apply bind_Blocked. eapply recv_int_empty.
    simpl; rewrite insert_snoc; apply lookup_snoc.
  - simpl. apply lookup_insert_eq.
  - reflexivity.
  - intros. now apply pool_locked_blocks.
Qed.

(** X5. A [maxEntries] that is negative, or larger than [make] accepts, is a
    run-time panic of [make]: in [AddAndAcquire] when the key is new, in
    [UpdateIfExists] when the key has an entry.  The deferred unlock runs
    while the panic unwinds: the lock of the pool is as it was before the
    call, no entry was installed and no channel made. *)
Theorem bound_out_of_range_panics k f n (s : Store) :
  n < 0 ∨ Z.of_N chanLimit < n →
  (∀ ctx pick, c_lock (pool s) = freeRW → entries (pool s) !! k = None →
     AddAndAcquire ctx pick k f n s = Panic (inside freeRW s)) ∧
  (∀ entry, writer (c_lock (pool s)) = false →
     entries (pool s) !! k = Some entry →
     UpdateIfExists k f n s = Panic s).
Proof.
  intros Hn. split.
  - intros ctx pick Hl Hk.
    unfold AddAndAcquire. step c_Lock_run.
    etransitivity.
    { eapply (defer_Panic _ _ _ (inside {| writer := true; readers := 0 |} s)).
      - step triggerSweep_run. step load_pool_run.
        cbn [entries pool set_sweeps set_pool set_c_lock]. rewrite Hk.
        rewrite ?bind_assoc. apply bind_Panic.
        etransitivity; [ now apply make_cellChan_out_of_range | ].
        f_equal.
      - now apply c_Unlock_run. }
    f_equal.
  - intros entry Hw Hk.
    unfold UpdateIfExists. step c_RLock_run.
    etransitivity.
    { eapply (defer_Panic _ _ _
                (set_pool (λ c, set_c_lock {| writer := false;
                                              readers := S (readers (c_lock c)) |} c) s)).
      - step load_pool_run.
        cbn [entries pool set_sweeps set_pool set_c_lock]. rewrite Hk.
        unfold swapEntry. rewrite ?bind_assoc.
        apply bind_Panic. now apply make_cellChan_out_of_range.
      - now apply (c_RUnlock_run (readers (c_lock (pool s)))). }
    f_equal. store_eq.
    destruct (pool s) as [[w r] es lc]. simpl in *. now subst.
Qed.

(** ** An entry with nothing to hand out *)

Lemma Get_parks ctx pick k entry (s s2 : Store) :
  c_lock (pool s) = freeRW → entries (pool s) !! k = Some entry →
  getValue entry ctx pick (inside {| writer := false; readers := 1 |} s)
  = Blocked s2 →
  Get ctx pick k s = Blocked s2.
Proof.
  intros Hl Hk Hget. rewrite (Get_via_getValue _ _ _ entry) by exact Hk.
  rewrite ?bind_assoc. erewrite bind_Done; [ | eapply c_RLock_run; now rewrite Hl ].
  cbv beta. apply defer_Blocked. step triggerSweep_run.
  rewrite ?bind_assoc. eapply bind_Blocked.
  etransitivity; [ | exact Hget ]. f_equal. unfold inside. store_eq.
  now rewrite Hl.
Qed.

Lemma AddAndAcquire_parks ctx pick k f n entry (s s2 : Store) :
  c_lock (pool s) = freeRW → entries (pool s) !! k = Some entry →
  getValue entry ctx pick (inside {| writer := true; readers := 0 |} s)
  = Blocked s2 →
  AddAndAcquire ctx pick k f n s = Blocked s2.
Proof.
  intros Hl Hk Hget.
  rewrite (AddAndAcquire_via_getValue _ _ _ _ _ entry) by exact Hk.
  step c_Lock_run. apply defer_Blocked. step triggerSweep_run.
  rewrite ?bind_assoc. eapply bind_Blocked.
  etransitivity; [ | exact Hget ]. f_equal; unfold inside; store_eq.
Qed.

(** No idle cell and no ticket: the [select] has the context only. *)
Lemma ready_exhausted ctx e capa capc (s : Store) :
  cellChans s !! available e = Some (mkChan capa []) →
  intChans s !! capacity e = Some (mkChan capc []) →
  ready ctx e s = match Err ctx with Some _ => [AltDone] | None => [] end.
Proof.
  intros Ha Hc. unfold ready. rewrite Ha, Hc. now rewrite !app_nil_r.
Qed.

Lemma getValue_exhausted ce e ctx pick capa capc (s : Store) :
  entryHeap s !! ce = Some e → writer (ce_lock e) = false →
  cellChans s !! available e = Some (mkChan capa []) →
  intChans s !! capacity e = Some (mkChan capc []) →
  match Err ctx with
  | None => ∃ s', getValue ce ctx pick s = Blocked s'
  | Some err =>
      getValue ce ctx pick s
      = Done (inhabitant, NilReturnCapacityToCache, Some err) s
  end.
Proof.
  intros He Hw Ha Hc.
  pose proof (ready_exhausted ctx e capa capc s Ha Hc) as Hr.
  destruct (Err ctx) as [err|] eqn:Hctx.
  - rewrite <- Hctx. eapply getValue_AltDone; [ exact He | exact Hw | ].
    now rewrite (select_of_ready _ _ _ _ _ _ Hr).
  - eexists. unfold getValue.
    step ce_RLock_run. undefer. rewrite ?bind_assoc.
    step load_entry_run. rewrite ?bind_assoc.
    eapply bind_Blocked. unfold select.
    erewrite (ready_exhausted ctx _ capa capc); [ now rewrite Hctx | lk | lk ].
Qed.

Lemma Get_exhausted ctx pick k ce e capa capc (s : Store) :
  c_lock (pool s) = freeRW → entries (pool s) !! k = Some ce →
  entryHeap s !! ce = Some e → writer (ce_lock e) = false →
  cellChans s !! available e = Some (mkChan capa []) →
  intChans s !! capacity e = Some (mkChan capc []) →
  match Err ctx with
  | None => ∃ s', Get ctx pick k s = Blocked s'
  | Some err =>
      Get ctx pick k s
      = Done (inhabitant, NilReturnCapacityToCache, true, Some err)
          (inside freeRW s)
  end.
Proof.
  intros Hl Hk He Hw Ha Hc.
  pose proof (getValue_exhausted ce e ctx pick capa capc
                (inside {| writer := false; readers := 1 |} s) He Hw Ha Hc) as Hr.
  destruct (Err ctx) as [err|] eqn:Hctx.
  - erewrite Get_run; [ | exact Hl | exact Hk | exact Hr | reflexivity ].
    reflexivity.
  - destruct Hr as [s1 Hr]. exists s1. eapply Get_parks; eassumption.
Qed.

Lemma AddAndAcquire_exhausted ctx pick k f n ce e capa capc (s : Store) :
  c_lock (pool s) = freeRW → entries (pool s) !! k = Some ce →
  entryHeap s !! ce = Some e → writer (ce_lock e) = false →
  cellChans s !! available e = Some (mkChan capa []) →
  intChans s !! capacity e = Some (mkChan capc []) →
  match Err ctx with
  | None => ∃ s', AddAndAcquire ctx pick k f n s = Blocked s'
  | Some err =>
      AddAndAcquire ctx pick k f n s
      = Done (inhabitant, NilReturnCapacityToCache, true, Some err)
          (inside freeRW s)
  end.
Proof.
  intros Hl Hk He Hw Ha Hc.
  pose proof (getValue_exhausted ce e ctx pick capa capc
                (inside {| writer := true; readers := 0 |} s) He Hw Ha Hc) as Hx.
  destruct (Err ctx) as [err|] eqn:Hctx.
  - erewrite AddAndAcquire_run; [ | exact Hl | exact Hk | exact Hx | reflexivity ].
    reflexivity.
  - destruct Hx as [s2 Hx]. exists s2. eapply AddAndAcquire_parks; eassumption.
Qed.

(** X6. An entry with no idle cell and no ticket: [Get] and [AddAndAcquire]
    park when the context is not done, for every choice of the [select];
    when the context is done they return its error with found = true, the
    zero value and the no-op release function, and change nothing but the
    time of the last check and the count of launched sweeps. *)
Theorem exhausted_entry_waits ctx pick k ce e capa capc (s : Store) :
  c_lock (pool s) = freeRW → entries (pool s) !! k = Some ce →
  entryHeap s !! ce = Some e → writer (ce_lock e) = false →
  cellChans s !! available e = Some (mkChan capa []) →
  intChans s !! capacity e = Some (mkChan capc []) →
  match Err ctx with
  | None =>
      (∃ s', Get ctx pick k s = Blocked s') ∧
      (∀ f n, ∃ s', AddAndAcquire ctx pick k f n s = Blocked s')
  | Some err =>
      Get ctx pick k s
      = Done (inhabitant, NilReturnCapacityToCache, true, Some err)
          (inside freeRW s) ∧
      (∀ f n, AddAndAcquire ctx pick k f n s
              = Done (inhabitant, NilReturnCapacityToCache, true, Some err)
                  (inside freeRW s))
  end.
Proof.
  intros Hl Hk He Hw Ha Hc.
  pose proof (Get_exhausted ctx pick k ce e capa capc s Hl Hk He Hw Ha Hc) as Hg.
  pose proof (λ f n, AddAndAcquire_exhausted ctx pick k f n ce e capa capc s
                       Hl Hk He Hw Ha Hc) as Hadd.
  destruct (Err ctx) as [err|]; split; assumption.
Qed.

(** ** Counting the cells in use *)

Lemma count_none {A} (P : A → bool) (l : list A) :
  (∀ i, hit P l i = false) → length (List.filter P l) = 0%nat.
Proof.
  induction l as [|x l IH]; intros H; [ reflexivity | ].
  simpl. pose proof (H 0%nat) as H0. unfold hit in H0. simpl in H0.
  rewrite H0. apply IH. intros i. apply (H (S i)).
Qed.

Lemma count_ext {A B} (P : A → bool) (Q : B → bool) (l : list A) : ∀ l' : list B,
  (∀ i, hit P l i = hit Q l' i) →
  length (List.filter P l) = length (List.filter Q l').
Proof.
  induction l as [|x l IH]; intros l' H.
  - simpl. symmetry. apply count_none. intros i. now rewrite <- H.
  - destruct l' as [|y l'].
    + apply count_none. intros i. now rewrite H.
    + simpl. pose proof (H 0%nat) as H0. unfold hit in H0. simpl in H0.
      rewrite H0. destruct (Q y); simpl; [ f_equal | ];
        apply IH; intros i; apply (H (S i)).
Qed.

Lemma count_flip {A B} (P : A → bool) (Q : B → bool) n :
  ∀ (l : list A) (l' : list B),
  (∀ i, i ≠ n → hit P l i = hit Q l' i) →
  hit P l n = false → hit Q l' n = true →
  length (List.filter Q l') = S (length (List.filter P l)).
Proof.
  induction n as [|n IH]; intros l l' H Hp Hq.
  - destruct l' as [|y l']; [ discriminate | ].
    unfold hit in Hq. simpl in Hq. simpl. rewrite Hq. simpl. f_equal.
    destruct l as [|x l].
    + apply count_none. intros i. symmetry. apply (H (S i)). lia.
    + unfold hit in Hp. simpl in Hp. simpl. rewrite Hp.
      symmetry. apply count_ext. intros i. apply (H (S i)). lia.
  - destruct l' as [|y l']; [ discriminate | ].
    pose proof (H 0%nat ltac:(lia)) as H0. unfold hit in H0.
    destruct l as [|x l]; simpl in H0.
    + simpl. rewrite <- H0.
      apply (IH [] l'); [ | reflexivity | exact Hq ].
      intros i Hi. apply (H (S i)). lia.
    + simpl. rewrite H0. destruct (Q y); simpl; [ f_equal | ];
        (apply IH; [ intros i Hi; apply (H (S i)); lia | exact Hp | exact Hq ]).
Qed.

Lemma in_use_ext (s s' : Store) (e e' : @cacheEntry K V) :
  (∀ cv, held_at s e cv = held_at s' e' cv) → in_use s e = in_use s' e'.
Proof. intros H. unfold in_use. apply count_ext. exact H. Qed.

Lemma in_use_none (s : Store) (e : @cacheEntry K V) :
  (∀ cv, held_at s e cv = false) → in_use s e = 0%nat.
Proof. intros H. unfold in_use. apply count_none. exact H. Qed.

Lemma in_use_more (s s' : Store) (e e' : @cacheEntry K V) cv :
  (∀ p, p ≠ cv → held_at s e p = held_at s' e' p) →
  held_at s e cv = false → held_at s' e' cv = true →
  in_use s' e' = S (in_use s e).
Proof. intros H Hp Hq. unfold in_use. eapply count_flip; eassumption. Qed.

(** What is in use is never more than the bound. *)
Lemma sound_bound (s : Store) (e : @cacheEntry K V) :
  sound s e → Z.of_nat (in_use s e) ≤ maxCapacity e.
Proof.
  intros (buf & tk & Ha & Hc & _ & _ & Hcons).
  unfold conserved, census in Hcons. rewrite Ha, Hc in Hcons.
  unfold chan_len in Hcons. simpl in Hcons. injection Hcons as Hcons. lia.
Qed.

(** ** What an operation on one entry leaves of the others *)

(** An entry stays in order when its two channels and the cells bound to
    its queue are left alone. *)
Lemma sound_frame (s s' : Store) (e : @cacheEntry K V) :
  cellChans s' !! available e = cellChans s !! available e →
  intChans s' !! capacity e = intChans s !! capacity e →
  (∀ cv c, returnChan c = available e →
           cellHeap s !! cv = Some c ↔ cellHeap s' !! cv = Some c) →
  sound s e → sound s' e.
Proof.
  intros Ha Hc Hcells (buf & tk & Hab & Hcb & Hnd & Hq & Hcons).
  assert (Hin : in_use s e = in_use s' e).
  { apply in_use_ext. intros cv. unfold held_at, hit.
    destruct (cellHeap s !! cv) as [c|] eqn:E, (cellHeap s' !! cv) as [c'|] eqn:E'.
    - destruct (Nat.eq_dec (returnChan c) (available e)) as [Hb|Hb].
      + apply (Hcells cv c Hb) in E. congruence.
      + destruct (Nat.eq_dec (returnChan c') (available e)) as [Hb'|Hb'].
        * apply (Hcells cv c' Hb') in E'. congruence.
        * unfold held_for.
          apply Nat.eqb_neq in Hb, Hb'. rewrite Hb, Hb'.
          now rewrite !andb_false_r.
    - destruct (Nat.eq_dec (returnChan c) (available e)) as [Hb|Hb].
      + apply (Hcells cv c Hb) in E. congruence.
      + unfold held_for. apply Nat.eqb_neq in Hb. rewrite Hb.
        now rewrite andb_false_r.
    - destruct (Nat.eq_dec (returnChan c') (available e)) as [Hb'|Hb'].
      + apply (Hcells cv c' Hb') in E'. congruence.
      + unfold held_for. apply Nat.eqb_neq in Hb'. rewrite Hb'.
        now rewrite andb_false_r.
    - reflexivity. }
  exists buf, tk. split; [ now rewrite Ha | ]. split; [ now rewrite Hc | ].
  split; [ exact Hnd | ]. split.
  - eapply Forall_impl; [ exact Hq | ].
    intros cv (c & Hcv & Hlk & Hb). exists c. split; [ | now split ].
    now apply (Hcells cv c Hb).
  - unfold conserved, census in *. rewrite Ha, Hc, <- Hin. exact Hcons.
Qed.

Lemma hit_insert_ne {A} (P : A → bool) (l : list A) i j x :
  i ≠ j → hit P (<[i := x]> l) j = hit P l j.
Proof. intros Hne. unfold hit. now rewrite list_lookup_insert_ne. Qed.

Lemma hit_insert_eq {A} (P : A → bool) (l : list A) i x y :
  l !! i = Some y → hit P (<[i := x]> l) i = P x.
Proof.
  intros Hi. unfold hit. rewrite list_lookup_insert_eq; [ reflexivity | ].
  eapply lookup_lt_Some, Hi.
Qed.

Lemma hit_snoc_ne {A} (P : A → bool) (l : list A) j x :
  j ≠ length l → hit P (l ++ [x]) j = hit P l j.
Proof.
  intros Hne. unfold hit. destruct (Nat.lt_ge_cases j (length l)).
  - now rewrite lookup_app_l.
  - rewrite lookup_app_r by lia. rewrite (lookup_ge_None_2 l j) by lia.
    destruct (j - length l)%nat eqn:E; [ lia | reflexivity ].
Qed.

Lemma hit_snoc_eq {A} (P : A → bool) (l : list A) x :
  hit P (l ++ [x]) (length l) = P x.
Proof. unfold hit. now rewrite lookup_snoc. Qed.

Lemma hit_fresh {A} (P : A → bool) (l : list A) : hit P l (length l) = false.
Proof. unfold hit. now rewrite lookup_ge_None_2. Qed.

(** The pieces of [sound]. *)
Lemma conserved_intro (s : Store) (e : @cacheEntry K V) capa buf capc tk :
  cellChans s !! available e = Some (mkChan capa buf) →
  intChans s !! capacity e = Some (mkChan capc tk) →
  Z.of_nat (length buf) + Z.of_nat (in_use s e) + Z.of_nat (length tk)
  = maxCapacity e →
  conserved s e.
Proof.
  intros Ha Hc Hsum. unfold conserved, census. rewrite Ha, Hc.
  unfold chan_len. simpl. now rewrite Hsum.
Qed.

Lemma conserved_elim (s : Store) (e : @cacheEntry K V) capa buf capc tk :
  cellChans s !! available e = Some (mkChan capa buf) →
  intChans s !! capacity e = Some (mkChan capc tk) →
  conserved s e →
  Z.of_nat (length buf) + Z.of_nat (in_use s e) + Z.of_nat (length tk)
  = maxCapacity e.
Proof.
  intros Ha Hc Hcons. unfold conserved, census in Hcons. rewrite Ha, Hc in Hcons.
  unfold chan_len in Hcons. simpl in Hcons. now injection Hcons.
Qed.

(** An operation that touches one entry of the map, its channels and the
    cells bound to its queue, and leaves that entry in order, leaves the
    heaps in order. *)
Lemma Tidy_step k ce e (s s' : Store) :
  Tidy s → entries (pool s) !! k = Some ce → entryHeap s !! ce = Some e →
  entries (pool s') = entries (pool s) → entryHeap s' = entryHeap s →
  (∀ ch, ch ≠ available e → cellChans s' !! ch = cellChans s !! ch) →
  (∀ ch, ch ≠ capacity e → intChans s' !! ch = intChans s !! ch) →
  (∀ cv c, returnChan c ≠ available e →
           cellHeap s !! cv = Some c ↔ cellHeap s' !! cv = Some c) →
  (length (cellChans s) ≤ length (cellChans s'))%nat →
  sound s' e →
  Tidy s'.
Proof.
  intros (Hent & Hdis & Hfresh) Hk He Hmap Hheap Hcc Hic Hcells Hlen Hs.
  split; [ | split ].
  - intros k2 ce2 Hk2. rewrite Hmap in Hk2. rewrite Hheap.
    destruct (decide (k2 = k)) as [->|Hne].
    + assert (ce2 = ce) as -> by congruence.
      destruct (Hent k ce Hk) as (e0 & He0 & Hkey & Hlk & _).
      assert (e0 = e) as -> by congruence.
      exists e. now repeat split.
    + destruct (Hent k2 ce2 Hk2) as (e2 & He2 & Hkey & Hlk & Hs2).
      destruct (Hdis k2 k ce2 ce e2 e Hne Hk2 Hk He2 He) as [Hda Hdc].
      exists e2. repeat split; try assumption.
      eapply sound_frame; [ | | | exact Hs2 ].
      * now apply Hcc.
      * now apply Hic.
      * intros cv c Hb. apply Hcells. congruence.
  - intros k1 k2 ce1 ce2 e1 e2 Hne. rewrite Hmap, Hheap. now apply Hdis.
  - intros cv c Hcv.
    destruct (Nat.eq_dec (returnChan c) (available e)) as [Hb|Hb].
    + rewrite Hb. destruct Hs as (buf & tk & Ha & _).
      eapply lookup_lt_Some, Ha.
    + apply (Hcells cv c Hb) in Hcv. apply Hfresh in Hcv. lia.
Qed.

(** The heaps are in order whatever the lock of the pool, the time of the
    last check, the clock, the counters and the trace are. *)
Lemma Tidy_ext (s s' : Store) :
  entries (pool s') = entries (pool s) → entryHeap s' = entryHeap s →
  cellHeap s' = cellHeap s → cellChans s' = cellChans s →
  intChans s' = intChans s → Tidy s → Tidy s'.
Proof.
  intros Hmap Hheap Hcells Hcc Hic (Hent & Hdis & Hfresh).
  split; [ | split ].
  - intros k ce Hk. rewrite Hmap in Hk. rewrite Hheap.
    destruct (Hent k ce Hk) as (e & He & Hkey & Hlk & Hs).
    exists e. repeat split; try assumption.
    eapply sound_frame; [ | | | exact Hs ].
    + now rewrite Hcc.
    + now rewrite Hic.
    + intros cv c _. now rewrite Hcells.
  - intros k1 k2 ce1 ce2 e1 e2 Hne. rewrite Hmap, Hheap. now apply Hdis.
  - intros cv c. rewrite Hcells, Hcc. apply Hfresh.
Qed.

(** ** What one step does to its entry *)

(** An idle cell leaves the queue and is held. *)
Lemma sound_take_idle (s s' : Store) (e : @cacheEntry K V) cap cv rest c t :
  sound s e →
  cellChans s !! available e = Some (mkChan cap (cv :: rest)) →
  cellHeap s !! cv = Some c →
  cellHeap s' = <[cv := mkValue true (returnChan c) (value c) t]> (cellHeap s) →
  cellChans s' = <[available e := mkChan cap rest]> (cellChans s) →
  intChans s' = intChans s →
  sound s' e ∧ in_use s' e = S (in_use s e).
Proof.
  intros (buf & tk & Ha & Hc & Hnd & Hq & Hcons) Ha' Hcv Hcells Hcc Hic.
  rewrite Ha in Ha'. injection Ha' as <- ->.
  apply NoDup_cons in Hnd as [Hnotin Hnd].
  apply Forall_cons in Hq as [(c0 & Hc0 & Hlk & Hb) Hq].
  assert (c0 = c) as -> by congruence.
  assert (Hin : in_use s' e = S (in_use s e)).
  { apply (in_use_more s s' e e cv).
    - intros p Hp. unfold held_at. rewrite Hcells. now rewrite hit_insert_ne.
    - unfold held_at, hit, held_for. now rewrite Hcv, Hlk.
    - unfold held_at. rewrite Hcells. erewrite hit_insert_eq by exact Hcv.
      unfold held_for. simpl. now rewrite Hb, Nat.eqb_refl. }
  split; [ | exact Hin ].
  assert (Ha1 : cellChans s' !! available e = Some (mkChan (maxCapacity e) rest)).
  { rewrite Hcc. apply list_lookup_insert_eq. eapply lookup_lt_Some, Ha. }
  assert (Hc1 : intChans s' !! capacity e = Some (mkChan (maxCapacity e) tk))
    by now rewrite Hic.
  exists rest, tk. split; [ exact Ha1 | ]. split; [ exact Hc1 | ].
  split; [ exact Hnd | ]. split.
  - rewrite Forall_forall in Hq |- *. intros p Hp.
    destruct (Hq p Hp) as (cp & Hcp & Hlkp & Hbp).
    exists cp. split; [ | now split ].
    rewrite Hcells. rewrite list_lookup_insert_ne; [ exact Hcp | ].
    intros ->. contradiction.
  - eapply conserved_intro; [ exact Ha1 | exact Hc1 | ].
    pose proof (conserved_elim _ _ _ _ _ _ Ha Hc Hcons) as Hsum.
    simpl in Hsum. lia.
Qed.

(** A ticket is spent on a new cell, which is held. *)
Lemma sound_build (s s' : Store) (e : @cacheEntry K V) cap x rest v t :
  sound s e →
  intChans s !! capacity e = Some (mkChan cap (x :: rest)) →
  cellHeap s' = cellHeap s ++ [mkValue true (available e) v t] →
  cellChans s' = cellChans s →
  intChans s' = <[capacity e := mkChan cap rest]> (intChans s) →
  sound s' e ∧ in_use s' e = S (in_use s e).
Proof.
  intros (buf & tk & Ha & Hc & Hnd & Hq & Hcons) Hc' Hcells Hcc Hic.
  rewrite Hc in Hc'. injection Hc' as <- ->.
  assert (Hin : in_use s' e = S (in_use s e)).
  { apply (in_use_more s s' e e (length (cellHeap s))).
    - intros p Hp. unfold held_at. rewrite Hcells. now rewrite hit_snoc_ne.
    - unfold held_at. apply hit_fresh.
    - unfold held_at. rewrite Hcells, hit_snoc_eq.
      unfold held_for. simpl. now rewrite Nat.eqb_refl. }
  split; [ | exact Hin ].
  assert (Ha1 : cellChans s' !! available e = Some (mkChan (maxCapacity e) buf))
    by now rewrite Hcc.
  assert (Hc1 : intChans s' !! capacity e = Some (mkChan (maxCapacity e) rest)).
  { rewrite Hic. apply list_lookup_insert_eq. eapply lookup_lt_Some, Hc. }
  exists buf, rest. split; [ exact Ha1 | ]. split; [ exact Hc1 | ].
  split; [ exact Hnd | ]. split.
  - eapply Forall_impl; [ exact Hq | ].
    intros p (cp & Hcp & Hlkp & Hbp). exists cp. split; [ | now split ].
    rewrite Hcells. rewrite lookup_app_l; [ exact Hcp | ].
    eapply lookup_lt_Some, Hcp.
  - eapply conserved_intro; [ exact Ha1 | exact Hc1 | ].
    pose proof (conserved_elim _ _ _ _ _ _ Ha Hc Hcons) as Hsum.
    simpl in Hsum. lia.
Qed.

(** The tickets are replaced by as many tickets. *)
Lemma sound_retick (s s' : Store) (e : @cacheEntry K V) cap tk tk' :
  sound s e →
  intChans s !! capacity e = Some (mkChan cap tk) →
  length tk' = length tk →
  cellHeap s' = cellHeap s → cellChans s' = cellChans s →
  intChans s' = <[capacity e := mkChan cap tk']> (intChans s) →
  sound s' e ∧ in_use s' e = in_use s e.
Proof.
  intros (buf & tk0 & Ha & Hc & Hnd & Hq & Hcons) Hc' Hlen Hcells Hcc Hic.
  rewrite Hc in Hc'. injection Hc' as <- ->.
  assert (Hin : in_use s' e = in_use s e).
  { apply in_use_ext. intros p. unfold held_at. now rewrite Hcells. }
  split; [ | exact Hin ].
  assert (Ha1 : cellChans s' !! available e = Some (mkChan (maxCapacity e) buf))
    by now rewrite Hcc.
  assert (Hc1 : intChans s' !! capacity e = Some (mkChan (maxCapacity e) tk')).
  { rewrite Hic. apply list_lookup_insert_eq. eapply lookup_lt_Some, Hc. }
  exists buf, tk'. split; [ exact Ha1 | ]. split; [ exact Hc1 | ].
  split; [ exact Hnd | ]. split.
  - eapply Forall_impl; [ exact Hq | ].
    intros p (cp & Hcp & Hlkp & Hbp). exists cp. split; [ | now split ].
    now rewrite Hcells.
  - eapply conserved_intro; [ exact Ha1 | exact Hc1 | ].
    pose proof (conserved_elim _ _ _ _ _ _ Ha Hc Hcons) as Hsum.
    simpl in Hsum. lia.
Qed.

(** A held cell there is always room for in the queue. *)
Lemma sound_room (s : Store) (e : @cacheEntry K V) cv c ca :
  sound s e → cellHeap s !! cv = Some c → cv_lock c = true →
  returnChan c = available e →
  cellChans s !! available e = Some ca →
  chan_len ca < ch_cap ca ∧ cv ∉ ch_buf ca.
Proof.
  intros (buf & tk & Ha & Hc & Hnd & Hq & Hcons) Hcv Hlk Hb Ha'.
  rewrite Ha in Ha'. injection Ha' as <-.
  pose proof (conserved_elim _ _ _ _ _ _ Ha Hc Hcons) as Hsum.
  assert (Hheld : (1 ≤ in_use s e)%nat).
  { unfold in_use. eapply filter_hit; [ exact Hcv | ].
    unfold held_for. now rewrite Hlk, Hb, Nat.eqb_refl. }
  split.
  - unfold chan_len. simpl. lia.
  - simpl. intros Hin. rewrite Forall_forall in Hq.
    destruct (Hq cv Hin) as (c' & Hc' & Hlk' & _). congruence.
Qed.

(** A held cell goes back to the queue. *)
Lemma sound_give_back (s s' : Store) (e : @cacheEntry K V) cv c ca :
  sound s e → cellHeap s !! cv = Some c → cv_lock c = true →
  returnChan c = available e →
  cellChans s !! available e = Some ca →
  cellHeap s'
  = <[cv := mkValue false (returnChan c) (value c) (lastUsed c)]> (cellHeap s) →
  cellChans s' = <[available e := push cv ca]> (cellChans s) →
  intChans s' = intChans s →
  sound s' e ∧ in_use s e = S (in_use s' e).
Proof.
  intros Hs Hcv Hlk Hb Ha' Hcells Hcc Hic.
  destruct (sound_room s e cv c ca Hs Hcv Hlk Hb Ha') as [Hroom Hnotin].
  destruct Hs as (buf & tk & Ha & Hc & Hnd & Hq & Hcons).
  rewrite Ha in Ha'. injection Ha' as <-. simpl in Hnotin.
  assert (Hin : in_use s e = S (in_use s' e)).
  { apply (in_use_more s' s e e cv).
    - intros p Hp. unfold held_at. rewrite Hcells. now rewrite hit_insert_ne.
    - unfold held_at. rewrite Hcells. erewrite hit_insert_eq by exact Hcv.
      reflexivity.
    - unfold held_at, hit, held_for. now rewrite Hcv, Hlk, Hb, Nat.eqb_refl. }
  split; [ | exact Hin ].
  assert (Ha1 : cellChans s' !! available e
                = Some (mkChan (maxCapacity e) (buf ++ [cv]))).
  { rewrite Hcc. apply list_lookup_insert_eq. eapply lookup_lt_Some, Ha. }
  assert (Hc1 : intChans s' !! capacity e = Some (mkChan (maxCapacity e) tk))
    by now rewrite Hic.
  exists (buf ++ [cv]), tk. split; [ exact Ha1 | ]. split; [ exact Hc1 | ].
  split; [ | split ].
  - apply NoDup_app. split; [ exact Hnd | ]. split; [ | apply NoDup_singleton ].
    intros p Hp Hp'. apply list_elem_of_singleton in Hp'. now subst.
  - apply Forall_app. split.
    + rewrite Forall_forall in Hq |- *. intros p Hp.
      destruct (Hq p Hp) as (cp & Hcp & Hlkp & Hbp).
      exists cp. split; [ | now split ].
      rewrite Hcells. rewrite list_lookup_insert_ne; [ exact Hcp | ].
      intros ->. contradiction.
    + apply Forall_singleton. eexists. split; [ | split ].
      * rewrite Hcells. apply list_lookup_insert_eq. eapply lookup_lt_Some, Hcv.
      * reflexivity.
      * exact Hb.
  - eapply conserved_intro; [ exact Ha1 | exact Hc1 | ].
    pose proof (conserved_elim _ _ _ _ _ _ Ha Hc Hcons) as Hsum.
    rewrite length_app. simpl. simpl in Hsum. lia.
Qed.

(** Some idle cells leave the queue, and as many tickets come in. *)
Lemma sound_sweep (s s' : Store) (e : @cacheEntry K V) capa buf capc tk
    (gone : nat → bool) tk' :
  sound s e →
  cellChans s !! available e = Some (mkChan capa buf) →
  intChans s !! capacity e = Some (mkChan capc tk) →
  length tk' = (length tk + length (List.filter gone buf))%nat →
  cellHeap s' = cellHeap s →
  cellChans s'
  = <[available e := mkChan capa (List.filter (λ cv, negb (gone cv)) buf)]>
      (cellChans s) →
  intChans s' = <[capacity e := mkChan capc tk']> (intChans s) →
  sound s' e ∧ in_use s' e = in_use s e.
Proof.
  intros (buf0 & tk0 & Ha & Hc & Hnd & Hq & Hcons) Ha' Hc' Hlen Hcells Hcc Hic.
  rewrite Ha in Ha'. injection Ha' as <- ->.
  rewrite Hc in Hc'. injection Hc' as <- ->.
  assert (Hin : in_use s' e = in_use s e).
  { apply in_use_ext. intros p. unfold held_at. now rewrite Hcells. }
  split; [ | exact Hin ].
  set (kept := List.filter (λ cv, negb (gone cv)) buf) in *.
  assert (Ha1 : cellChans s' !! available e = Some (mkChan (maxCapacity e) kept)).
  { rewrite Hcc. apply list_lookup_insert_eq. eapply lookup_lt_Some, Ha. }
  assert (Hc1 : intChans s' !! capacity e = Some (mkChan (maxCapacity e) tk')).
  { rewrite Hic. apply list_lookup_insert_eq. eapply lookup_lt_Some, Hc. }
  exists kept, tk'. split; [ exact Ha1 | ]. split; [ exact Hc1 | ].
  split; [ | split ].
  - apply NoDup_ListNoDup, List.NoDup_filter, NoDup_ListNoDup, Hnd.
  - rewrite Forall_forall in Hq |- *. intros p Hp.
    apply list_elem_of_In, List.filter_In in Hp as [Hp _].
    apply list_elem_of_In in Hp.
    destruct (Hq p Hp) as (cp & Hcp & Hlkp & Hbp).
    exists cp. split; [ | now split ]. now rewrite Hcells.
  - eapply conserved_intro; [ exact Ha1 | exact Hc1 | ].
    pose proof (conserved_elim _ _ _ _ _ _ Ha Hc Hcons) as Hsum.
    pose proof (List.filter_length gone buf) as Hfl. fold kept in Hfl.
    simpl in Hsum. lia.
Qed.

Lemma cells_frame_insert (l : list (@cacheValue V)) cv c c1 a :
  l !! cv = Some c → returnChan c = a → returnChan c1 = a →
  ∀ p c2, returnChan c2 ≠ a →
          l !! p = Some c2 ↔ <[cv := c1]> l !! p = Some c2.
Proof.
  intros Hcv Hb Hb1 p c2 Hne. destruct (Nat.eq_dec p cv) as [->|Hp].
  - split; intros H.
    + congruence.
    + rewrite list_lookup_insert_eq in H by (eapply lookup_lt_Some, Hcv).
      congruence.
  - now rewrite list_lookup_insert_ne.
Qed.

Lemma cells_frame_snoc (l : list (@cacheValue V)) c1 a :
  returnChan c1 = a →
  ∀ p c2, returnChan c2 ≠ a → l !! p = Some c2 ↔ (l ++ [c1]) !! p = Some c2.
Proof.
  intros Hb1 p c2 Hne. split; intros H.
  - rewrite lookup_app_l; [ exact H | ]. eapply lookup_lt_Some, H.
  - destruct (Nat.lt_ge_cases p (length l)).
    + now rewrite lookup_app_l in H.
    + rewrite lookup_app_r in H by lia.
      destruct (p - length l)%nat; simpl in H; [ congruence | discriminate ].
Qed.

Lemma ready_nil ctx (e : @cacheEntry K V) capa buf capc tk (s : Store) :
  cellChans s !! available e = Some (mkChan capa buf) →
  intChans s !! capacity e = Some (mkChan capc tk) →
  ready ctx e s = [] → Err ctx = None ∧ buf = [] ∧ tk = [].
Proof.
  intros Ha Hc. unfold ready. rewrite Ha, Hc.
  destruct (Err ctx), buf, tk; simpl; intros H; try discriminate H.
  now repeat split.
Qed.

(** ** [getValue] on an entry in order *)

Lemma getValue_Tidy k ce e ctx pick (s : Store) :
  Tidy s → entries (pool s) !! k = Some ce → entryHeap s !! ce = Some e →
  match getValue ce ctx pick s with
  | Done r s' =>
      Tidy s' ∧ pool s' = pool s ∧ entryHeap s' = entryHeap s ∧
      clock s' = clock s ∧ sweeps s' = sweeps s ∧
      match r.2 with
      | None =>
          ∃ cv c, r.1.2 = returnToCacheOf cv ∧ cellHeap s' !! cv = Some c ∧
                  held_for e c = true ∧ value c = r.1.1 ∧
                  lastUsed c = clock s ∧
                  in_use s' e = S (in_use s e) ∧
                  (∀ c0, cellHeap s !! cv = Some c0 → cv_lock c0 = false)
      | Some err =>
          r.1 = (inhabitant, NilReturnCapacityToCache) ∧
          cellHeap s' = cellHeap s ∧ in_use s' e = in_use s e
      end
  | Blocked _ => Err ctx = None ∧ Z.of_nat (in_use s e) = maxCapacity e
  | Panic _ | Diverged _ => False
  end.
Proof.
  intros HT Hk He.
  destruct (HT) as (Hent & _ & _).
  destruct (Hent k ce Hk) as (e0 & He0 & Hkey & Hlk & Hs).
  assert (e0 = e) as -> by congruence. clear He0.
  assert (Hw : writer (ce_lock e) = false) by now rewrite Hlk.
  destruct (Hs) as (buf & tk & Ha & Hc & Hnd & Hq & Hcons).
  pose proof (conserved_elim _ _ _ _ _ _ Ha Hc Hcons) as Hsum.
  destruct (ready ctx e s) as [|a rest] eqn:Hr.
  - (* nothing can proceed *)
    destruct (ready_nil _ _ _ _ _ _ _ Ha Hc Hr) as (Hctx & -> & ->).
    pose proof (getValue_exhausted ce e ctx pick _ _ s He Hw Ha Hc) as Hx.
    rewrite Hctx in Hx. destruct Hx as [s' ->].
    split; [ exact Hctx | ]. simpl in Hsum. lia.
  - pose proof (select_of_ready ctx e pick a rest s Hr) as Hsel.
    assert (Hin : nth (pick `mod` S (length rest))%nat (a :: rest) a ∈ ready ctx e s).
    { rewrite Hr. apply list_elem_of_In, nth_In.
      apply Nat.mod_upper_bound. simpl. lia. }
    destruct (nth (pick `mod` S (length rest))%nat (a :: rest) a).
    + (* the context is done *)
      destruct (ready_AltDone _ _ _ Hin) as [err Herr].
      rewrite (getValue_AltDone ce e ctx pick s He Hw Hsel).
      split; [ exact HT | ]. do 4 (split; [ reflexivity | ]).
      simpl. rewrite Herr. now repeat split.
    + (* an idle cell *)
      destruct (ready_AltAvailable _ _ _ Hin) as (cap & cv & rest' & Ha').
      assert (Hbuf : buf = cv :: rest') by congruence. subst buf.
      pose proof Hq as Hq'. apply Forall_cons in Hq' as [(c & Hcv & Hlkc & Hb) _].
      rewrite (getValue_AltAvailable ce e ctx pick cap cv rest' c s
                 He Hw Hsel Ha' Hcv Hlkc).
      match goal with |- Tidy ?st ∧ _ => set (s' := st) end.
      destruct (sound_take_idle s s' e cap cv rest' c (clock s) Hs Ha' Hcv
                  eq_refl eq_refl eq_refl) as [Hs' Hin'].
      split; [ | do 4 (split; [ reflexivity | ]) ].
      * eapply (Tidy_step k ce e s s'); try eassumption; try reflexivity.
        -- intros ch Hch. simpl. now rewrite list_lookup_insert_ne.
        -- simpl. eapply cells_frame_insert; [ exact Hcv | exact Hb | exact Hb ].
        -- simpl. now rewrite length_insert.
      * simpl. exists cv, (mkValue true (returnChan c) (value c) (clock s)).
        split; [ reflexivity | ]. split.
        { apply list_lookup_insert_eq. eapply lookup_lt_Some, Hcv. }
        split; [ unfold held_for; simpl; now rewrite Hb, Nat.eqb_refl | ].
        do 2 (split; [ reflexivity | ]). split; [ exact Hin' | ].
        intros c0 Hc0. congruence.
    + (* a ticket *)
      destruct (ready_AltCapacity _ _ _ Hin) as (cap & x & rest' & Hc').
      assert (Htk : tk = x :: rest') by congruence. subst tk.
      assert (cap = maxCapacity e) as -> by congruence.
      destruct (createValue e (calls s)) as [v|err] eqn:Hf.
      * rewrite (getValue_AltCapacity_ok ce e ctx pick _ x rest' v s
                   He Hw Hsel Hc' Hf).
        match goal with |- Tidy ?st ∧ _ => set (s' := st) end.
        destruct (sound_build s s' e _ x rest' v (clock s) Hs Hc'
                    eq_refl eq_refl eq_refl) as [Hs' Hin'].
        split; [ | do 4 (split; [ reflexivity | ]) ].
        -- eapply (Tidy_step k ce e s s'); try eassumption; try reflexivity.
           ++ intros ch Hch. simpl. now rewrite list_lookup_insert_ne.
           ++ simpl. now apply cells_frame_snoc.
        -- simpl. exists (length (cellHeap s)),
             (mkValue true (available e) v (clock s)).
           split; [ reflexivity | ]. split; [ apply lookup_snoc | ].
           split; [ unfold held_for; simpl; now rewrite Nat.eqb_refl | ].
           do 2 (split; [ reflexivity | ]). split; [ exact Hin' | ].
           intros c0 Hc0. rewrite lookup_ge_None_2 in Hc0 by lia. discriminate.
      * rewrite (getValue_AltCapacity_fail ce e ctx pick _ x rest' err s
                   He Hw Hsel Hc' ltac:(simpl in *; lia) Hf).
        match goal with |- Tidy ?st ∧ _ => set (s' := st) end.
        destruct (sound_retick s s' e _ (x :: rest') (rest' ++ [1]) Hs Hc'
                    ltac:(rewrite length_app; simpl; lia)
                    eq_refl eq_refl eq_refl) as [Hs' Hin'].
        split; [ | do 4 (split; [ reflexivity | ]) ].
        -- eapply (Tidy_step k ce e s s'); try eassumption; try reflexivity.
           ++ intros ch Hch. simpl. now rewrite list_lookup_insert_ne.
        -- simpl. now repeat split.
Qed.

(** ** The methods of the pool on a pool in order *)

Lemma Tidy_inside l (s : Store) : Tidy s → Tidy (inside l s).
Proof. apply Tidy_ext; reflexivity. Qed.

Lemma Tidy_outside (s : Store) : Tidy s → Tidy (outside s).
Proof. apply Tidy_ext; reflexivity. Qed.

(** X7. [Get] on a pool in order never panics. When it returns, the pool is
    in order again; for a key without entry it reports found = false; for a
    key with an entry it reports found = true and either hands out a cell
    that is then held for that entry and was held by nobody before the
    call, stamped with the clock, with its release function, one more cell
    being in use, or returns an error with
    the zero value and the no-op release function and no cell touched. When
    it parks, the context is not done and the entry has as many cells in use
    as its bound. *)
Theorem Get_keeps_Sound ctx pick k (s : Store) :
  Sound s →
  match Get ctx pick k s with
  | Done (v, release, found, err) s' =>
      Sound s' ∧
      match entries (pool s) !! k with
      | None =>
          found = false ∧ err = None ∧ release = NilReturnCapacityToCache ∧
          cellHeap s' = cellHeap s
      | Some ce =>
          found = true ∧
          ∃ e, entryHeap s !! ce = Some e ∧
            match err with
            | None =>
                ∃ cv c, release = returnToCacheOf cv ∧
                        cellHeap s' !! cv = Some c ∧ held_for e c = true ∧
                        value c = v ∧ lastUsed c = clock s ∧
                        in_use s' e = S (in_use s e) ∧
                        (∀ c0, cellHeap s !! cv = Some c0 → cv_lock c0 = false)
            | Some _ =>
                v = inhabitant ∧ release = NilReturnCapacityToCache ∧
                cellHeap s' = cellHeap s
            end
      end
  | Blocked _ =>
      ∃ ce e, entries (pool s) !! k = Some ce ∧ entryHeap s !! ce = Some e ∧
              Err ctx = None ∧ Z.of_nat (in_use s e) = maxCapacity e
  | Panic _ | Diverged _ => False
  end.
Proof.
  intros [Hl HT]. destruct (entries (pool s) !! k) as [ce|] eqn:Hk.
  - destruct (HT) as (Hent & _ & _).
    destruct (Hent k ce Hk) as (e & He & _).
    set (s1 := inside {| writer := false; readers := 1 |} s).
    pose proof (getValue_Tidy k ce e ctx pick s1 (Tidy_inside _ s HT) Hk He) as Hg.
    destruct (getValue ce ctx pick s1) as [r s2|s2|s2|s2] eqn:Hget;
      [ | | contradiction | contradiction ].
    + destruct Hg as (HT2 & Hp2 & Hh2 & _ & _ & Hr).
      rewrite (Get_run ctx pick k ce r s s2 Hl Hk Hget ltac:(now rewrite Hp2)).
      destruct r as [[v rf] [err|]]; unfold found; simpl in *.
      * destruct Hr as (Hr & Hcells & _). injection Hr as -> ->.
        split; [ split; [ reflexivity | now apply Tidy_outside ] | ].
        split; [ reflexivity | ]. exists e. now repeat split.
      * destruct Hr as (cv & c & -> & Hcv & Hheld & Hv & Hlu & Hin & Hfree).
        split; [ split; [ reflexivity | now apply Tidy_outside ] | ].
        split; [ reflexivity | ]. exists e. split; [ exact He | ].
        exists cv, c. now repeat split.
    + rewrite (Get_parks ctx pick k ce s s2 Hl Hk Hget).
      destruct Hg as [Hctx Hfull]. exists ce, e. now repeat split.
  - rewrite Get_miss by (try exact Hk; now rewrite Hl).
    split; [ | now repeat split ].
    split; [ exact Hl | now apply Tidy_inside ].
Qed.

(** X15. In a pool in order an entry never has more cells in use than its
    bound; and when it has as many, [Get] parks under a context that is not
    done and returns the error of a context that is done. *)
Theorem bound_is_enforced ctx pick k ce e (s : Store) :
  Sound s → entries (pool s) !! k = Some ce → entryHeap s !! ce = Some e →
  Z.of_nat (in_use s e) ≤ maxCapacity e ∧
  (Z.of_nat (in_use s e) = maxCapacity e →
   match Err ctx with
   | None => ∃ s', Get ctx pick k s = Blocked s'
   | Some err =>
       Get ctx pick k s
       = Done (inhabitant, NilReturnCapacityToCache, true, Some err)
           (inside freeRW s)
   end).
Proof.
  intros [Hl HT] Hk He.
  destruct (HT) as (Hent & _ & _).
  destruct (Hent k ce Hk) as (e0 & He0 & _ & Hlk & Hs).
  assert (e0 = e) as -> by congruence. clear He0.
  split; [ now apply sound_bound | ].
  intros Hfull.
  destruct Hs as (buf & tk & Ha & Hc & _ & _ & Hcons).
  pose proof (conserved_elim _ _ _ _ _ _ Ha Hc Hcons) as Hsum.
  assert (buf = []) as -> by (destruct buf; [ reflexivity | simpl in Hsum; lia ]).
  assert (tk = []) as -> by (destruct tk; [ reflexivity | simpl in Hsum; lia ]).
  eapply Get_exhausted; try eassumption. now rewrite Hlk.
Qed.

(** A new entry, with new channels and at most one cell, which is held. *)
Lemma Tidy_new_entry k f n tk' (s s' : Store) :
  Tidy s → entries (pool s) !! k = None →
  entries (pool s') = <[k := length (entryHeap s)]> (entries (pool s)) →
  entryHeap s'
  = entryHeap s ++
      [mkEntry freeRW (length (cellChans s)) (length (intChans s)) n f k] →
  cellChans s' = cellChans s ++ [mkChan n []] →
  intChans s' = intChans s ++ [mkChan n tk'] →
  (cellHeap s' = cellHeap s ∧ Z.of_nat (length tk') = n ∨
   ∃ v t, cellHeap s'
          = cellHeap s ++ [mkValue true (length (cellChans s)) v t] ∧
          Z.of_nat (length tk') + 1 = n) →
  Tidy s'.
Proof.
  intros (Hent & Hdis & Hfresh) Hk Hmap Hheap Hcc Hic Hcells.
  set (e1 := mkEntry freeRW (length (cellChans s)) (length (intChans s)) n f k) in *.
  assert (Hnone : ∀ cv, held_at s e1 cv = false).
  { intros cv. unfold held_at, hit.
    destruct (cellHeap s !! cv) as [c|] eqn:Hcv; [ | reflexivity ].
    apply Hfresh in Hcv. unfold held_for. simpl.
    apply Nat.lt_neq, Nat.eqb_neq in Hcv. rewrite Hcv. apply andb_false_r. }
  assert (Hold : ∀ k2 ce2 e2, entries (pool s) !! k2 = Some ce2 →
            entryHeap s !! ce2 = Some e2 →
            (available e2 < length (cellChans s))%nat ∧
            (capacity e2 < length (intChans s))%nat).
  { intros k2 ce2 e2 Hk2 He2. destruct (Hent k2 ce2 Hk2) as (e0 & He0 & _ & _ & Hs).
    assert (e0 = e2) as -> by congruence.
    destruct Hs as (buf & tk & Ha & Hc & _). split; eapply lookup_lt_Some; eassumption. }
  assert (He1 : entryHeap s' !! length (entryHeap s) = Some e1)
    by (rewrite Hheap; apply lookup_snoc).
  assert (Hup : ∀ ce2 e2, entryHeap s !! ce2 = Some e2 → entryHeap s' !! ce2 = Some e2).
  { intros ce2 e2 He2. rewrite Hheap, lookup_app_l; [ exact He2 | ].
    eapply lookup_lt_Some, He2. }
  split; [ | split ].
  - intros k2 ce2 Hk2. rewrite Hmap in Hk2.
    destruct (decide (k2 = k)) as [->|Hne].
    + rewrite lookup_insert_eq in Hk2. injection Hk2 as <-.
      exists e1. split; [ exact He1 | ]. split; [ reflexivity | ].
      split; [ reflexivity | ].
      assert (Ha1 : cellChans s' !! available e1 = Some (mkChan (maxCapacity e1) []))
        by (rewrite Hcc; apply lookup_snoc).
      assert (Hc1 : intChans s' !! capacity e1 = Some (mkChan (maxCapacity e1) tk'))
        by (rewrite Hic; apply lookup_snoc).
      exists [], tk'. split; [ exact Ha1 | ]. split; [ exact Hc1 | ].
      split; [ apply NoDup_nil_2 | ]. split; [ apply Forall_nil_2 | ].
      eapply conserved_intro; [ exact Ha1 | exact Hc1 | ].
      destruct Hcells as [[Hsame Hlen] | (v & t & Hnew & Hlen)].
      * rewrite (in_use_none s' e1).
        -- simpl. lia.
        -- intros cv. unfold held_at. rewrite Hsame. apply Hnone.
      * rewrite (in_use_more s s' e1 e1 (length (cellHeap s))).
        -- rewrite (in_use_none s e1 Hnone). simpl. lia.
        -- intros p Hp. unfold held_at. rewrite Hnew. now rewrite hit_snoc_ne.
        -- apply Hnone.
        -- unfold held_at. rewrite Hnew, hit_snoc_eq.
           unfold held_for. simpl. now rewrite Nat.eqb_refl.
    + rewrite lookup_insert_ne in Hk2 by congruence.
      destruct (Hent k2 ce2 Hk2) as (e2 & He2 & Hkey & Hlk & Hs2).
      destruct (Hold k2 ce2 e2 Hk2 He2) as [Hlta Hltc].
      exists e2. split; [ now apply Hup | ]. split; [ exact Hkey | ].
      split; [ exact Hlk | ].
      eapply sound_frame; [ | | | exact Hs2 ].
      * rewrite Hcc. now apply lookup_app_l.
      * rewrite Hic. now apply lookup_app_l.
      * intros cv c Hb. destruct Hcells as [[Hsame _] | (v & t & Hnew & _)].
        -- now rewrite Hsame.
        -- rewrite Hnew. apply cells_frame_snoc with (a := length (cellChans s));
             [ reflexivity | lia ].
  - intros k1 k2 ce1 ce2 e2 e3 Hne Hk1 Hk2 He2 He3.
    rewrite Hmap in Hk1, Hk2.
    destruct (decide (k1 = k)) as [->|Hne1], (decide (k2 = k)) as [->|Hne2].
    + contradiction.
    + rewrite lookup_insert_eq in Hk1. injection Hk1 as <-.
      rewrite lookup_insert_ne in Hk2 by congruence.
      destruct (Hent k2 ce2 Hk2) as (e0 & He0 & _).
      pose proof (Hup _ _ He0) as He0'. assert (e0 = e3) as -> by congruence.
      destruct (Hold k2 ce2 e3 Hk2 He0) as [Hlta Hltc].
      assert (e2 = e1) as -> by congruence. simpl. lia.
    + rewrite lookup_insert_eq in Hk2. injection Hk2 as <-.
      rewrite lookup_insert_ne in Hk1 by congruence.
      destruct (Hent k1 ce1 Hk1) as (e0 & He0 & _).
      pose proof (Hup _ _ He0) as He0'. assert (e0 = e2) as -> by congruence.
      destruct (Hold k1 ce1 e2 Hk1 He0) as [Hlta Hltc].
      assert (e3 = e1) as -> by congruence. simpl. lia.
    + rewrite lookup_insert_ne in Hk1, Hk2 by congruence.
      destruct (Hent k1 ce1 Hk1) as (e0 & He0 & _).
      pose proof (Hup _ _ He0) as He0'. assert (e0 = e2) as -> by congruence.
      destruct (Hent k2 ce2 Hk2) as (e4 & He4 & _).
      pose proof (Hup _ _ He4) as He4'. assert (e4 = e3) as -> by congruence.
      eapply (Hdis k1 k2); eassumption.
  - intros cv c Hcv. rewrite Hcc, length_app. simpl.
    destruct Hcells as [[Hsame _] | (v & t & Hnew & _)].
    + rewrite Hsame in Hcv. apply Hfresh in Hcv. lia.
    + rewrite Hnew in Hcv. destruct (Nat.lt_ge_cases cv (length (cellHeap s))).
      * rewrite lookup_app_l in Hcv by assumption. apply Hfresh in Hcv. lia.
      * rewrite lookup_app_r in Hcv by lia.
        destruct (cv - length (cellHeap s))%nat; simpl in Hcv; [ | discriminate ].
        injection Hcv as <-. simpl. lia.
Qed.

(** X8. [AddAndAcquire] on a pool in order, with a bound of at least one
    that [make] accepts when the key is new, never panics. When it returns, the pool is in order
    again, the key has an entry, found tells whether it had one before, and
    the call either hands out a cell held for that entry, which nobody held
    before the call, or returns an error with the zero value and the no-op
    release function and no cell touched.
    When it parks, the key had an entry with as many cells in use as its
    bound, and the context is not done. *)
Theorem AddAndAcquire_keeps_Sound ctx pick k f n (s : Store) :
  Sound s → (entries (pool s) !! k = None → 1 ≤ n ≤ Z.of_N chanLimit) →
  match AddAndAcquire ctx pick k f n s with
  | Done (v, release, found, err) s' =>
      Sound s' ∧
      found = bool_decide (is_Some (entries (pool s) !! k)) ∧
      ∃ ce e, entries (pool s') !! k = Some ce ∧ entryHeap s' !! ce = Some e ∧
        match err with
        | None =>
            ∃ cv c, release = returnToCacheOf cv ∧
                    cellHeap s' !! cv = Some c ∧ held_for e c = true ∧
                    value c = v ∧ lastUsed c = clock s ∧
                    (∀ c0, cellHeap s !! cv = Some c0 → cv_lock c0 = false)
        | Some _ =>
            v = inhabitant ∧ release = NilReturnCapacityToCache ∧
            cellHeap s' = cellHeap s
        end
  | Blocked _ =>
      ∃ ce e, entries (pool s) !! k = Some ce ∧ entryHeap s !! ce = Some e ∧
              Err ctx = None ∧ Z.of_nat (in_use s e) = maxCapacity e
  | Panic _ | Diverged _ => False
  end.
Proof.
  intros [Hl HT] Hn. destruct (entries (pool s) !! k) as [ce|] eqn:Hk.
  - destruct (HT) as (Hent & _ & _).
    destruct (Hent k ce Hk) as (e & He & _).
    set (s1 := inside {| writer := true; readers := 0 |} s).
    pose proof (getValue_Tidy k ce e ctx pick s1 (Tidy_inside _ s HT) Hk He) as Hg.
    destruct (getValue ce ctx pick s1) as [r s2|s2|s2|s2] eqn:Hget;
      [ | | contradiction | contradiction ].
    + destruct Hg as (HT2 & Hp2 & Hh2 & _ & _ & Hr).
      rewrite (AddAndAcquire_run ctx pick k f n ce r s s2 Hl Hk Hget
                 ltac:(now rewrite Hp2)).
      assert (Hk2 : entries (pool (outside s2)) !! k = Some ce).
      { simpl. rewrite Hp2. exact Hk. }
      assert (He2 : entryHeap (outside s2) !! ce = Some e).
      { simpl. rewrite Hh2. exact He. }
      destruct r as [[v rf] [err|]]; unfold found; simpl in *.
      * destruct Hr as (Hr & Hcells & _). injection Hr as -> ->.
        split; [ split; [ reflexivity | now apply Tidy_outside ] | ].
        split; [ reflexivity | ].
        exists ce, e. now repeat split.
      * destruct Hr as (cv & c & -> & Hcv & Hheld & Hv & Hlu & Hin & Hfree).
        split; [ split; [ reflexivity | now apply Tidy_outside ] | ].
        split; [ reflexivity | ].
        exists ce, e. split; [ exact Hk2 | ]. split; [ exact He2 | ].
        exists cv, c. now repeat split.
    + rewrite (AddAndAcquire_parks ctx pick k f n ce s s2 Hl Hk Hget).
      destruct Hg as [Hctx Hfull]. exists ce, e. now repeat split.
  - destruct (Hn eq_refl) as [Hn1 Hlim].
    destruct (f (calls s)) as [v|err] eqn:Hf.
    + rewrite (AddAndAcquire_new_ok ctx pick k f n v s Hl Hk Hn1 Hlim Hf).
      split; [ split; [ reflexivity | ] | ].
      * eapply (Tidy_new_entry k f n _ s); try reflexivity; try assumption.
        right. exists v, (clock s). split; [ reflexivity | ].
        rewrite length_replicate. lia.
      * split; [ reflexivity | ].
        eexists _, _. split; [ simpl; apply lookup_insert_eq | ].
        split; [ simpl; apply lookup_snoc | ].
        eexists _, _. split; [ reflexivity | ]. split; [ simpl; apply lookup_snoc | ].
        split; [ unfold held_for; simpl; now rewrite Nat.eqb_refl | ].
        do 2 (split; [ reflexivity | ]).
        intros c0 Hc0. rewrite lookup_ge_None_2 in Hc0 by lia. discriminate.
    + rewrite (AddAndAcquire_new_fail ctx pick k f n err s Hl Hk Hn1 Hlim Hf).
      split; [ split; [ reflexivity | ] | ].
      * eapply (Tidy_new_entry k f n _ s); try reflexivity; try assumption.
        left. split; [ reflexivity | ].
        rewrite length_replicate. lia.
      * split; [ reflexivity | ].
        eexists _, _. split; [ simpl; apply lookup_insert_eq | ].
        split; [ simpl; apply lookup_snoc | ]. now repeat split.
Qed.

(** The release of a cell that a caller holds for an entry of the map. *)
Lemma returnToCache_Tidy k ce e cv c (s : Store) :
  Tidy s → entries (pool s) !! k = Some ce → entryHeap s !! ce = Some e →
  cellHeap s !! cv = Some c → held_for e c = true →
  ∃ buf,
    cellChans s !! available e = Some (mkChan (maxCapacity e) buf) ∧
    let s' :=
      logs [EvSend (available e) cv; EvUnlock cv]
        (put_cell cv (mkValue false (available e) (value c) (lastUsed c))
           (put_cellChan (available e)
              (mkChan (maxCapacity e) (buf ++ [cv])) s)) in
    invoke (returnToCacheOf cv) s = Done () s' ∧ Tidy s' ∧
    in_use s e = S (in_use s' e).
Proof.
  intros HT Hk He Hcv Hheld.
  unfold held_for in Hheld. apply andb_true_iff in Hheld as [Hlk Hb].
  apply Nat.eqb_eq in Hb.
  destruct (HT) as (Hent & _ & _).
  destruct (Hent k ce Hk) as (e0 & He0 & _ & _ & Hs).
  assert (e0 = e) as -> by congruence. clear He0.
  destruct (Hs) as (buf & tk & Ha & Hc & _).
  destruct (sound_room s e cv c _ Hs Hcv Hlk Hb Ha) as [Hroom _].
  pose proof (returnToCache_run cv c _ s Hcv Hlk ltac:(rewrite Hb; exact Ha) Hroom)
    as Hrun.
  rewrite Hb in Hrun. unfold push in Hrun. simpl ch_cap in Hrun. simpl ch_buf in Hrun.
  exists buf. split; [ exact Ha | ]. cbv zeta.
  match goal with |- _ = Done () ?st ∧ _ => set (s' := st) end.
  destruct (sound_give_back s s' e cv c _ Hs Hcv Hlk Hb Ha
              ltac:(simpl; now rewrite Hb) eq_refl eq_refl) as [Hs' Hin].
  split; [ exact Hrun | ]. split; [ | exact Hin ].
  eapply (Tidy_step k ce e s s'); try eassumption; try reflexivity.
  - intros ch Hch. simpl. now rewrite list_lookup_insert_ne.
  - simpl. eapply cells_frame_insert; [ exact Hcv | exact Hb | reflexivity ].
  - simpl. now rewrite length_insert.
Qed.

(** X9. The release function of a cell that a caller holds for an entry of
    the map never parks: it returns, the cell is idle at the end of the queue
    of the entry, one cell less is in use, the map and the entries are
    untouched and the heaps are in order again. *)
Theorem release_keeps_Tidy k ce e cv c (s : Store) :
  Tidy s → entries (pool s) !! k = Some ce → entryHeap s !! ce = Some e →
  cellHeap s !! cv = Some c → held_for e c = true →
  ∃ s', invoke (returnToCacheOf cv) s = Done () s' ∧
        Tidy s' ∧ pool s' = pool s ∧ entryHeap s' = entryHeap s ∧
        in_use s e = S (in_use s' e) ∧
        queued_for s' e cv ∧
        ∃ buf, cellChans s !! available e = Some (mkChan (maxCapacity e) buf) ∧
               cellChans s' !! available e
               = Some (mkChan (maxCapacity e) (buf ++ [cv])).
Proof.
  intros HT Hk He Hcv Hheld.
  destruct (returnToCache_Tidy k ce e cv c s HT Hk He Hcv Hheld)
    as (buf & Ha & Hrun & HT' & Hin).
  eexists. split; [ exact Hrun | ]. split; [ exact HT' | ].
  split; [ reflexivity | ]. split; [ reflexivity | ]. split; [ exact Hin | ].
  split.
  - exists (mkValue false (available e) (value c) (lastUsed c)).
    split; [ | split; reflexivity ].
    simpl. apply list_lookup_insert_eq. eapply lookup_lt_Some, Hcv.
  - exists buf. split; [ exact Ha | ].
    simpl. apply list_lookup_insert_eq. eapply lookup_lt_Some, Ha.
Qed.

(** ** The sweep *)

Lemma cleanupValues_run ce e cap capi buf tk (s : Store) :
  entryHeap s !! ce = Some e → ce_lock e = freeRW →
  cellChans s !! available e = Some (mkChan cap buf) →
  intChans s !! capacity e = Some (mkChan capi tk) →
  Forall (idle_cell s) buf →
  Z.of_nat (length buf) ≤ cap →
  Z.of_nat (length tk + length (List.filter (expired s) buf)) ≤ capi →
  cleanupValues ce s
  = Done (Z.of_nat (length tk + length (List.filter (expired s) buf))
          =? maxCapacity e)
      (logs (concat (map (sift_events (available e) s) buf)
             ++ map (EvSend (available e))
                  (List.filter (λ cv, negb (expired s cv)) buf))
         (put_intChan (capacity e)
            (mkChan capi
               (replicate (length tk + length (List.filter (expired s) buf)) 1))
            (put_cellChan (available e)
               (mkChan cap (List.filter (λ cv, negb (expired s cv)) buf)) s))).
Proof.
  intros He Hl Hca Hcc Hidle Hwa Hroom.
  set (gone := List.filter (expired s) buf) in *.
  set (kept := List.filter (λ cv, negb (expired s cv)) buf) in *.
  assert (Hkept : (length kept ≤ length buf)%nat) by apply List.filter_length_le.
  unfold cleanupValues.
  step ce_Lock_run.
  set (e1 := set_ce_lock {| writer := true; readers := 0 |} e).
  eapply defer_run.
  - unfold getValidValuesAndCleanupOthers. rewrite ?bind_assoc.
    step load_entry_run. simpl available. step cellBound_run. simpl ch_buf.
    erewrite bind_Done;
      [ | eapply (sift_run ce e1 cap capi buf tk []);
          [ lk | exact Hca | exact Hcc | exact Hidle | ] ].
    2:{ change (expired _) with (expired s). fold gone. lia. }
    cbv beta. simpl app. change (expired _) with (expired s). fold gone kept.
    erewrite bind_Done;
      [ | eapply (requeue_run ce e1 cap kept []); [ lk | lk | simpl; lia ] ].
    cbv beta.
    erewrite bind_Done;
      [ | eapply (getAvailableCapacity_run ce e1 capi
                    (tk ++ replicate (length gone) 1)); [ lk | lk | ] ].
    2:{ rewrite length_app, length_replicate. lia. }
    cbv beta iota. step load_entry_run. rewrite mret_run.
    simpl maxCapacity. rewrite length_app, length_replicate.
    reflexivity.
  - etransitivity; [ eapply ce_Unlock_run; lk | ].
    apply Done_eq; [ reflexivity | ].
    apply store_ext; simpl; try reflexivity.
    + rewrite list_insert_insert_eq. apply list_insert_id.
      rewrite He. f_equal. destruct e; simpl in *. now subst.
    + now rewrite list_insert_insert_eq.
    + now rewrite list_insert_insert_eq.
    + now rewrite <- app_assoc.
Qed.

Lemma filter_all {A} (P : A → bool) (l : list A) :
  length (List.filter P l) = length l ↔ forallb P l = true.
Proof.
  induction l as [|x l IH]; simpl; [ tauto | ].
  pose proof (List.filter_length_le P l) as Hle.
  destruct (P x); simpl.
  - rewrite <- IH. lia.
  - split; [ lia | discriminate ].
Qed.

(** The sweep of one entry of a pool in order: it returns, it tells whether
    the entry is vacant, and it leaves the heaps in order. *)
Lemma cleanupValues_Tidy k ce e (s : Store) :
  Tidy s → entries (pool s) !! k = Some ce → entryHeap s !! ce = Some e →
  ∃ s', cleanupValues ce s = Done (vacant s ce) s' ∧
        Tidy s' ∧ pool s' = pool s ∧ entryHeap s' = entryHeap s ∧
        cellHeap s' = cellHeap s ∧ clock s' = clock s ∧ calls s' = calls s ∧
        sweeps s' = sweeps s ∧
        (∀ ch, ch ≠ available e → cellChans s' !! ch = cellChans s !! ch) ∧
        (∀ cap buf, cellChans s !! available e = Some (mkChan cap buf) →
           cellChans s' !! available e
           = Some (mkChan cap (List.filter (λ cv, negb (expired s cv)) buf))).
Proof.
  intros HT Hk He.
  destruct (HT) as (Hent & _ & _).
  destruct (Hent k ce Hk) as (e0 & He0 & _ & Hlk & Hs).
  assert (e0 = e) as -> by congruence. clear He0.
  destruct (Hs) as (buf & tk & Ha & Hc & Hnd & Hq & Hcons).
  pose proof (conserved_elim _ _ _ _ _ _ Ha Hc Hcons) as Hsum.
  pose proof (List.filter_length_le (expired s) buf) as Hle.
  assert (Hidle : Forall (idle_cell s) buf).
  { eapply Forall_impl; [ exact Hq | ].
    intros cv (c & Hcv & Hlkc & _). exists c. now split. }
  pose proof (cleanupValues_run ce e _ _ buf tk s He Hlk Ha Hc Hidle
                ltac:(lia) ltac:(lia)) as Hrun.
  eexists. split.
  { rewrite Hrun. apply Done_eq; [ | reflexivity ].
    unfold vacant. rewrite He, Ha. simpl ch_buf.
    destruct (forallb (expired s) buf) eqn:Hall.
    - apply filter_all in Hall. rewrite Hall. simpl.
      destruct (Nat.eqb_spec (in_use s e) 0).
      + apply Z.eqb_eq. lia.
      + apply Z.eqb_neq. lia.
    - simpl. apply Z.eqb_neq. intros Heq.
      assert (length (List.filter (expired s) buf) = length buf) as Hlen by lia.
      apply filter_all in Hlen. congruence. }
  match goal with |- Tidy ?st ∧ _ => set (s' := st) end.
  destruct (sound_sweep s s' e _ buf _ tk (expired s) _ Hs Ha Hc
              ltac:(apply length_replicate) eq_refl eq_refl eq_refl) as [Hs' Hin].
  split; [ | do 6 (split; [ reflexivity | ]); split ].
  - eapply (Tidy_step k ce e s s'); try eassumption; try reflexivity.
    + intros ch Hch. simpl. now rewrite list_lookup_insert_ne.
    + intros ch Hch. simpl. now rewrite list_lookup_insert_ne.
    + simpl. now rewrite length_insert.
  - intros ch Hch. simpl. now rewrite list_lookup_insert_ne.
  - intros cap0 buf0 Ha0. rewrite Ha in Ha0. injection Ha0 as <- <-.
    simpl. apply list_lookup_insert_eq. eapply lookup_lt_Some, Ha.
Qed.

(** An entry leaves the map; the heaps stay. *)
Lemma Tidy_delete k (s s' : Store) :
  Tidy s → entries (pool s') = delete k (entries (pool s)) →
  entryHeap s' = entryHeap s → cellHeap s' = cellHeap s →
  cellChans s' = cellChans s → intChans s' = intChans s → Tidy s'.
Proof.
  intros (Hent & Hdis & Hfresh) Hmap Hheap Hcells Hcc Hic.
  split; [ | split ].
  - intros k2 ce2 Hk2. rewrite Hmap in Hk2.
    apply lookup_delete_Some in Hk2 as [Hne Hk2]. rewrite Hheap.
    destruct (Hent k2 ce2 Hk2) as (e & He & Hkey & Hlk & Hs).
    exists e. repeat split; try assumption.
    eapply sound_frame; [ | | | exact Hs ].
    + now rewrite Hcc.
    + now rewrite Hic.
    + intros cv c _. now rewrite Hcells.
  - intros k1 k2 ce1 ce2 e1 e2 Hne Hk1 Hk2. rewrite Hmap in Hk1, Hk2.
    apply lookup_delete_Some in Hk1 as [_ Hk1].
    apply lookup_delete_Some in Hk2 as [_ Hk2].
    rewrite Hheap. intros He1 He2. eapply (Hdis k1 k2); eassumption.
  - intros cv c. rewrite Hcells, Hcc. apply Hfresh.
Qed.

(** Whether an entry is vacant depends on its queue, on the cells and on the
    clock. *)
Lemma vacant_frame ce e (s s' : Store) :
  entryHeap s !! ce = Some e → entryHeap s' = entryHeap s →
  cellHeap s' = cellHeap s → clock s' = clock s →
  cellChans s' !! available e = cellChans s !! available e →
  vacant s' ce = vacant s ce.
Proof.
  intros He Hheap Hcells Hclock Ha. unfold vacant. rewrite Hheap, He, Ha.
  destruct (cellChans s !! available e) as [ca|]; [ | reflexivity ].
  assert (Hexp : ∀ cv, expired s' cv = expired s cv).
  { intros cv. unfold expired. now rewrite Hcells, Hclock. }
  f_equal.
  - induction (ch_buf ca) as [|cv l IH]; simpl; [ reflexivity | ].
    now rewrite Hexp, IH.
  - unfold in_use. now rewrite Hcells.
Qed.

Lemma uninstall_run k (s : Store) :
  uninstall k s
  = Done () (set_pool (λ c, mkPool (c_lock c) (delete k (entries c))
                              (lastChecked c)) s).
Proof. reflexivity. Qed.

Lemma sweepEntries_cons k entry rest :
  sweepEntries ((k, entry) :: rest)
  = (c ← load_pool;
     match entries c !! k with
     | None => sweepEntries rest
     | Some _ =>
         noneLeft ← cleanupValues entry;
         (if noneLeft : bool
          then e ← load_entry entry; uninstall (key e)
          else mret ());;
         sweepEntries rest
     end : M unit).
Proof. reflexivity. Qed.

(** One turn of the loop of [cleanupEntries], on an entry of the map. *)
Lemma sweepEntries_turn k ce (s : Store) :
  Tidy s → entries (pool s) !! k = Some ce →
  ∃ s2,
    (noneLeft ← cleanupValues ce;
     if noneLeft : bool then e ← load_entry ce; uninstall (key e) else mret ()) s
    = Done () s2 ∧
    Tidy s2 ∧
    entries (pool s2)
    = (if vacant s ce then delete k (entries (pool s)) else entries (pool s)) ∧
    c_lock (pool s2) = c_lock (pool s) ∧
    lastChecked (pool s2) = lastChecked (pool s) ∧
    entryHeap s2 = entryHeap s ∧ cellHeap s2 = cellHeap s ∧
    clock s2 = clock s ∧ calls s2 = calls s ∧ sweeps s2 = sweeps s ∧
    (∀ k2 ce2, k2 ≠ k → entries (pool s) !! k2 = Some ce2 →
               vacant s2 ce2 = vacant s ce2) ∧
    (∀ e cap buf, entryHeap s !! ce = Some e →
       cellChans s !! available e = Some (mkChan cap buf) →
       cellChans s2 !! available e
       = Some (mkChan cap (List.filter (λ cv, negb (expired s cv)) buf))) ∧
    (∀ e ch, entryHeap s !! ce = Some e → ch ≠ available e →
       cellChans s2 !! ch = cellChans s !! ch).
Proof.
  intros HT Hk.
  destruct (HT) as (Hent & Hdis & _).
  destruct (Hent k ce Hk) as (e & He & Hkey & _).
  destruct (cleanupValues_Tidy k ce e s HT Hk He)
    as (s1 & Hrun & HT1 & Hp1 & Hh1 & Hc1 & Hclk1 & Hcalls1 & Hsw1 & Hfr1 & Hq1).
  assert (Hvac : ∀ k2 ce2, k2 ≠ k → entries (pool s) !! k2 = Some ce2 →
                  vacant s1 ce2 = vacant s ce2).
  { intros k2 ce2 Hne Hk2.
    destruct (Hent k2 ce2 Hk2) as (e2 & He2 & _).
    destruct (Hdis k2 k ce2 ce e2 e Hne Hk2 Hk He2 He) as [Hda _].
    apply (vacant_frame ce2 e2); try assumption. now apply Hfr1. }
  assert (HQ : ∀ e0 cap buf, entryHeap s !! ce = Some e0 →
            cellChans s !! available e0 = Some (mkChan cap buf) →
            cellChans s1 !! available e0
            = Some (mkChan cap (List.filter (λ cv, negb (expired s cv)) buf))).
  { intros e0 cap buf He0 Ha0. assert (e0 = e) as -> by congruence.
    now apply Hq1. }
  assert (HF : ∀ e0 ch, entryHeap s !! ce = Some e0 → ch ≠ available e0 →
            cellChans s1 !! ch = cellChans s !! ch).
  { intros e0 ch He0 Hch. assert (e0 = e) as -> by congruence. now apply Hfr1. }
  destruct (vacant s ce) eqn:Hv.
  - eexists. split.
    { erewrite bind_Done by exact Hrun. cbv beta iota.
      erewrite bind_Done; [ | apply load_entry_run; rewrite Hh1; exact He ].
      cbv beta. rewrite Hkey. apply uninstall_run. }
    split.
    { eapply (Tidy_delete k s1); [ exact HT1 | | reflexivity .. ]. reflexivity. }
    simpl. rewrite Hp1.
    do 8 (split; [ first [ assumption | reflexivity ] | ]).
    split; [ exact Hvac | split; [ exact HQ | exact HF ] ].
  - exists s1. split.
    { erewrite bind_Done by exact Hrun. reflexivity. }
    split; [ exact HT1 | ].
    rewrite Hp1.
    do 8 (split; [ first [ assumption | reflexivity ] | ]).
    split; [ exact Hvac | split; [ exact HQ | exact HF ] ].
Qed.

Lemma expired_frame (s s' : Store) :
  cellHeap s' = cellHeap s → clock s' = clock s →
  ∀ buf, List.filter (λ cv, negb (expired s' cv)) buf
         = List.filter (λ cv, negb (expired s cv)) buf.
Proof.
  intros Hc Hclk buf. apply List.filter_ext. intros cv.
  unfold expired. now rewrite Hc, Hclk.
Qed.

Lemma sweepEntries_run : ∀ (l : list (K * nat)) (s : Store),
  Tidy s → NoDup l.*1 →
  (∀ k ce, (k, ce) ∈ l → entries (pool s) !! k = Some ce) →
  ∃ s', sweepEntries l s = Done () s' ∧ Tidy s' ∧
    c_lock (pool s') = c_lock (pool s) ∧
    lastChecked (pool s') = lastChecked (pool s) ∧
    entryHeap s' = entryHeap s ∧ cellHeap s' = cellHeap s ∧
    clock s' = clock s ∧ calls s' = calls s ∧ sweeps s' = sweeps s ∧
    (∀ k, entries (pool s') !! k
          = match entries (pool s) !! k with
            | Some ce =>
                if bool_decide (k ∈ l.*1) && vacant s ce then None else Some ce
            | None => None
            end) ∧
    (∀ k ce e cap buf, (k, ce) ∈ l → entryHeap s !! ce = Some e →
       cellChans s !! available e = Some (mkChan cap buf) →
       cellChans s' !! available e
       = Some (mkChan cap (List.filter (λ cv, negb (expired s cv)) buf))) ∧
    (∀ ch, (∀ k ce e, (k, ce) ∈ l → entryHeap s !! ce = Some e →
                      ch ≠ available e) →
           cellChans s' !! ch = cellChans s !! ch).
Proof.
  induction l as [|[k ce] rest IH]; intros s HT Hnd Hin.
  - exists s. split; [ reflexivity | ]. split; [ exact HT | ].
    do 7 (split; [ reflexivity | ]). split; [ | split ].
    + intros k. simpl. now destruct (entries (pool s) !! k).
    + intros k ce e cap buf Hmem. inversion Hmem.
    + reflexivity.
  - simpl in Hnd. apply NoDup_cons in Hnd as [Hnotin Hnd].
    assert (Hk : entries (pool s) !! k = Some ce) by (apply Hin; left).
    destruct (sweepEntries_turn k ce s HT Hk)
      as (s2 & Hrun & HT2 & Hmap2 & Hl2 & Hlc2 & Hh2 & Hc2 & Hclk2 & Hcalls2
          & Hsw2 & Hvac & HQt & HFt).
    assert (Hkne : ∀ k2 ce2, (k2, ce2) ∈ rest → k2 ≠ k).
    { intros k2 ce2 Hmem ->. apply Hnotin. apply list_elem_of_fmap.
      now exists (k, ce2). }
    assert (Hin2 : ∀ k2 ce2, (k2, ce2) ∈ rest → entries (pool s2) !! k2 = Some ce2).
    { intros k2 ce2 Hmem. rewrite Hmap2.
      pose proof (Hkne k2 ce2 Hmem).
      assert (entries (pool s) !! k2 = Some ce2) by (apply Hin; now right).
      destruct (vacant s ce); [ now rewrite lookup_delete_ne | assumption ]. }
    destruct (IH s2 HT2 Hnd Hin2)
      as (s' & Hrest & HT' & Hl' & Hlc' & Hh' & Hc' & Hclk' & Hcalls' & Hsw'
          & Hmap' & HQ' & HF').
    (* the queues of the entries still to come are those of the start *)
    assert (Hapart : ∀ k2 ce2 e e2, (k2, ce2) ∈ rest →
              entryHeap s !! ce = Some e → entryHeap s !! ce2 = Some e2 →
              available e2 ≠ available e).
    { intros k2 ce2 e e2 Hmem He He2.
      destruct (HT) as (_ & Hdis & _).
      eapply (Hdis k2 k ce2 ce e2 e); try eassumption.
      - eapply Hkne, Hmem.
      - apply Hin. now right. }
    exists s'. split.
    { rewrite sweepEntries_cons. step load_pool_run. rewrite Hk.
      rewrite <- bind_assoc. erewrite bind_Done by exact Hrun. exact Hrest. }
    split; [ exact HT' | ].
    do 7 (split; [ congruence | ]). split; [ | split ].
    + intros k'. rewrite Hmap', Hmap2. simpl.
      destruct (decide (k' = k)) as [->|Hne].
      * destruct (vacant s ce) eqn:Hv.
        -- rewrite lookup_delete_eq, Hk.
           rewrite bool_decide_eq_true_2 by left. simpl. now rewrite Hv.
        -- rewrite Hk.
           rewrite (bool_decide_eq_false_2 (k ∈ rest.*1)) by exact Hnotin.
           simpl. now rewrite Hv, andb_false_r.
      * assert (Hlook : (if vacant s ce then delete k (entries (pool s))
                         else entries (pool s)) !! k' = entries (pool s) !! k').
        { destruct (vacant s ce); [ now rewrite lookup_delete_ne | reflexivity ]. }
        rewrite Hlook.
        destruct (entries (pool s) !! k') as [ce'|] eqn:Hk'; [ | reflexivity ].
        rewrite (Hvac k' ce' Hne Hk').
        destruct (decide (k' ∈ rest.*1)) as [Hmem|Hmem].
        -- rewrite !bool_decide_eq_true_2; [ reflexivity | now right | exact Hmem ].
        -- rewrite !bool_decide_eq_false_2; [ reflexivity | | exact Hmem ].
           intros Hc. apply elem_of_cons in Hc as [?|?]; contradiction.
    + intros k' ce' e cap buf Hmem He Ha.
      apply elem_of_cons in Hmem as [Heq|Hmem].
      * injection Heq as -> ->.
        rewrite HF'.
        -- now apply HQt.
        -- intros k2 ce2 e2 Hmem2 He2. rewrite Hh2 in He2.
           intros Heq. eapply (Hapart k2 ce2 e e2); eauto.
      * rewrite <- (expired_frame s s2 Hc2 Hclk2).
        apply (HQ' k' ce' e cap buf Hmem); [ now rewrite Hh2 | ].
        destruct (HT) as (Hent & _ & _).
        destruct (Hent k ce Hk) as (e0 & He0 & _).
        rewrite (HFt e0 (available e) He0); [ exact Ha | ].
        eapply Hapart; eassumption.
    + intros ch Hch.
      rewrite HF'.
      * destruct (HT) as (Hent & _ & _).
        destruct (Hent k ce Hk) as (e0 & He0 & _).
        apply (HFt e0 ch He0). eapply (Hch k ce); [ left | exact He0 ].
      * intros k2 ce2 e2 Hmem2 He2. rewrite Hh2 in He2.
        eapply (Hch k2 ce2); [ now right | exact He2 ].
Qed.

Lemma cleanupEntries_run order (s : Store) :
  c_lock (pool s) = freeRW → Tidy s →
  ∃ s', cleanupEntries order s = Done () s' ∧ Tidy s' ∧
    c_lock (pool s') = freeRW ∧
    (∀ k, entries (pool s') !! k
          = match entries (pool s) !! k with
            | Some ce => if vacant s ce then None else Some ce
            | None => None
            end) ∧
    entryHeap s' = entryHeap s ∧ cellHeap s' = cellHeap s ∧
    clock s' = clock s ∧ calls s' = calls s ∧ sweeps s' = sweeps s ∧
    lastChecked (pool s') = lastChecked (pool s) ∧
    (∀ k ce e cap buf, entries (pool s) !! k = Some ce →
       entryHeap s !! ce = Some e →
       cellChans s !! available e = Some (mkChan cap buf) →
       cellChans s' !! available e
       = Some (mkChan cap (List.filter (λ cv, negb (expired s cv)) buf))).
Proof.
  intros Hl HT.
  set (s1 := set_pool (λ c, set_c_lock {| writer := true; readers := 0 |} c) s).
  pose proof (rangeEntries_Permutation order (entries (pool s))) as Hp.
  destruct (sweepEntries_run (rangeEntries order (entries (pool s))) s1)
    as (s2 & Hrun & HT2 & Hl2 & Hlc2 & Hh2 & Hc2 & Hclk2 & Hcalls2 & Hsw2
        & Hmap2 & HQ2 & _).
  { revert HT. apply Tidy_ext; reflexivity. }
  { rewrite Hp. apply NoDup_fst_map_to_list. }
  { intros k ce Hin. rewrite Hp in Hin. now apply elem_of_map_to_list in Hin. }
  exists (outside s2). split.
  { unfold cleanupEntries. step c_Lock_run. eapply defer_run.
    - step load_pool_run. exact Hrun.
    - etransitivity; [ eapply c_Unlock_run; now rewrite Hl2 | ].
      apply Done_eq; [ reflexivity | ]. unfold outside. store_eq.
      now rewrite Hl2. }
  split; [ now apply Tidy_outside | ]. split; [ reflexivity | ].
  split; [ | do 6 (split; [ assumption | ]) ].
  - intros k. simpl. rewrite Hmap2. simpl.
    destruct (entries (pool s) !! k) as [ce|] eqn:Hk; [ | reflexivity ].
    rewrite bool_decide_eq_true_2.
    + simpl. unfold vacant, expired, in_use. reflexivity.
    + rewrite Hp. apply list_elem_of_fmap. exists (k, ce). split; [ reflexivity | ].
      now apply elem_of_map_to_list.
  - intros k ce e cap buf Hk He Ha.
    apply (HQ2 k ce e cap buf); [ | exact He | exact Ha ].
    rewrite Hp. now apply elem_of_map_to_list.
Qed.

(** X10. [cleanupEntries] on a pool in order returns, whatever the order of
    the iteration over the map.  It removes from the map exactly the entries
    that have no cell in use and whose idle cells have all expired; the idle
    queue of every entry is left with its unexpired cells, in their order;
    no factory is called and the pool is left in order. *)
Theorem cleanupEntries_keeps_Sound order (s : Store) :
  Sound s →
  ∃ s', cleanupEntries order s = Done () s' ∧ Sound s' ∧
    (∀ k, entries (pool s') !! k
          = match entries (pool s) !! k with
            | Some ce => if vacant s ce then None else Some ce
            | None => None
            end) ∧
    (∀ k ce e cap buf, entries (pool s) !! k = Some ce →
       entryHeap s !! ce = Some e →
       cellChans s !! available e = Some (mkChan cap buf) →
       cellChans s' !! available e
       = Some (mkChan cap (List.filter (λ cv, negb (expired s cv)) buf))) ∧
    entryHeap s' = entryHeap s ∧ cellHeap s' = cellHeap s ∧
    calls s' = calls s ∧ lastChecked (pool s') = lastChecked (pool s).
Proof.
  intros [Hl HT].
  destruct (cleanupEntries_run order s Hl HT)
    as (s' & Hrun & HT' & Hl' & Hmap & Hh & Hc & _ & Hcalls & _ & Hlc & HQ).
  exists s'. split; [ exact Hrun | ]. split; [ now split | ].
  split; [ exact Hmap | ]. split; [ exact HQ | ].
  now repeat split.
Qed.

(** ** [UpdateIfExists] on a pool in order *)

Lemma kept_subset (cells : list nat) : ∀ (fs : list (@fate V)) p,
  p ∈ kept cells fs → p ∈ cells.
Proof.
  induction cells as [|cv cells IH]; intros fs p Hp.
  - destruct fs; simpl in Hp; inversion Hp.
  - destruct fs as [|[|err|v] fs]; simpl in Hp.
    + inversion Hp.
    + right. eapply IH, Hp.
    + right. eapply IH, Hp.
    + apply elem_of_cons in Hp as [->|Hp]; [ left | right; eapply IH, Hp ].
Qed.

Lemma kept_NoDup (cells : list nat) : ∀ (fs : list (@fate V)),
  NoDup cells → NoDup (kept cells fs).
Proof.
  induction cells as [|cv cells IH]; intros fs Hnd.
  - destruct fs; simpl; apply NoDup_nil_2.
  - apply NoDup_cons in Hnd as [Hnotin Hnd].
    destruct fs as [|[|err|v] fs]; simpl; try apply NoDup_nil_2; try now apply IH.
    apply NoDup_cons. split; [ | now apply IH ].
    intros Hin. apply Hnotin. eapply kept_subset, Hin.
Qed.

Lemma drained_ext old new (h h1 : list (@cacheValue V)) :
  ∀ cells (fs : list (@fate V)),
    (∀ p, p ∈ cells → h1 !! p = h !! p) →
    drained old new h1 cells fs = drained old new h cells fs.
Proof.
  induction cells as [|cv cells IH]; intros fs Hext; [ reflexivity | ].
  destruct fs as [|x fs]; [ reflexivity | ]. simpl.
  rewrite (Hext cv) by left. f_equal. apply IH.
  intros p Hp. apply Hext. now right.
Qed.

(** What the loop of [UpdateIfExists] leaves alone: the cells that it does
    not rebuild, the queues other than the old and the new one, the ticket
    channels other than that of the entry.  The cells that it rebuilds are
    idle and bound to the new queue.  The trace grows by what [drained]
    says. *)
Lemma drain_frame entry en old new f m capo capc :
  old ≠ new →
  ∀ cells rest j err bufn tk (s : Store) r s',
    entryHeap s !! entry = Some en →
    cellChans s !! old = Some (mkChan capo (cells ++ rest)) →
    cellChans s !! new = Some (mkChan m bufn) →
    Z.of_nat (length bufn) = j →
    intChans s !! capacity en = Some (mkChan capc tk) →
    Forall (idle_cell s) cells →
    Z.of_nat (length tk
              + length (failures (fates f m (length cells) (calls s) j))) ≤ capc →
    NoDup cells →
    drain entry old new f m (length cells) j err s = Done r s' →
    (∀ p, p ∉ kept cells (fates f m (length cells) (calls s) j) →
          cellHeap s' !! p = cellHeap s !! p) ∧
    (∀ p, p ∈ kept cells (fates f m (length cells) (calls s) j) →
          ∃ c', cellHeap s' !! p = Some c' ∧ cv_lock c' = false ∧
                returnChan c' = new) ∧
    (∀ ch, ch ≠ old → ch ≠ new → cellChans s' !! ch = cellChans s !! ch) ∧
    length (cellChans s') = length (cellChans s) ∧
    (∀ ch, ch ≠ capacity en → intChans s' !! ch = intChans s !! ch) ∧
    trace s'
    = trace s ++ drained old new (cellHeap s) cells
                   (fates f m (length cells) (calls s) j) ∧
    clock s' = clock s ∧ sweeps s' = sweeps s.
Proof.
  intros Hne. induction cells as [|cv cells IH];
    intros rest j err bufn tk s r s' He Hold Hnew Hj Htk Hidle Hroom Hnd Hrun.
  - simpl in Hrun. injection Hrun as _ <-. simpl.
    split; [ reflexivity | ].
    split; [ intros p Hp; inversion Hp | ].
    do 3 (split; [ reflexivity | ]).
    split; [ now rewrite app_nil_r | now split ].
  - apply Forall_cons in Hidle as [(c & Hc & Hl) Hidle].
    apply NoDup_cons in Hnd as [Hnotin Hnd].
    simpl length in *. simpl fates in *. simpl app in Hold.
    destruct (Z.leb_spec m j) as [Hfull|Hfree].
    + (* excess *)
      rewrite (drain_excess entry old new f m _ j err capo cv (cells ++ rest) c s)
        in Hrun by assumption.
      match type of Hrun with
      | drain _ _ _ _ _ _ _ _ ?st = _ => set (s1 := st) in *
      end.
      edestruct (IH rest j err bufn tk s1 r s')
        as (H1 & H2 & H3 & H4 & H5 & H6 & H7 & H8);
        [ | | | | | | | | exact Hrun | ].
      * exact He.
      * lk.
      * simpl. rewrite list_lookup_insert_ne by exact Hne. exact Hnew.
      * exact Hj.
      * exact Htk.
      * exact Hidle.
      * exact Hroom.
      * exact Hnd.
      * simpl in *. split; [ exact H1 | ]. split; [ exact H2 | ].
        split; [ | split; [ | split; [ exact H5 | split; [ | now split ] ] ] ].
        -- intros ch Ho Hn. rewrite H3 by assumption.
           now rewrite list_lookup_insert_ne.
        -- rewrite H4. apply length_insert.
        -- rewrite H6, Hc, <- !app_assoc. reflexivity.
    + destruct (f (calls s)) as [v|e] eqn:Hf.
      * (* rebuilt *)
        rewrite (drain_rebuilt entry old new f m _ j err capo cv (cells ++ rest) c
                   (mkChan m bufn) v s)
          in Hrun by (try assumption; unfold chan_len; simpl; lia).
        match type of Hrun with
        | drain _ _ _ _ _ _ _ _ ?st = _ => set (s1 := st) in *
        end.
        edestruct (IH rest (j + 1) err (bufn ++ [cv]) tk s1 r s')
          as (H1 & H2 & H3 & H4 & H5 & H6 & H7 & H8);
          [ | | | | | | | | exact Hrun | ].
        -- exact He.
        -- simpl. rewrite list_lookup_insert_ne by congruence. lk.
        -- lk.
        -- rewrite length_app. simpl. lia.
        -- exact Htk.
        -- eapply Forall_impl; [ exact Hidle | ].
           intros p Hp. eapply (idle_cell_put cv); [ reflexivity | | exact Hp ].
           reflexivity.
        -- exact Hroom.
        -- exact Hnd.
        -- simpl in *.
           assert (Hcv : cv ∉ kept cells (fates f m (length cells) (S (calls s)) (j + 1))).
           { intros Hin. apply Hnotin. eapply kept_subset, Hin. }
           split; [ | split; [ | split; [ | split; [ | split; [ exact H5 | split; [ | now split ] ] ] ] ] ].
           ++ intros p Hp. apply not_elem_of_cons in Hp as [Hpcv Hp].
              rewrite H1 by exact Hp. now rewrite list_lookup_insert_ne.
           ++ intros p Hp. apply elem_of_cons in Hp as [->|Hp].
              ** rewrite H1 by exact Hcv. eexists. split; [ | split ].
                 --- apply list_lookup_insert_eq. eapply lookup_lt_Some, Hc.
                 --- reflexivity.
                 --- reflexivity.
              ** now apply H2.
           ++ intros ch Ho Hn. rewrite H3 by assumption.
              rewrite list_lookup_insert_ne by congruence.
              now rewrite list_lookup_insert_ne.
           ++ rewrite H4. now rewrite !length_insert.
           ++ rewrite H6, Hc, <- !app_assoc. simpl. do 7 f_equal.
              apply drained_ext. intros p Hp.
              apply list_lookup_insert_ne. intros ->. contradiction.
      * (* failed *)
        rewrite (drain_failed entry en old new f m _ j err capo cv (cells ++ rest) c
                   (mkChan capc tk) e s)
          in Hrun by (try assumption; unfold chan_len; simpl in *; lia).
        match type of Hrun with
        | drain _ _ _ _ _ _ _ _ ?st = _ => set (s1 := st) in *
        end.
        edestruct (IH rest j (errors_Join [err; Some e]) bufn (tk ++ [1]) s1 r s')
          as (H1 & H2 & H3 & H4 & H5 & H6 & H7 & H8);
          [ | | | | | | | | exact Hrun | ].
        -- exact He.
        -- lk.
        -- simpl. rewrite list_lookup_insert_ne by exact Hne. exact Hnew.
        -- exact Hj.
        -- lk.
        -- exact Hidle.
        -- simpl in *. rewrite length_app. simpl. lia.
        -- exact Hnd.
        -- simpl in *. split; [ exact H1 | ]. split; [ exact H2 | ].
           split; [ | split; [ | split; [ | split; [ | now split ] ] ] ].
           ++ intros ch Ho Hn. rewrite H3 by assumption.
              now rewrite list_lookup_insert_ne.
           ++ rewrite H4. apply length_insert.
           ++ intros ch Hch. rewrite H5 by exact Hch.
              now rewrite list_lookup_insert_ne.
           ++ rewrite H6, Hc, <- !app_assoc. reflexivity.
Qed.

Lemma fates_no_excess (f : @CreateNewValue V) m n : ∀ call j,
  j + Z.of_nat n ≤ m →
  (rebuilt (fates f m n call j) + length (failures (fates f m n call j)) = n)%nat.
Proof.
  induction n as [|n IH]; intros call j Hle; [ reflexivity | ].
  simpl fates. destruct (Z.leb_spec m j); [ lia | ].
  destruct (f call) as [v|err].
  - specialize (IH (S call) (j + 1) ltac:(lia)).
    unfold rebuilt in *. rewrite failures_cons. simpl. lia.
  - specialize (IH (S call) j ltac:(lia)).
    unfold rebuilt in *. rewrite failures_cons. simpl. lia.
Qed.

Lemma fates_no_failure (f : @CreateNewValue V) m n : ∀ call j,
  failures (fates f m n call j) = [] → j ≤ m →
  Z.of_nat (rebuilt (fates f m n call j)) = Z.min (Z.of_nat n) (m - j).
Proof.
  induction n as [|n IH]; intros call j Hnone Hle.
  - unfold rebuilt. simpl. lia.
  - simpl fates in *. destruct (Z.leb_spec m j).
    + rewrite (fates_full f m n call j) by assumption.
      change (Excess :: replicate n Excess) with (replicate (S n) (@Excess V)).
      rewrite rebuilt_replicate_Excess. lia.
    + destruct (f call) as [v|err].
      * rewrite failures_cons in Hnone.
        specialize (IH (S call) (j + 1) Hnone ltac:(lia)).
        unfold rebuilt in *. simpl. lia.
      * rewrite failures_cons in Hnone. discriminate.
Qed.

(** [UpdateIfExists] up to its loop: the store in which the loop starts, and
    what the call returns when the loop has returned. *)
Lemma UpdateIfExists_via_drain k entry e f m capc tk (s : Store) :
  c_lock (pool s) = freeRW →
  entries (pool s) !! k = Some entry →
  entryHeap s !! entry = Some e → ce_lock e = freeRW →
  intChans s !! capacity e = Some (mkChan capc tk) →
  Z.of_nat (length tk) ≤ capc → Z.of_nat (length tk) ≤ maxCapacity e →
  0 ≤ m → m ≤ Z.of_N chanLimit →
  let inUse := maxCapacity e - Z.of_nat (length tk) in
  let s1 :=
    mkStore
      (mkPool {| writer := false; readers := 1 |} (entries (pool s))
         (lastChecked (pool s)))
      (<[entry := mkEntry freeRW (length (cellChans s)) (length (intChans s))
                    m f (key e)]> (entryHeap s))
      (cellHeap s)
      (cellChans s ++ [mkChan m []])
      (<[capacity e := mkChan capc (replicate (length tk) 1)]> (intChans s)
       ++ [mkChan m (replicate (Z.to_nat (m - inUse)) 1)])
      (clock s) (calls s) (sweeps s) (trace s) in
  ∀ j err s2,
    drain entry (available e) (length (cellChans s)) f m (Z.to_nat inUse) 0 None s1
    = Done (j, err) s2 →
    c_lock (pool s2) = {| writer := false; readers := 1 |} →
    UpdateIfExists k f m s
    = Done (true, match err with
                  | Some err => if j =? 0 then Some err else None
                  | None => None
                  end) (outside s2).
Proof.
  intros Hl Hk He Hel Htk Hwf Hle Hm Hlim inUse s1 j err s2 Hrun Hl2.
  unfold UpdateIfExists.
  rewrite ?bind_assoc. erewrite bind_Done; [ | eapply c_RLock_run; now rewrite Hl ].
  cbv beta. undefer. rewrite ?bind_assoc. step load_pool_run.
  simpl entries. rewrite Hk.
  rewrite ?bind_assoc. erewrite bind_Done;
    [ | eapply (swapEntry_run entry e f m capc tk); try lk; try lia ].
  cbv beta iota. rewrite ?bind_assoc.
  erewrite bind_Done.
  2:{ etransitivity; [ | exact Hrun ]. f_equal. unfold s1. store_eq.
      now rewrite Hl. }
  cbv beta iota.
  destruct err as [err|]; [ destruct (j =? 0) | ];
    rewrite mret_bind;
    (erewrite bind_Done; [ | eapply (c_RUnlock_run 0); now rewrite Hl2 ]);
    rewrite mret_run; unfold outside; done_eq; now rewrite Hl2.
Qed.

(** [UpdateIfExists] on an entry of a pool in order, none of whose cells is
    in use, when the new ticket channel has room for the tickets of the
    failed rebuilds: the call returns, and the pool is in order again as soon
    as the capacity of the entry is conserved. *)
Lemma UpdateIfExists_audit k f m ce e buf (s : Store) :
  Sound s → entries (pool s) !! k = Some ce → entryHeap s !! ce = Some e →
  cellChans s !! available e = Some (mkChan (maxCapacity e) buf) →
  in_use s e = 0%nat → 0 ≤ m → m ≤ Z.of_N chanLimit →
  let fs := fates f m (length buf) (calls s) 0 in
  let en := mkEntry freeRW (length (cellChans s)) (length (intChans s)) m f k in
  Z.of_nat (Z.to_nat (m - Z.of_nat (length buf)) + length (failures fs)) ≤ m →
  ∃ s',
    UpdateIfExists k f m s
    = Done (true, if (rebuilt fs =? 0)%nat then joinErrs None (failures fs)
                  else None) s' ∧
    entries (pool s') = entries (pool s) ∧
    entryHeap s' !! ce = Some en ∧
    cellChans s' !! length (cellChans s) = Some (mkChan m (kept buf fs)) ∧
    intChans s' !! length (intChans s)
    = Some (mkChan m (replicate (Z.to_nat (m - Z.of_nat (length buf))
                                 + length (failures fs)) 1)) ∧
    in_use s' en = 0%nat ∧
    calls s' = (calls s + attempts fs)%nat ∧
    (conserved s' en → Sound s').
Proof.
  intros [Hl HT] Hk He Ha Hin0 Hm Hlim fs en0 Hroom.
  destruct (HT) as (Hent & Hdis & Hfresh).
  destruct (Hent k ce Hk) as (e0 & He0 & Hkey & Hlk & Hs).
  assert (e0 = e) as -> by congruence. clear He0.
  destruct (Hs) as (buf0 & tk & Ha0 & Hc & Hnd & Hq & Hcons).
  assert (buf0 = buf) as -> by congruence. clear Ha0.
  pose proof (conserved_elim _ _ _ _ _ _ Ha Hc Hcons) as Hsum.
  rewrite Hin0 in Hsum. simpl in Hsum.
  assert (Hlta : (available e < length (cellChans s))%nat)
    by (eapply lookup_lt_Some, Ha).
  assert (Hltc : (capacity e < length (intChans s))%nat)
    by (eapply lookup_lt_Some, Hc).
  assert (Hlte : (ce < length (entryHeap s))%nat)
    by (eapply lookup_lt_Some, He).
  set (newA := length (cellChans s)) in *.
  set (newC := length (intChans s)) in *.
  set (en := mkEntry freeRW newA newC m f (key e)).
  assert (Hen : en0 = en) by (unfold en0, en; now rewrite Hkey).
  clearbody en0. subst en0.
  pose proof (UpdateIfExists_via_drain k ce e f m _ tk s Hl Hk He Hlk Hc
                ltac:(lia) ltac:(lia) Hm Hlim) as Hvia.
  cbv zeta in Hvia.
  replace (maxCapacity e - Z.of_nat (length tk)) with (Z.of_nat (length buf))
    in Hvia by lia.
  rewrite Nat2Z.id in Hvia.
  match type of Hvia with
  | ∀ j err s2, drain _ _ _ _ _ _ _ _ ?st = _ → _ => set (s1 := st) in *
  end.
  assert (He1 : entryHeap s1 !! ce = Some en)
    by (simpl; now apply list_lookup_insert_eq).
  assert (Ha1 : cellChans s1 !! available e
                = Some (mkChan (maxCapacity e) (buf ++ []))).
  { simpl. rewrite lookup_app_l by exact Hlta. now rewrite app_nil_r. }
  assert (Hn1 : cellChans s1 !! newA = Some (mkChan m [])) by (simpl; apply lookup_snoc).
  assert (Hc1 : intChans s1 !! capacity en
                = Some (mkChan m (replicate (Z.to_nat (m - Z.of_nat (length buf))) 1))).
  { simpl. unfold newC.
    replace (length (intChans s))
      with (length (<[capacity e := mkChan (maxCapacity e) (replicate (length tk) 1)]>
                      (intChans s))) at 1 by apply length_insert.
    apply lookup_snoc. }
  assert (Hidle : Forall (idle_cell s1) buf).
  { eapply Forall_impl; [ exact Hq | ].
    intros cv (c & Hcv & Hlkc & _). exists c. now split. }
  assert (Hroom1 : Z.of_nat (length (replicate (Z.to_nat (m - Z.of_nat (length buf))) 1)
                    + length (failures (fates f m (length buf) (calls s1) 0))) ≤ m).
  { rewrite length_replicate. exact Hroom. }
  destruct (drain_run ce en (available e) newA f m (maxCapacity e) m
              ltac:(lia) buf [] 0 None []
              (replicate (Z.to_nat (m - Z.of_nat (length buf))) 1) s1
              He1 Ha1 Hn1 eq_refl Hc1 Hidle Hroom1)
    as (s2 & Hrun & H1 & H2 & H3 & H4 & H5 & H6 & H7).
  destruct (drain_frame ce en (available e) newA f m (maxCapacity e) m
              ltac:(lia) buf [] 0 None []
              (replicate (Z.to_nat (m - Z.of_nat (length buf))) 1) s1 _ s2
              He1 Ha1 Hn1 eq_refl Hc1 Hidle Hroom1 Hnd Hrun)
    as (F1 & F2 & F3 & F4 & F5 & _).
  change (calls s1) with (calls s) in *. fold fs in Hrun, H2, H3, H4, F1, F2.
  change (cellHeap s1) with (cellHeap s) in *. simpl app in H2.
  assert (Hl2 : c_lock (pool s2) = {| writer := false; readers := 1 |})
    by now rewrite H6.
  (* the heaps after the loop *)
  assert (Hkeptq : ∀ p, p ∈ kept buf fs → queued_for s2 en p).
  { intros p Hp. destruct (F2 p Hp) as (c' & Hc' & Hlk' & Hb'). now exists c'. }
  assert (Hrest : ∀ p c, p ∉ kept buf fs → cellHeap s2 !! p = Some c →
                         (returnChan c < newA)%nat).
  { intros p c Hp Hpc. rewrite F1 in Hpc by exact Hp. now apply Hfresh in Hpc. }
  assert (Hin2 : in_use s2 en = 0%nat).
  { apply in_use_none. intros p. unfold held_at, hit.
    destruct (cellHeap s2 !! p) as [c|] eqn:Hpc; [ | reflexivity ].
    unfold held_for. destruct (decide (p ∈ kept buf fs)) as [Hp|Hp].
    - destruct (F2 p Hp) as (c' & Hc' & Hlk' & _).
      assert (c' = c) as -> by congruence. now rewrite Hlk'.
    - pose proof (Hrest p c Hp Hpc) as Hlt. simpl.
      apply Nat.lt_neq, Nat.eqb_neq in Hlt. rewrite Hlt. apply andb_false_r. }
  assert (Hsn : conserved s2 en → sound s2 en).
  { intros Hcons2.
    exists (kept buf fs),
      (replicate (Z.to_nat (m - Z.of_nat (length buf))) 1
       ++ replicate (length (failures fs)) 1).
    split; [ exact H2 | ]. split; [ exact H3 | ].
    split; [ now apply kept_NoDup | ].
    split; [ now apply Forall_forall | exact Hcons2 ]. }
  assert (Hother : ∀ k2 ce2, k2 ≠ k → entries (pool s) !! k2 = Some ce2 →
            ∃ e2, entryHeap s !! ce2 = Some e2 ∧ entryHeap s2 !! ce2 = Some e2 ∧
                  key e2 = k2 ∧ ce_lock e2 = freeRW ∧ sound s e2 ∧
                  available e2 ≠ available e ∧ capacity e2 ≠ capacity e ∧
                  (available e2 < newA)%nat ∧ (capacity e2 < newC)%nat).
  { intros k2 ce2 Hne Hk2.
    destruct (Hent k2 ce2 Hk2) as (e2 & He2 & Hkey2 & Hlk2 & Hs2).
    destruct (Hdis k2 k ce2 ce e2 e Hne Hk2 Hk He2 He) as [Hda Hdc].
    assert (ce2 ≠ ce) by (intros ->; congruence).
    exists e2. split; [ exact He2 | ]. split.
    { rewrite H5. simpl. now rewrite list_lookup_insert_ne. }
    destruct (Hs2) as (b2 & t2 & Ha2 & Hc2 & _).
    repeat split; try assumption.
    - eapply lookup_lt_Some, Ha2.
    - eapply lookup_lt_Some, Hc2. }
  assert (HT2 : conserved s2 en → Tidy s2).
  { intros Hcons2. split; [ | split ].
    - intros k2 ce2 Hk2. rewrite H6 in Hk2. simpl in Hk2.
      destruct (decide (k2 = k)) as [->|Hne].
      + assert (ce2 = ce) as -> by congruence.
        exists en. split; [ rewrite H5; exact He1 | ].
        split; [ exact Hkey | ]. split; [ reflexivity | now apply Hsn ].
      + destruct (Hother k2 ce2 Hne Hk2)
          as (e2 & He2 & He2' & Hkey2 & Hlk2 & Hs2 & Hda & Hdc & Hlta2 & Hltc2).
        exists e2. repeat split; try assumption.
        eapply sound_frame; [ | | | exact Hs2 ].
        * rewrite F3 by lia. simpl. now apply lookup_app_l.
        * rewrite F5 by (simpl; lia). simpl.
          rewrite lookup_app_l by (rewrite length_insert; exact Hltc2).
          now rewrite list_lookup_insert_ne.
        * intros p c Hb. destruct (decide (p ∈ kept buf fs)) as [Hp|Hp].
          -- pose proof (kept_subset _ _ _ Hp) as Hpb.
             rewrite Forall_forall in Hq.
             destruct (F2 p Hp) as (c' & Hc' & _ & Hb').
             destruct (Hq p Hpb) as (c0 & Hc0 & _ & Hb0).
             split; intros Hpc.
             ++ assert (c0 = c) as -> by congruence. congruence.
             ++ assert (c' = c) as -> by congruence. lia.
          -- now rewrite F1.
    - intros k1 k2 ce1 ce2 e1 e2 Hne Hk1 Hk2 He1' He2'.
      rewrite H6 in Hk1, Hk2. simpl in Hk1, Hk2.
      destruct (decide (k1 = k)) as [->|Hne1], (decide (k2 = k)) as [->|Hne2].
      + contradiction.
      + assert (ce1 = ce) as -> by congruence.
        assert (e1 = en) as -> by (rewrite H5 in He1'; congruence).
        destruct (Hother k2 ce2 Hne2 Hk2)
          as (e0 & _ & He0 & _ & _ & _ & _ & _ & Hlta2 & Hltc2).
        assert (e0 = e2) as -> by congruence. simpl. lia.
      + assert (ce2 = ce) as -> by congruence.
        assert (e2 = en) as -> by (rewrite H5 in He2'; congruence).
        destruct (Hother k1 ce1 Hne1 Hk1)
          as (e0 & _ & He0 & _ & _ & _ & _ & _ & Hlta2 & Hltc2).
        assert (e0 = e1) as -> by congruence. simpl. lia.
      + destruct (Hother k1 ce1 Hne1 Hk1) as (e0 & He0 & He0' & _).
        assert (e0 = e1) as -> by congruence.
        destruct (Hother k2 ce2 Hne2 Hk2) as (e3 & He3 & He3' & _).
        assert (e3 = e2) as -> by congruence.
        eapply (Hdis k1 k2); eassumption.
    - intros p c Hpc. rewrite F4. simpl. rewrite length_app. simpl. fold newA.
      destruct (decide (p ∈ kept buf fs)) as [Hp|Hp].
      + destruct (F2 p Hp) as (c' & Hc' & _ & Hb').
        assert (c' = c) as -> by congruence. lia.
      + pose proof (Hrest p c Hp Hpc). lia. }
  exists (outside s2). split.
  { rewrite (Hvia _ _ s2 Hrun Hl2). apply Done_eq; [ | reflexivity ].
    f_equal. rewrite Z.add_0_l.
    destruct (joinErrs None (failures fs)) as [err|];
      [ | now destruct (rebuilt fs =? 0)%nat ].
    destruct (rebuilt fs); reflexivity. }
  split; [ simpl; now rewrite H6 | ].
  split; [ simpl; rewrite H5; exact He1 | ].
  split; [ exact H2 | ].
  split; [ change (capacity en) with newC in H3; simpl;
           rewrite H3, replicate_add; reflexivity | ].
  split; [ exact Hin2 | ]. split; [ exact H4 | ].
  intros Hcons2. split; [ reflexivity | ]. now apply Tidy_outside, HT2.
Qed.

Lemma fates_outcome (f : @CreateNewValue V) m n : ∀ call j,
  j ≤ m →
  (rebuilt (fates f m n call j) + length (failures (fates f m n call j)) = n)%nat ∨
  j + Z.of_nat (rebuilt (fates f m n call j)) = m.
Proof.
  induction n as [|n IH]; intros call j Hle; [ now left | ].
  simpl fates. destruct (Z.leb_spec m j).
  - right. rewrite (fates_full f m n call j) by assumption.
    change (Excess :: replicate n Excess) with (replicate (S n) (@Excess V)).
    rewrite rebuilt_replicate_Excess. lia.
  - destruct (f call) as [v|err].
    + destruct (IH (S call) (j + 1) ltac:(lia)) as [H1|H1];
        unfold rebuilt in *; rewrite failures_cons; simpl; [ left | right ]; lia.
    + destruct (IH (S call) j ltac:(lia)) as [H1|H1];
        unfold rebuilt in *; rewrite failures_cons; simpl; [ left | right ]; lia.
Qed.

(** X11. [UpdateIfExists] on an entry of a pool in order none of whose cells
    is in use, to a bound that [make] accepts and that is not below the
    number of its cells, or with a factory that rebuilds every cell it is
    asked to rebuild: the call
    returns, the entry has the new bound, the new factory and new channels,
    the rebuilt cells are in its new queue in the order of the old one, and
    the pool is in order again. *)
Theorem UpdateIfExists_keeps_Sound k f m ce e buf (s : Store) :
  Sound s → entries (pool s) !! k = Some ce → entryHeap s !! ce = Some e →
  cellChans s !! available e = Some (mkChan (maxCapacity e) buf) →
  in_use s e = 0%nat → 0 ≤ m ≤ Z.of_N chanLimit →
  let fs := fates f m (length buf) (calls s) 0 in
  Z.of_nat (length buf) ≤ m ∨ failures fs = [] →
  ∃ s',
    UpdateIfExists k f m s
    = Done (true, if (rebuilt fs =? 0)%nat then joinErrs None (failures fs)
                  else None) s' ∧
    Sound s' ∧
    entries (pool s') = entries (pool s) ∧
    entryHeap s' !! ce
    = Some (mkEntry freeRW (length (cellChans s)) (length (intChans s)) m f k) ∧
    cellChans s' !! length (cellChans s) = Some (mkChan m (kept buf fs)) ∧
    calls s' = (calls s + attempts fs)%nat.
Proof.
  intros HS Hk He Ha Hin0 [Hm Hlim] fs Hcond.
  assert (Hroom : Z.of_nat (Z.to_nat (m - Z.of_nat (length buf))
                            + length (failures fs)) ≤ m).
  { destruct Hcond as [Hle|Hnone].
    - pose proof (failures_bound f m (length buf) (calls s) 0). fold fs in H. lia.
    - rewrite Hnone. simpl. lia. }
  assert (Hcount : Z.of_nat (rebuilt fs)
                   + Z.of_nat (Z.to_nat (m - Z.of_nat (length buf))
                               + length (failures fs)) = m).
  { destruct Hcond as [Hle|Hnone].
    - pose proof (fates_no_excess f m (length buf) (calls s) 0 ltac:(lia)).
      fold fs in H. lia.
    - pose proof (fates_no_failure f m (length buf) (calls s) 0 Hnone Hm).
      fold fs in H. rewrite Hnone. simpl. lia. }
  destruct (UpdateIfExists_audit k f m ce e buf s HS Hk He Ha Hin0 Hm Hlim Hroom)
    as (s' & Hrun & Hmap & Hen & Hq & Htk & Hin & Hcalls & Hsound).
  fold fs in Hrun, Hq, Htk, Hcalls.
  exists s'. split; [ exact Hrun | ]. split; [ | now repeat split ].
  apply Hsound. eapply conserved_intro; [ exact Hq | exact Htk | ].
  pose proof (kept_length f m buf (calls s) 0) as Hkl. fold fs in Hkl.
  rewrite Hin, Hkl, length_replicate. simpl maxCapacity. lia.
Qed.

(** X12. [UpdateIfExists] to a bound that [make] accepts and that is below
    the number of cells of the entry, when a rebuild fails (with room for
    its tickets): the call returns, and
    the idle cells and tickets of the entry then number more than the new
    bound; capacity is not conserved. *)
Theorem UpdateIfExists_shrink_breaks_conservation k f m ce e buf (s : Store) :
  Sound s → entries (pool s) !! k = Some ce → entryHeap s !! ce = Some e →
  cellChans s !! available e = Some (mkChan (maxCapacity e) buf) →
  in_use s e = 0%nat → 0 ≤ m ≤ Z.of_N chanLimit →
  let fs := fates f m (length buf) (calls s) 0 in
  let en := mkEntry freeRW (length (cellChans s)) (length (intChans s)) m f k in
  m < Z.of_nat (length buf) → failures fs ≠ [] →
  Z.of_nat (length (failures fs)) ≤ m →
  ∃ s',
    UpdateIfExists k f m s
    = Done (true, if (rebuilt fs =? 0)%nat then joinErrs None (failures fs)
                  else None) s' ∧
    entryHeap s' !! ce = Some en ∧
    census s' en = Some (Z.of_nat (rebuilt fs + length (failures fs))) ∧
    m < Z.of_nat (rebuilt fs + length (failures fs)) ∧
    ¬ conserved s' en.
Proof.
  intros HS Hk He Ha Hin0 [Hm Hlim] fs en Hlt Hfail Hfit.
  assert (Hroom : Z.of_nat (Z.to_nat (m - Z.of_nat (length buf))
                            + length (failures fs)) ≤ m) by lia.
  destruct (UpdateIfExists_audit k f m ce e buf s HS Hk He Ha Hin0 Hm Hlim Hroom)
    as (s' & Hrun & Hmap & Hen & Hq & Htk & Hin & Hcalls & Hsound).
  fold fs en in Hrun, Hen, Hq, Htk, Hin, Hcalls.
  pose proof (kept_length f m buf (calls s) 0) as Hkl. fold fs in Hkl.
  assert (Hcensus : census s' en
                    = Some (Z.of_nat (rebuilt fs + length (failures fs)))).
  { unfold census. simpl available. simpl capacity. rewrite Hq, Htk, Hin.
    unfold chan_len. simpl. rewrite Hkl, length_replicate. f_equal. lia. }
  assert (Hmore : m < Z.of_nat (rebuilt fs + length (failures fs))).
  { assert (0 < length (failures fs))%nat by (destruct (failures fs); simpl; [ congruence | lia ]).
    destruct (fates_outcome f m (length buf) (calls s) 0 Hm) as [H1|H1];
      fold fs in H1; lia. }
  exists s'. split; [ exact Hrun | ]. split; [ exact Hen | ].
  split; [ exact Hcensus | ]. split; [ exact Hmore | ].
  unfold conserved. rewrite Hcensus. simpl maxCapacity. intros Heq.
  injection Heq as Heq. lia.
Qed.

(** ** [UpdateIfExists] while a cell is in use *)

(** The loop over [a + b] cells is the loop over [a] cells, then the loop
    over [b] cells. *)
Lemma drain_add entry old new f m b : ∀ a j err (s : Store),
  drain entry old new f m (a + b) j err s
  = (r ← drain entry old new f m a j err;
     drain entry old new f m b r.1 r.2) s.
Proof.
  induction a as [|a IH]; intros j err s; [ reflexivity | ].
  change (S a + b)%nat with (S (a + b)). rewrite !drain_S.
  rewrite bind_assoc. apply bind_cong. intros cv s1 _.
  destruct (m <=? j).
  - rewrite !bind_assoc. apply bind_cong. intros [] s2 _.
    rewrite !bind_assoc. apply bind_cong. intros [] s3 _.
    rewrite !bind_assoc. apply bind_cong. intros [] s4 _. apply IH.
  - rewrite bind_assoc. apply bind_cong. intros [e|] s2 _.
    + rewrite !bind_assoc. apply bind_cong. intros en s3 _.
      rewrite !bind_assoc. apply bind_cong. intros [] s4 _. apply IH.
    + rewrite !bind_assoc. apply bind_cong. intros [] s3 _. apply IH.
Qed.

Lemma UpdateIfExists_parks k entry e f m capc tk (s : Store) :
  c_lock (pool s) = freeRW →
  entries (pool s) !! k = Some entry →
  entryHeap s !! entry = Some e → ce_lock e = freeRW →
  intChans s !! capacity e = Some (mkChan capc tk) →
  Z.of_nat (length tk) ≤ capc → Z.of_nat (length tk) ≤ maxCapacity e →
  0 ≤ m → m ≤ Z.of_N chanLimit →
  let inUse := maxCapacity e - Z.of_nat (length tk) in
  let s1 :=
    mkStore
      (mkPool {| writer := false; readers := 1 |} (entries (pool s))
         (lastChecked (pool s)))
      (<[entry := mkEntry freeRW (length (cellChans s)) (length (intChans s))
                    m f (key e)]> (entryHeap s))
      (cellHeap s)
      (cellChans s ++ [mkChan m []])
      (<[capacity e := mkChan capc (replicate (length tk) 1)]> (intChans s)
       ++ [mkChan m (replicate (Z.to_nat (m - inUse)) 1)])
      (clock s) (calls s) (sweeps s) (trace s) in
  ∀ s2,
    drain entry (available e) (length (cellChans s)) f m (Z.to_nat inUse) 0 None s1
    = Blocked s2 →
    UpdateIfExists k f m s = Blocked s2.
Proof.
  intros Hl Hk He Hel Htk Hwf Hle Hm Hlim inUse s1 s2 Hrun.
  unfold UpdateIfExists.
  rewrite ?bind_assoc. erewrite bind_Done; [ | eapply c_RLock_run; now rewrite Hl ].
  cbv beta. undefer. rewrite ?bind_assoc. step load_pool_run.
  simpl entries. rewrite Hk.
  rewrite ?bind_assoc. erewrite bind_Done;
    [ | eapply (swapEntry_run entry e f m capc tk); try lk; try lia ].
  cbv beta iota. rewrite ?bind_assoc.
  eapply bind_Blocked.
  etransitivity; [ | exact Hrun ]. f_equal. unfold s1. store_eq.
  now rewrite Hl.
Qed.

(** With the read lock of the pool taken, the methods that write to the map
    wait. *)
Lemma pool_read_locked_blocks ctx pick k f n order (s : Store) :
  readers (c_lock (pool s)) ≠ 0%nat →
  AddAndAcquire ctx pick k f n s = Blocked s ∧
  cleanupEntries order s = Blocked s.
Proof.
  intros Hr.
  assert (Hlock : c_Lock s = Blocked s).
  { unfold c_Lock. step load_pool_run. unfold rw_Lock.
    destruct (writer (c_lock (pool s))); [ reflexivity | ].
    destruct (readers (c_lock (pool s))); [ contradiction | reflexivity ]. }
  split.
  - unfold AddAndAcquire. eapply bind_Blocked. exact Hlock.
  - unfold cleanupEntries. eapply bind_Blocked. exact Hlock.
Qed.

(** ** The loop of [UpdateIfExists], whatever its outcome *)

Lemma fates_length (f : @CreateNewValue V) m n : ∀ call j,
  length (fates f m n call j) = n.
Proof.
  induction n as [|n IH]; intros call j; [ reflexivity | ].
  simpl. destruct (m <=? j); [ | destruct (f call) ]; simpl; now rewrite IH.
Qed.

(** A cell is in excess as soon as [m] cells were rebuilt before it. *)
Lemma fates_excess (f : @CreateNewValue V) m n : ∀ call j i,
  (i < n)%nat →
  m ≤ j + Z.of_nat (rebuilt (take i (fates f m n call j))) →
  fates f m n call j !! i = Some Excess.
Proof.
  induction n as [|n IH]; intros call j i Hi Hfull; [ lia | ].
  simpl fates in *. destruct (Z.leb_spec m j) as [Hle|Hlt].
  - destruct i as [|i]; [ reflexivity | ]. simpl.
    rewrite fates_full by exact Hle. apply lookup_replicate_2. lia.
  - destruct (f call) as [v|err].
    + destruct i as [|i]; simpl in *.
      * unfold rebuilt in Hfull. simpl in Hfull. lia.
      * apply IH; [ lia | ]. unfold rebuilt in *. simpl in Hfull. lia.
    + destruct i as [|i]; simpl in *.
      * unfold rebuilt in Hfull. simpl in Hfull. lia.
      * apply IH; [ lia | ]. unfold rebuilt in *. simpl in Hfull. lia.
Qed.

(** A cell that was not rebuilt is not in the new queue. *)
Lemma kept_not_rebuilt : ∀ (cells : list nat) (fs : list (@fate V)) i cv x,
  NoDup cells → cells !! i = Some cv → fs !! i = Some x →
  is_rebuilt x = false → cv ∉ kept cells fs.
Proof.
  induction cells as [|c0 cells IH]; intros fs i cv x Hnd Hcv Hx Hnot;
    [ discriminate | ].
  apply NoDup_cons in Hnd as [Hnotin Hnd].
  destruct fs as [|x0 fs]; [ discriminate | ].
  destruct i as [|i]; simpl in Hcv, Hx.
  - injection Hcv as ->. injection Hx as ->.
    assert (Hk : kept (cv :: cells) (x :: fs) = kept cells fs)
      by (destruct x; [ reflexivity | reflexivity | discriminate ]).
    rewrite Hk. intros Hin. apply Hnotin. eapply kept_subset, Hin.
  - assert (Hne : cv ≠ c0).
    { intros ->. apply Hnotin. eapply list_elem_of_lookup_2, Hcv. }
    pose proof (IH fs i cv x Hnd Hcv Hx Hnot) as Hrec.
    destruct x0; simpl; try exact Hrec.
    intros Hin. apply elem_of_cons in Hin as [?|?]; contradiction.
Qed.

(** The events of every drained cell are in the trace of the loop. *)
Lemma drained_in old new (h : list (@cacheValue V)) :
  ∀ (cells : list nat) (fs : list (@fate V)) i cv c x ev,
    cells !! i = Some cv → h !! cv = Some c → fs !! i = Some x →
    ev ∈ drain_events old new cv (value c) x →
    ev ∈ drained old new h cells fs.
Proof.
  induction cells as [|c0 cells IH]; intros fs i cv c x ev Hcv Hc Hx Hev;
    [ discriminate | ].
  destruct fs as [|x0 fs]; [ discriminate | ].
  destruct i as [|i]; simpl in Hcv, Hx; simpl drained.
  - injection Hcv as ->. injection Hx as ->. rewrite Hc.
    apply elem_of_app. now left.
  - apply elem_of_app. right. eapply IH; eassumption.
Qed.

Lemma send_int_full ch c x (s : Store) :
  intChans s !! ch = Some c → ch_cap c ≤ chan_len c →
  send_int ch x s = Blocked s.
Proof.
  intros Hc Hfull. unfold send_int. rewrite Hc.
  destruct (Z.ltb_spec (chan_len c) (ch_cap c)); [ lia | reflexivity ].
Qed.

(** A drained cell whose rebuild fails when the capacity channel of the
    entry is full: the loop parks on the ticket of line 201. *)
Lemma drain_failed_full entry en old new f m n j err capo cv rest c cc e (s : Store) :
  j < m →
  entryHeap s !! entry = Some en →
  cellChans s !! old = Some (mkChan capo (cv :: rest)) →
  cellHeap s !! cv = Some c → cv_lock c = false →
  intChans s !! capacity en = Some cc → ch_cap cc ≤ chan_len cc →
  f (calls s) = inr e →
  drain entry old new f m (S n) j err s
  = Blocked
      (logs [EvRecv old cv; EvLock cv; EvClose cv (value c);
             EvCreate (inr e); EvUnlock cv]
         (set_calls S (put_cellChan old (mkChan capo rest) s))).
Proof.
  intros Hj He Hold Hc Hl Hcc Hfull Hf. rewrite drain_S. step recv_cell_run.
  destruct (Z.leb_spec m j); [lia|].
  rewrite ?bind_assoc. erewrite bind_Done;
    [ | eapply (updateValue_fail cv c); [ lk | exact Hl | exact Hf ] ].
  cbv beta iota. step load_entry_run.
  etransitivity.
  { eapply bind_Blocked. eapply (send_int_full _ cc); [ lk | exact Hfull ]. }
  f_equal. store_eq.
Qed.

(** The loop on [cells], the next cells of the old queue, all idle, when
    the capacity channel of the entry has no room for the tickets of all the
    rebuilds that fail: it parks on the first ticket that finds the channel
    full, whatever the number of iterations it was to make. *)
Lemma drain_stuck entry en old new f m capo capc :
  old ≠ new →
  ∀ cells rest n j err bufn tk (s : Store),
    entryHeap s !! entry = Some en →
    cellChans s !! old = Some (mkChan capo (cells ++ rest)) →
    cellChans s !! new = Some (mkChan m bufn) →
    Z.of_nat (length bufn) = j →
    intChans s !! capacity en = Some (mkChan capc tk) →
    Forall (idle_cell s) cells →
    Z.of_nat (length tk) ≤ capc →
    capc < Z.of_nat (length tk
                     + length (failures (fates f m (length cells) (calls s) j))) →
    ∃ s' q,
      drain entry old new f m (length cells + n) j err s = Blocked s' ∧
      intChans s' !! capacity en
      = Some (mkChan capc (tk ++ replicate (Z.to_nat capc - length tk) 1)) ∧
      cellChans s' !! new = Some (mkChan m (bufn ++ q)) ∧
      Z.of_nat (length (bufn ++ q)) < m ∧
      entryHeap s' = entryHeap s ∧ pool s' = pool s.
Proof.
  intros Hne. induction cells as [|cv cells IH];
    intros rest n j err bufn tk s He Hold Hnew Hj Htk Hidle Hwf Hroom.
  - simpl in Hroom. lia.
  - apply Forall_cons in Hidle as [(c & Hc & Hl) Hidle].
    simpl length in *. simpl fates in *. simpl app in Hold.
    change (S (length cells) + n)%nat with (S (length cells + n)).
    destruct (Z.leb_spec m j) as [Hfull|Hfree].
    + (* excess *)
      rewrite (drain_excess entry old new f m _ j err capo cv (cells ++ rest) c s)
        by assumption.
      match goal with
      | |- context [drain _ _ _ _ _ _ _ _ ?st] => set (s1 := st)
      end.
      edestruct (IH rest n j err bufn tk s1)
        as (s' & q & Hrun & H1 & H2 & H3 & H4 & H5);
        [ | | | | | | | | exists s', q ].
      * exact He.
      * lk.
      * simpl. rewrite list_lookup_insert_ne by exact Hne. exact Hnew.
      * exact Hj.
      * exact Htk.
      * exact Hidle.
      * exact Hwf.
      * exact Hroom.
      * now repeat split.
    + destruct (f (calls s)) as [v|e] eqn:Hf.
      * (* rebuilt *)
        rewrite (drain_rebuilt entry old new f m _ j err capo cv (cells ++ rest) c
                   (mkChan m bufn) v s)
          by (try assumption; unfold chan_len; simpl; lia).
        match goal with
        | |- context [drain _ _ _ _ _ _ _ _ ?st] => set (s1 := st)
        end.
        edestruct (IH rest n (j + 1) err (bufn ++ [cv]) tk s1)
          as (s' & q & Hrun & H1 & H2 & H3 & H4 & H5);
          [ | | | | | | | | exists s', (cv :: q) ].
        -- exact He.
        -- simpl. rewrite list_lookup_insert_ne by congruence. lk.
        -- lk.
        -- rewrite length_app. simpl. lia.
        -- exact Htk.
        -- eapply Forall_impl; [ exact Hidle | ].
           intros p Hp. eapply (idle_cell_put cv); [ reflexivity | | exact Hp ].
           reflexivity.
        -- exact Hwf.
        -- exact Hroom.
        -- rewrite <- app_assoc in H2, H3. simpl in H2, H3. now repeat split.
      * (* failed *)
        rewrite failures_cons in Hroom. simpl length in Hroom.
        destruct (Z_lt_le_dec (Z.of_nat (length tk)) capc) as [Hfits|Hnofit].
        -- rewrite (drain_failed entry en old new f m _ j err capo cv (cells ++ rest) c
                      (mkChan capc tk) e s)
             by (try assumption; unfold chan_len; simpl in *; lia).
           match goal with
           | |- context [drain _ _ _ _ _ _ _ _ ?st] => set (s1 := st)
           end.
           edestruct (IH rest n j (errors_Join [err; Some e]) bufn (tk ++ [1]) s1)
             as (s' & q & Hrun & H1 & H2 & H3 & H4 & H5);
             [ | | | | | | | | exists s', q ].
           ++ exact He.
           ++ lk.
           ++ simpl. rewrite list_lookup_insert_ne by exact Hne. exact Hnew.
           ++ exact Hj.
           ++ lk.
           ++ exact Hidle.
           ++ rewrite length_app. simpl. lia.
           ++ simpl in *. rewrite length_app. simpl. lia.
           ++ split; [ exact Hrun | ]. split; [ | now repeat split ].
              rewrite H1. f_equal. f_equal. rewrite <- app_assoc. f_equal.
              rewrite length_app. simpl.
              replace (Z.to_nat capc - length tk)%nat
                with (S (Z.to_nat capc - (length tk + 1)))%nat by lia.
              reflexivity.
        -- exists (logs [EvRecv old cv; EvLock cv; EvClose cv (value c);
                         EvCreate (inr e); EvUnlock cv]
                     (set_calls S (put_cellChan old (mkChan capo (cells ++ rest)) s))), [].
           split.
           { apply (drain_failed_full entry en old new f m _ j err capo cv
                      (cells ++ rest) c (mkChan capc tk) e s);
               assumption. }
           split.
           { simpl. rewrite Htk. do 2 f_equal.
             replace (Z.to_nat capc - length tk)%nat with 0%nat by lia.
             simpl. now rewrite app_nil_r. }
           split.
           { simpl. rewrite list_lookup_insert_ne by exact Hne.
             now rewrite app_nil_r. }
           split; [ rewrite app_nil_r; lia | ]. now split.
Qed.

(** [UpdateIfExists] on an entry of a pool in order, when the new capacity
    channel has room for the tickets of the failed rebuilds: the loop drains
    the idle cells as [fates] says; the call returns when no cell is in use,
    and parks on the emptied old queue otherwise. *)
Lemma UpdateIfExists_drains k f m ce e buf (s : Store) :
  Sound s → entries (pool s) !! k = Some ce → entryHeap s !! ce = Some e →
  cellChans s !! available e = Some (mkChan (maxCapacity e) buf) →
  0 ≤ m → m ≤ Z.of_N chanLimit →
  let fs := fates f m (length buf) (calls s) 0 in
  let en := mkEntry freeRW (length (cellChans s)) (length (intChans s)) m f k in
  let prefill := Z.to_nat (m - Z.of_nat (length buf + in_use s e)) in
  Z.of_nat (prefill + length (failures fs)) ≤ m →
  ∃ s',
    UpdateIfExists k f m s
    = (if (in_use s e =? 0)%nat
       then Done (true, if (rebuilt fs =? 0)%nat
                        then joinErrs None (failures fs) else None) s'
       else Blocked s') ∧
    pool s'
    = mkPool (if (in_use s e =? 0)%nat then freeRW
              else {| writer := false; readers := 1 |})
        (entries (pool s)) (lastChecked (pool s)) ∧
    entryHeap s' = <[ce := en]> (entryHeap s) ∧
    cellChans s' !! length (cellChans s) = Some (mkChan m (kept buf fs)) ∧
    cellChans s' !! available e = Some (mkChan (maxCapacity e) []) ∧
    intChans s' !! length (intChans s)
    = Some (mkChan m (replicate (prefill + length (failures fs)) 1)) ∧
    calls s' = (calls s + attempts fs)%nat ∧
    trace s'
    = trace s ++ drained (available e) (length (cellChans s)) (cellHeap s) buf fs ∧
    (∀ p, p ∉ kept buf fs → cellHeap s' !! p = cellHeap s !! p) ∧
    (∀ p, p ∈ kept buf fs →
          ∃ c', cellHeap s' !! p = Some c' ∧ cv_lock c' = false ∧
                returnChan c' = length (cellChans s)).
Proof.
  intros [Hl HT] Hk He Ha Hm Hlim fs en0 prefill Hroom.
  destruct (HT) as (Hent & Hdis & Hfresh).
  destruct (Hent k ce Hk) as (e0 & He0 & Hkey & Hlk & Hs).
  assert (e0 = e) as -> by congruence. clear He0.
  destruct (Hs) as (buf0 & tk & Ha0 & Hc & Hnd & Hq & Hcons).
  assert (buf0 = buf) as -> by congruence. clear Ha0.
  pose proof (conserved_elim _ _ _ _ _ _ Ha Hc Hcons) as Hsum.
  simpl in Hsum.
  assert (Hlta : (available e < length (cellChans s))%nat)
    by (eapply lookup_lt_Some, Ha).
  set (newA := length (cellChans s)) in *.
  set (newC := length (intChans s)) in *.
  set (en := mkEntry freeRW newA newC m f (key e)).
  assert (Hen : en0 = en) by (unfold en0, en; now rewrite Hkey).
  clearbody en0. subst en0.
  pose proof (UpdateIfExists_via_drain k ce e f m _ tk s Hl Hk He Hlk Hc
                ltac:(lia) ltac:(lia) Hm Hlim) as Hdone.
  pose proof (UpdateIfExists_parks k ce e f m _ tk s Hl Hk He Hlk Hc
                ltac:(lia) ltac:(lia) Hm Hlim) as Hpark.
  cbv zeta in Hdone, Hpark.
  replace (maxCapacity e - Z.of_nat (length tk))
    with (Z.of_nat (length buf + in_use s e)) in Hdone, Hpark by lia.
  rewrite Nat2Z.id in Hdone, Hpark. fold prefill in Hdone, Hpark.
  match type of Hpark with
  | ∀ s2, drain _ _ _ _ _ _ _ _ ?st = _ → _ => set (s1 := st) in *
  end.
  assert (He1 : entryHeap s1 !! ce = Some en).
  { simpl. apply list_lookup_insert_eq. eapply lookup_lt_Some, He. }
  assert (Ha1 : cellChans s1 !! available e
                = Some (mkChan (maxCapacity e) (buf ++ []))).
  { simpl. rewrite lookup_app_l by exact Hlta. now rewrite app_nil_r. }
  assert (Hn1 : cellChans s1 !! newA = Some (mkChan m [])) by (simpl; apply lookup_snoc).
  assert (Hc1 : intChans s1 !! capacity en = Some (mkChan m (replicate prefill 1))).
  { simpl. unfold newC.
    replace (length (intChans s))
      with (length (<[capacity e := mkChan (maxCapacity e) (replicate (length tk) 1)]>
                      (intChans s))) at 1 by apply length_insert.
    apply lookup_snoc. }
  assert (Hidle : Forall (idle_cell s1) buf).
  { eapply Forall_impl; [ exact Hq | ].
    intros cv (c & Hcv & Hlkc & _). exists c. now split. }
  assert (Hroom1 : Z.of_nat (length (replicate prefill 1)
                    + length (failures (fates f m (length buf) (calls s1) 0))) ≤ m).
  { rewrite length_replicate. exact Hroom. }
  destruct (drain_run ce en (available e) newA f m (maxCapacity e) m
              ltac:(lia) buf [] 0 None [] (replicate prefill 1) s1
              He1 Ha1 Hn1 eq_refl Hc1 Hidle Hroom1)
    as (s2 & Hrun & H1 & H2 & H3 & H4 & H5 & H6 & H7).
  destruct (drain_frame ce en (available e) newA f m (maxCapacity e) m
              ltac:(lia) buf [] 0 None [] (replicate prefill 1) s1 _ s2
              He1 Ha1 Hn1 eq_refl Hc1 Hidle Hroom1 Hnd Hrun)
    as (F1 & F2 & _ & _ & _ & F6 & _).
  change (calls s1) with (calls s) in *. fold fs in Hrun, H2, H3, H4, F1, F2, F6.
  change (cellHeap s1) with (cellHeap s) in *. simpl app in H2.
  change (trace s1) with (trace s) in *.
  assert (Hl2 : c_lock (pool s2) = {| writer := false; readers := 1 |})
    by now rewrite H6.
  assert (Htickets : intChans s2 !! newC
                     = Some (mkChan m (replicate (prefill + length (failures fs)) 1))).
  { change (capacity en) with newC in H3. rewrite H3, replicate_add. reflexivity. }
  destruct (in_use s e) as [|h] eqn:Hh; simpl Nat.eqb; cbv iota.
  - exists (outside s2). split.
    { rewrite Nat.add_0_r in Hdone.
      rewrite (Hdone _ _ s2 Hrun Hl2). apply Done_eq; [ | reflexivity ].
      f_equal. rewrite Z.add_0_l.
      destruct (joinErrs None (failures fs)) as [err|];
        [ | now destruct (rebuilt fs =? 0)%nat ].
      destruct (rebuilt fs); reflexivity. }
    split; [ simpl; now rewrite H6 | ].
    split; [ simpl; rewrite H5; reflexivity | ].
    split; [ exact H2 | ]. split; [ exact H1 | ].
    split; [ exact Htickets | ]. split; [ exact H4 | ].
    split; [ exact F6 | ]. split; [ exact F1 | exact F2 ].
  - exists s2. split.
    { apply Hpark. rewrite drain_add.
      erewrite bind_Done by exact Hrun. cbv beta.
      rewrite drain_S. eapply bind_Blocked. eapply recv_cell_empty. exact H1. }
    split; [ rewrite H6; reflexivity | ].
    split; [ rewrite H5; reflexivity | ].
    split; [ exact H2 | ]. split; [ exact H1 | ].
    split; [ exact Htickets | ]. split; [ exact H4 | ].
    split; [ exact F6 | ]. split; [ exact F1 | exact F2 ].
Qed.

(** [UpdateIfExists] on an entry of a pool in order, when more rebuilds fail
    than the new capacity channel has room for: the call parks on the ticket
    of line 201, with the channel full and the read lock of the pool
    taken. *)
Lemma UpdateIfExists_stuck k f m ce e buf (s : Store) :
  Sound s → entries (pool s) !! k = Some ce → entryHeap s !! ce = Some e →
  cellChans s !! available e = Some (mkChan (maxCapacity e) buf) →
  0 ≤ m → m ≤ Z.of_N chanLimit →
  let fs := fates f m (length buf) (calls s) 0 in
  let en := mkEntry freeRW (length (cellChans s)) (length (intChans s)) m f k in
  let prefill := Z.to_nat (m - Z.of_nat (length buf + in_use s e)) in
  m < Z.of_nat (prefill + length (failures fs)) →
  ∃ s' q,
    UpdateIfExists k f m s = Blocked s' ∧
    pool s' = mkPool {| writer := false; readers := 1 |}
                (entries (pool s)) (lastChecked (pool s)) ∧
    entryHeap s' = <[ce := en]> (entryHeap s) ∧
    intChans s' !! length (intChans s)
    = Some (mkChan m (replicate (Z.to_nat m) 1)) ∧
    cellChans s' !! length (cellChans s) = Some (mkChan m q) ∧
    Z.of_nat (length q) < m.
Proof.
  intros [Hl HT] Hk He Ha Hm Hlim fs en0 prefill Hroom.
  destruct (HT) as (Hent & Hdis & Hfresh).
  destruct (Hent k ce Hk) as (e0 & He0 & Hkey & Hlk & Hs).
  assert (e0 = e) as -> by congruence. clear He0.
  destruct (Hs) as (buf0 & tk & Ha0 & Hc & Hnd & Hq & Hcons).
  assert (buf0 = buf) as -> by congruence. clear Ha0.
  pose proof (conserved_elim _ _ _ _ _ _ Ha Hc Hcons) as Hsum.
  simpl in Hsum.
  assert (Hlta : (available e < length (cellChans s))%nat)
    by (eapply lookup_lt_Some, Ha).
  set (newA := length (cellChans s)) in *.
  set (newC := length (intChans s)) in *.
  set (en := mkEntry freeRW newA newC m f (key e)).
  assert (Hen : en0 = en) by (unfold en0, en; now rewrite Hkey).
  clearbody en0. subst en0.
  pose proof (UpdateIfExists_parks k ce e f m _ tk s Hl Hk He Hlk Hc
                ltac:(lia) ltac:(lia) Hm Hlim) as Hpark.
  cbv zeta in Hpark.
  replace (maxCapacity e - Z.of_nat (length tk))
    with (Z.of_nat (length buf + in_use s e)) in Hpark by lia.
  rewrite Nat2Z.id in Hpark. fold prefill in Hpark.
  match type of Hpark with
  | ∀ s2, drain _ _ _ _ _ _ _ _ ?st = _ → _ => set (s1 := st) in *
  end.
  assert (He1 : entryHeap s1 !! ce = Some en).
  { simpl. apply list_lookup_insert_eq. eapply lookup_lt_Some, He. }
  assert (Ha1 : cellChans s1 !! available e
                = Some (mkChan (maxCapacity e) (buf ++ []))).
  { simpl. rewrite lookup_app_l by exact Hlta. now rewrite app_nil_r. }
  assert (Hn1 : cellChans s1 !! newA = Some (mkChan m [])) by (simpl; apply lookup_snoc).
  assert (Hc1 : intChans s1 !! capacity en = Some (mkChan m (replicate prefill 1))).
  { simpl. unfold newC.
    replace (length (intChans s))
      with (length (<[capacity e := mkChan (maxCapacity e) (replicate (length tk) 1)]>
                      (intChans s))) at 1 by apply length_insert.
    apply lookup_snoc. }
  assert (Hidle : Forall (idle_cell s1) buf).
  { eapply Forall_impl; [ exact Hq | ].
    intros cv (c & Hcv & Hlkc & _). exists c. now split. }
  destruct (drain_stuck ce en (available e) newA f m (maxCapacity e) m
              ltac:(lia) buf [] (in_use s e) 0 None [] (replicate prefill 1) s1
              He1 Ha1 Hn1 eq_refl Hc1 Hidle)
    as (s2 & q & Hrun & H1 & H2 & H3 & H4 & H5).
  { rewrite length_replicate. unfold prefill. lia. }
  { rewrite length_replicate. exact Hroom. }
  exists s2, q. split; [ now apply Hpark | ].
  split; [ rewrite H5; reflexivity | ].
  split; [ rewrite H4; reflexivity | ].
  split.
  { change (capacity en) with newC in H1. rewrite H1, length_replicate.
    rewrite <- replicate_add. do 3 f_equal. unfold prefill. lia. }
  split; [ exact H2 | exact H3 ].
Qed.

(** C5. [UpdateIfExists] on an entry of a pool in order, to a bound that
    [make] accepts.  With [inUse] the old bound minus the tickets of the old
    capacity channel, which counts the idle cells and the cells in use
    together, the new capacity channel gets exactly [m - inUse] tickets when
    that is positive and none otherwise, and then one ticket for every failed
    rebuild.  In the loop, a cell that is drained once [m] cells were rebuilt
    is in excess: its value is closed, the factory is not called for it, it
    stays as it was, and it is not in the new queue, which so ends with at
    most [m] cells.  The call returns when no cell is in use, and it parks on
    the emptied old queue otherwise.  When more rebuilds fail than the new
    capacity channel has room for, it parks on the ticket of a failed
    rebuild, with fewer than [m] cells in the new queue. *)
Theorem UpdateIfExists_prefill_and_overflow k f m ce e buf tk (s : Store) :
  Sound s → entries (pool s) !! k = Some ce → entryHeap s !! ce = Some e →
  cellChans s !! available e = Some (mkChan (maxCapacity e) buf) →
  intChans s !! capacity e = Some (mkChan (maxCapacity e) tk) →
  0 ≤ m ≤ Z.of_N chanLimit →
  let inUse := maxCapacity e - Z.of_nat (length tk) in
  let fs := fates f m (length buf) (calls s) 0 in
  let newAvailable := length (cellChans s) in
  let newCapacity := length (intChans s) in
  let prefill := Z.to_nat (m - inUse) in
  inUse = Z.of_nat (length buf + in_use s e) ∧
  Z.of_nat prefill = Z.max 0 (m - inUse) ∧
  (Z.of_nat (prefill + length (failures fs)) ≤ m →
   ∃ s',
     (if (in_use s e =? 0)%nat
      then ∃ err, UpdateIfExists k f m s = Done (true, err) s'
      else UpdateIfExists k f m s = Blocked s') ∧
     entryHeap s' !! ce = Some (mkEntry freeRW newAvailable newCapacity m f k) ∧
     intChans s' !! newCapacity
     = Some (mkChan m (replicate prefill 1
                       ++ replicate (length (failures fs)) 1)) ∧
     cellChans s' !! newAvailable = Some (mkChan m (kept buf fs)) ∧
     Z.of_nat (length (kept buf fs)) ≤ m ∧
     calls s' = (calls s + attempts fs)%nat ∧
     trace s'
     = trace s ++ drained (available e) newAvailable (cellHeap s) buf fs ∧
     ∀ i cv c, buf !! i = Some cv → cellHeap s !! cv = Some c →
       m ≤ Z.of_nat (rebuilt (take i fs)) →
       fs !! i = Some Excess ∧
       EvClose cv (value c)
         ∈ drained (available e) newAvailable (cellHeap s) buf fs ∧
       cellHeap s' !! cv = Some c ∧
       cv ∉ kept buf fs) ∧
  (m < Z.of_nat (prefill + length (failures fs)) →
   ∃ s' queue,
     UpdateIfExists k f m s = Blocked s' ∧
     intChans s' !! newCapacity = Some (mkChan m (replicate (Z.to_nat m) 1)) ∧
     cellChans s' !! newAvailable = Some (mkChan m queue) ∧
     Z.of_nat (length queue) < m).
Proof.
  intros HS Hk He Ha Hc [Hm Hlim] inUse fs newA newC prefill.
  assert (Hsum : inUse = Z.of_nat (length buf + in_use s e)).
  { destruct HS as [_ (Hent & _ & _)].
    destruct (Hent k ce Hk) as (e0 & He0 & _ & _ & (b0 & t0 & _ & _ & _ & _ & Hcons)).
    assert (e0 = e) as -> by congruence.
    pose proof (conserved_elim _ _ _ _ _ _ Ha Hc Hcons). unfold inUse. lia. }
  assert (Hnd : NoDup buf).
  { destruct HS as [_ (Hent & _ & _)].
    destruct (Hent k ce Hk) as (e0 & He0 & _ & _ & (b0 & t0 & Ha0 & _ & Hnd & _)).
    assert (e0 = e) as -> by congruence. congruence. }
  split; [ exact Hsum | ]. split; [ unfold prefill; lia | ].
  unfold prefill. rewrite Hsum. split.
  - intros Hroom.
    destruct (UpdateIfExists_drains k f m ce e buf s HS Hk He Ha Hm Hlim Hroom)
      as (s' & Hrun & Hp & Hh & Hq & _ & Htk & Hcalls & Htr & F1 & _).
    fold fs newA newC in Hrun, Hp, Hh, Hq, Htk, Hcalls, Htr, F1.
    exists s'. split.
    { destruct (in_use s e =? 0)%nat; [ eexists; exact Hrun | exact Hrun ]. }
    split.
    { rewrite Hh. apply list_lookup_insert_eq. eapply lookup_lt_Some, He. }
    split; [ now rewrite <- replicate_add | ].
    split; [ exact Hq | ].
    split.
    { pose proof (kept_length f m buf (calls s) 0) as Hkl.
      pose proof (rebuilt_bound f m (length buf) (calls s) 0 Hm) as Hrb.
      fold fs in Hkl, Hrb. lia. }
    split; [ exact Hcalls | ]. split; [ exact Htr | ].
    intros i cv c Hi Hcv Hfull.
    assert (Hx : fs !! i = Some Excess).
    { apply fates_excess; [ eapply lookup_lt_Some, Hi | ]. fold fs. lia. }
    assert (Hout : cv ∉ kept buf fs)
      by (eapply kept_not_rebuilt; [ exact Hnd | exact Hi | exact Hx | reflexivity ]).
    split; [ exact Hx | ]. split.
    { eapply drained_in; [ exact Hi | exact Hcv | exact Hx | ].
      simpl. right. right. left. }
    split; [ rewrite F1 by exact Hout; exact Hcv | exact Hout ].
  - intros Hroom.
    destruct (UpdateIfExists_stuck k f m ce e buf s HS Hk He Ha Hm Hlim Hroom)
      as (s' & q & Hrun & _ & _ & Htk & Hq & Hlen).
    exists s', q. now repeat split.
Qed.


(** X13. [UpdateIfExists], to a bound that [make] accepts, on an entry of a
    pool in order of which a caller holds a cell: the call parks with the
    read lock of the pool taken, so that [AddAndAcquire] and
    [cleanupEntries] park as well.  When the new capacity channel has room
    for the tickets of the failed rebuilds, it has drained the idle cells and
    is parked on the emptied old queue, and the release of a cell that a
    caller holds puts that cell into this queue.  When more rebuilds fail
    than the channel has room for, it is parked on the ticket of a failed
    rebuild, with the channel full. *)
Theorem UpdateIfExists_waits_for_cells_in_use k f m ce e buf (s : Store) :
  Sound s → entries (pool s) !! k = Some ce → entryHeap s !! ce = Some e →
  cellChans s !! available e = Some (mkChan (maxCapacity e) buf) →
  in_use s e ≠ 0%nat → 0 ≤ m ≤ Z.of_N chanLimit →
  let fs := fates f m (length buf) (calls s) 0 in
  let prefill := Z.to_nat (m - Z.of_nat (length buf + in_use s e)) in
  ∃ s',
    UpdateIfExists k f m s = Blocked s' ∧
    c_lock (pool s') = {| writer := false; readers := 1 |} ∧
    entryHeap s' !! ce
    = Some (mkEntry freeRW (length (cellChans s)) (length (intChans s)) m f k) ∧
    (∀ ctx pick k' f' n' order,
       AddAndAcquire ctx pick k' f' n' s' = Blocked s' ∧
       cleanupEntries order s' = Blocked s') ∧
    (Z.of_nat (prefill + length (failures fs)) ≤ m →
       cellChans s' !! available e = Some (mkChan (maxCapacity e) []) ∧
       calls s' = (calls s + attempts fs)%nat ∧
       ∀ cv c, cellHeap s !! cv = Some c → held_for e c = true →
         ∃ s'', invoke (returnToCacheOf cv) s' = Done () s'' ∧
                cellChans s'' !! available e
                = Some (mkChan (maxCapacity e) [cv])) ∧
    (m < Z.of_nat (prefill + length (failures fs)) →
       intChans s' !! length (intChans s)
       = Some (mkChan m (replicate (Z.to_nat m) 1))).
Proof.
  intros HS Hk He Ha Hin [Hm Hlim] fs prefill.
  assert (Helt : (ce < length (entryHeap s))%nat) by (eapply lookup_lt_Some, He).
  destruct (Z_le_gt_dec (Z.of_nat (prefill + length (failures fs))) m)
    as [Hroom|Hroom].
  - destruct (UpdateIfExists_drains k f m ce e buf s HS Hk He Ha Hm Hlim Hroom)
      as (s' & Hrun & Hp & Hh & _ & Hold & _ & Hcalls & _ & F1 & _).
    fold fs in Hcalls, F1.
    apply Nat.eqb_neq in Hin. rewrite Hin in Hrun, Hp.
    exists s'. split; [ exact Hrun | ].
    split; [ now rewrite Hp | ].
    split; [ rewrite Hh; now apply list_lookup_insert_eq | ].
    split; [ intros; apply pool_read_locked_blocks; rewrite Hp; simpl; lia | ].
    split; [ | intros; lia ].
    intros _. split; [ exact Hold | ]. split; [ exact Hcalls | ].
    intros cv c Hcv Hheld.
    unfold held_for in Hheld. apply andb_true_iff in Hheld as [Hlk Hb].
    apply Nat.eqb_eq in Hb.
    assert (Hout : cv ∉ kept buf fs).
    { intros Hkept. apply kept_subset in Hkept.
      destruct HS as [_ (Hent & _ & _)].
      destruct (Hent k ce Hk) as (e0 & He0 & _ & _ & (b0 & t0 & Ha0 & _ & _ & Hq & _)).
      assert (e0 = e) as -> by congruence.
      assert (b0 = buf) as -> by congruence.
      rewrite Forall_forall in Hq. destruct (Hq cv Hkept) as (c0 & Hc0 & Hl0 & _).
      congruence. }
    assert (Hcv' : cellHeap s' !! cv = Some c) by (rewrite F1 by exact Hout; exact Hcv).
    assert (Hpos : 0 < maxCapacity e).
    { destruct HS as [_ (Hent & _ & _)].
      destruct (Hent k ce Hk) as (e0 & He0 & _ & _ & (b0 & t0 & Ha0 & Hc0 & _ & _ & Hcons)).
      assert (e0 = e) as -> by congruence.
      pose proof (conserved_elim _ _ _ _ _ _ Ha0 Hc0 Hcons).
      apply Nat.eqb_neq in Hin. lia. }
    eexists. split.
    + simpl invoke.
      eapply (returnToCache_run cv c (mkChan (maxCapacity e) []));
        [ exact Hcv' | exact Hlk | rewrite Hb; exact Hold
        | unfold chan_len; simpl; lia ].
    + simpl. rewrite Hb. apply list_lookup_insert_eq.
      eapply lookup_lt_Some, Hold.
  - assert (Hroom' : m < Z.of_nat (prefill + length (failures fs))) by lia.
    destruct (UpdateIfExists_stuck k f m ce e buf s HS Hk He Ha Hm Hlim Hroom')
      as (s' & q & Hrun & Hp & Hh & Htk & _).
    exists s'. split; [ exact Hrun | ].
    split; [ now rewrite Hp | ].
    split; [ rewrite Hh; now apply list_lookup_insert_eq | ].
    split; [ intros; apply pool_read_locked_blocks; rewrite Hp; simpl; lia | ].
    split; [ intros; lia | ]. intros _. exact Htk.
Qed.

(** C3 (as the code has it). [AddAndAcquire] on a key without entry, with a
    bound of at least one that [make] accepts: the entry is installed in the
    map with an empty available queue of that size and a capacity channel
    that got that many tickets; one ticket is taken and the factory is called
    once.  When the factory works, the new cell is acquired and returned with
    [false].  When it fails, the ticket is put back (the channel again holds
    as many tickets as the bound), the error is returned, no cell exists, and
    the entry is left in the map with the factory of this call.  An
    [AddAndAcquire] on the key that comes next, before any sweep, under a
    context that is not done, does not use the factory it is given but calls
    the stored one, and succeeds or fails as that one does.  In a pool in order, a sweep that runs after the failed
    call deletes the empty entry, and an [AddAndAcquire] that comes after it
    installs a new entry, with the factory and the bound that it is given. *)
Theorem AddAndAcquire_new_entry ctx pick k f n (s : Store) :
  c_lock (pool s) = freeRW → entries (pool s) !! k = None →
  1 ≤ n ≤ Z.of_N chanLimit →
  let entry := length (entryHeap s) in
  let av := length (cellChans s) in
  let cp := length (intChans s) in
  let cv := length (cellHeap s) in
  ∃ r s',
    AddAndAcquire ctx pick k f n s = Done r s' ∧
    entries (pool s') = <[k := entry]> (entries (pool s)) ∧
    entryHeap s' !! entry = Some (mkEntry freeRW av cp n f k) ∧
    cellChans s' !! av = Some (mkChan n []) ∧
    calls s' = S (calls s) ∧
    match f (calls s) with
    | inl v =>
        r = (v, returnToCacheOf cv, false, None) ∧
        intChans s' !! cp = Some (mkChan n (replicate (Z.to_nat n - 1) 1)) ∧
        cellHeap s' !! cv = Some (mkValue true av v (clock s))
    | inr err =>
        r = (inhabitant, NilReturnCapacityToCache, false, Some err) ∧
        intChans s' !! cp = Some (mkChan n (replicate (Z.to_nat n) 1)) ∧
        cellHeap s' = cellHeap s ∧
        (∀ ctx' pick' f' n', Err ctx' = None →
           ∃ s'',
             AddAndAcquire ctx' pick' k f' n' s'
             = Done (match f (S (calls s)) with
                     | inl v' => (v', returnToCacheOf cv, true, None)
                     | inr err' =>
                         (inhabitant, NilReturnCapacityToCache, true, Some err')
                     end) s'') ∧
        (Tidy s → ∀ order, ∃ s2,
           cleanupEntries order s' = Done () s2 ∧
           entries (pool s2) !! k = None ∧
           ∀ ctx' pick' f' n' v',
             1 ≤ n' ≤ Z.of_N chanLimit → f' (S (calls s)) = inl v' →
             ∃ s3 e3,
               AddAndAcquire ctx' pick' k f' n' s2
               = Done (v', returnToCacheOf cv, false, None) s3 ∧
               entries (pool s3) !! k = Some (S entry) ∧
               entryHeap s3 !! S entry = Some e3 ∧
               createValue e3 = f' ∧ maxCapacity e3 = n')
    end.
Proof.
  intros Hl Hnone [Hn Hlim]. cbv zeta.
  destruct (f (calls s)) as [v|err] eqn:Hf.
  - eexists _, _. split; [ eapply AddAndAcquire_new_ok; eassumption | ].
    repeat split; lk.
  - eexists _, _. split; [ eapply AddAndAcquire_new_fail; eassumption | ].
    split; [ reflexivity | ]. split; [ lk | ]. split; [ lk | ].
    split; [ reflexivity | ]. split; [ reflexivity | ]. split; [ lk | ].
    split; [ reflexivity | ].
    match goal with
    | |- (∀ _ _ _ _, _ → ∃ _, AddAndAcquire _ _ _ _ _ ?st = _) ∧ _ =>
        set (s1 := st)
    end.
    pose (e := mkEntry freeRW (length (cellChans s)) (length (intChans s)) n f k).
    assert (Hk1 : entries (pool s1) !! k = Some (length (entryHeap s)))
      by apply lookup_insert_eq.
    split.
    + intros ctx' pick' f' n' Hctx.
      assert (Hrep : replicate (Z.to_nat n) 1 = 1 :: replicate (Z.to_nat n - 1) 1).
      { destruct (Z.to_nat n) eqn:E; [lia|]. simpl. now rewrite Nat.sub_0_r. }
      assert (He : ∀ l, entryHeap (inside l s1) !! length (entryHeap s) = Some e)
        by (intros; lk).
      assert (Hqueue : ∀ l, cellChans (inside l s1) !! available e
                            = Some (mkChan n [])) by (intros; lk).
      assert (Htickets : ∀ l, intChans (inside l s1) !! capacity e
                              = Some (mkChan n (1 :: replicate (Z.to_nat n - 1) 1)))
        by (intros; rewrite <- Hrep; lk).
      assert (Hsel : ∀ l, select ctx' e pick' (inside l s1)
                          = Done AltCapacity (inside l s1)).
      { intros l. erewrite select_of_ready
          by (unfold ready; rewrite Hctx, Hqueue, Htickets; reflexivity).
        simpl length. now rewrite Nat.mod_1_r. }
      destruct (f (S (calls s))) as [v'|err'] eqn:Hf'.
      * eexists.
        eapply (AddAndAcquire_run ctx' pick' k f' n' _
                  (v', returnToCacheOf (length (cellHeap s)), None));
          [ reflexivity | exact Hk1 | | ].
        { etransitivity.
          { eapply (getValue_AltCapacity_ok _ e);
              [ apply He | reflexivity | apply Hsel | apply Htickets | exact Hf' ]. }
          apply Done_eq; reflexivity. }
        reflexivity.
      * eexists.
        eapply (AddAndAcquire_run ctx' pick' k f' n' _
                  (inhabitant, NilReturnCapacityToCache, Some err'));
          [ reflexivity | exact Hk1 | | ].
        { eapply (getValue_AltCapacity_fail _ e);
            [ apply He | reflexivity | apply Hsel | apply Htickets | | exact Hf' ].
          simpl. rewrite length_replicate. lia. }
        reflexivity.
    + intros HT order.
      assert (HT1 : Tidy s1).
      { eapply (Tidy_new_entry k f n _ s); try reflexivity; try assumption.
        left. split; [ reflexivity | ]. rewrite length_replicate. lia. }
      destruct (cleanupEntries_run order s1 eq_refl HT1)
        as (s2 & Hrun & _ & Hl2 & Hmap & Hh2 & Hc2 & _ & Hcalls2 & _).
      assert (Hvac : vacant s1 (length (entryHeap s)) = true).
      { unfold vacant.
        replace (entryHeap s1 !! length (entryHeap s)) with (Some e) by (symmetry; lk).
        replace (cellChans s1 !! available e) with (Some (mkChan n ([] : list nat)))
          by (symmetry; lk).
        simpl forallb. rewrite andb_true_l. apply Nat.eqb_eq.
        apply in_use_none. intros p. unfold held_at, hit.
        change (cellHeap s1) with (cellHeap s).
        destruct (cellHeap s !! p) as [c|] eqn:Hp; [ | reflexivity ].
        destruct HT as (_ & _ & Hfresh). apply Hfresh in Hp.
        unfold held_for. simpl.
        apply Nat.lt_neq, Nat.eqb_neq in Hp. rewrite Hp. apply andb_false_r. }
      assert (Hk2 : entries (pool s2) !! k = None)
        by (rewrite Hmap, Hk1, Hvac; reflexivity).
      exists s2. split; [ exact Hrun | ]. split; [ exact Hk2 | ].
      intros ctx' pick' f' n' v' [Hn' Hlim'] Hf'.
      eexists _, _. split.
      { assert (Hlen : length (cellHeap s2) = length (cellHeap s))
          by (rewrite Hc2; reflexivity).
        rewrite <- Hlen.
        eapply AddAndAcquire_new_ok; try eassumption.
        rewrite Hcalls2. exact Hf'. }
      assert (Hlen2 : length (entryHeap s2) = S (length (entryHeap s))).
      { rewrite Hh2. change (entryHeap s1) with (entryHeap s ++ [e]).
        rewrite length_app. simpl. lia. }
      split.
      * simpl. rewrite lookup_insert_eq. f_equal. exact Hlen2.
      * split.
        { simpl.
          etransitivity; [ apply (f_equal (λ i, _ !! i)); symmetry; exact Hlen2 | ].
          apply lookup_snoc. }
        split; reflexivity.
Qed.

(** ** A new pool *)

Lemma Sound_NewLRUCache now : Sound (NewLRUCache now : Store).
Proof.
  split; [ reflexivity | ]. split; [ | split ].
  - intros k ce Hk. simpl in Hk. now rewrite lookup_empty in Hk.
  - intros k1 k2 ce1 ce2 e1 e2 _ Hk1. simpl in Hk1. now rewrite lookup_empty in Hk1.
  - intros cv c Hcv. simpl in Hcv. now rewrite lookup_nil in Hcv.
Qed.

(** X3. The pool of [NewLRUCache] is in order and empty: [Keys] returns no
    key, [Get] finds no entry and launches no sweep, [UpdateIfExists] returns
    (false, nil), and the three leave the pool as it was. *)
Theorem NewLRUCache_is_empty now :
  let s0 : Store := NewLRUCache now in
  Sound s0 ∧
  (∀ order, Keys order s0 = Done [] s0) ∧
  (∀ ctx pick k,
     Get ctx pick k s0
     = Done (inhabitant, NilReturnCapacityToCache, false, None) s0) ∧
  (∀ k f m, UpdateIfExists k f m s0 = Done (false, None) s0).
Proof.
  intros s0. unfold s0.
  split; [ apply Sound_NewLRUCache | ]. split; [ | split ].
  - intros order. unfold Keys. step c_RLock_run. eapply defer_run.
    + step load_pool_run. simpl entries. unfold rangeEntries.
      rewrite map_to_list_empty. simpl. reflexivity.
    + reflexivity.
  - intros ctx pick k. rewrite Get_miss by reflexivity.
    apply Done_eq; [ reflexivity | ].
    unfold inside, checkedAt, sweepsAfter, dueSweep, NewLRUCache. simpl.
    rewrite Z.sub_diag. reflexivity.
  - intros k f m. now apply UpdateIfExists_miss.
Qed.

(** ** Idleness is counted from the acquisition *)


(** ** Pools with one key *)

(** A pool with one key is in order when its entry is. *)
Lemma Sound_single k e buf tk (s : Store) :
  c_lock (pool s) = freeRW → entries (pool s) = {[k := 0%nat]} →
  entryHeap s !! 0%nat = Some e → key e = k → ce_lock e = freeRW →
  cellChans s !! available e = Some (mkChan (maxCapacity e) buf) →
  intChans s !! capacity e = Some (mkChan (maxCapacity e) tk) →
  NoDup buf → Forall (queued_for s e) buf → conserved s e →
  Forall (λ c, (returnChan c < length (cellChans s))%nat) (cellHeap s) →
  Sound s.
Proof.
  intros Hl Hmap He Hkey Hlk Ha Hc Hnd Hq Hcons Hfresh.
  split; [ exact Hl | ]. split; [ | split ].
  - intros k2 ce2 Hk2. rewrite Hmap in Hk2.
    apply lookup_singleton_Some in Hk2 as [<- <-].
    exists e. repeat split; try assumption. exists buf, tk. now repeat split.
  - intros k1 k2 ce1 ce2 e1 e2 Hne Hk1 Hk2. rewrite Hmap in Hk1, Hk2.
    apply lookup_singleton_Some in Hk1 as [<- _].
    apply lookup_singleton_Some in Hk2 as [<- _]. contradiction.
  - intros cv c Hcv. rewrite Forall_forall in Hfresh. apply Hfresh.
    eapply list_elem_of_lookup_2, Hcv.
Qed.

(** ** The launch of the sweep *)

(** X16. On a pool in order, a call of [Get] or of [AddAndAcquire] (with a
    bound of at least one that [make] accepts when the key is new) that
    returns, with a value, with an error or without having found the key,
    has launched one sweep and stamped the time of the last check with the
    time it read when five minutes or more had passed since the last check;
    otherwise it has launched none and left the time of the last check. *)
Theorem sweep_is_launched_when_due ctx pick k f n (s : Store) :
  Sound s → (entries (pool s) !! k = None → 1 ≤ n ≤ Z.of_N chanLimit) →
  (∀ r s', Get ctx pick k s = Done r s' →
     if dueSweep s
     then sweeps s' = S (sweeps s) ∧ lastChecked (pool s') = clock s
     else sweeps s' = sweeps s ∧ lastChecked (pool s') = lastChecked (pool s)) ∧
  (∀ r s', AddAndAcquire ctx pick k f n s = Done r s' →
     if dueSweep s
     then sweeps s' = S (sweeps s) ∧ lastChecked (pool s') = clock s
     else sweeps s' = sweeps s ∧ lastChecked (pool s') = lastChecked (pool s)).
Proof.
  intros [Hl HT] Hn.
  assert (Hfin : ∀ s' : Store,
            sweeps s' = sweepsAfter s → lastChecked (pool s') = checkedAt s →
            if dueSweep s
            then sweeps s' = S (sweeps s) ∧ lastChecked (pool s') = clock s
            else sweeps s' = sweeps s ∧
                 lastChecked (pool s') = lastChecked (pool s)).
  { intros s' H1 H2. unfold sweepsAfter, checkedAt in *.
    now destruct (dueSweep s). }
  destruct (entries (pool s) !! k) as [ce|] eqn:Hk.
  - destruct (HT) as (Hent & _ & _).
    destruct (Hent k ce Hk) as (e & He & _).
    split; intros r s' Hrun.
    + set (s1 := inside {| writer := false; readers := 1 |} s) in *.
      pose proof (getValue_Tidy k ce e ctx pick s1 (Tidy_inside _ s HT) Hk He) as Hg.
      destruct (getValue ce ctx pick s1) as [r2 s2|s2|s2|s2] eqn:Hget;
        [ | | contradiction | contradiction ].
      * destruct Hg as (_ & Hp2 & _ & _ & Hsw2 & _).
        rewrite (Get_run ctx pick k ce r2 s s2 Hl Hk Hget ltac:(now rewrite Hp2))
          in Hrun.
        injection Hrun as _ <-. apply Hfin; simpl.
        -- exact Hsw2.
        -- now rewrite Hp2.
      * rewrite (Get_parks ctx pick k ce s s2 Hl Hk Hget) in Hrun. discriminate.
    + set (s1 := inside {| writer := true; readers := 0 |} s) in *.
      pose proof (getValue_Tidy k ce e ctx pick s1 (Tidy_inside _ s HT) Hk He) as Hg.
      destruct (getValue ce ctx pick s1) as [r2 s2|s2|s2|s2] eqn:Hget;
        [ | | contradiction | contradiction ].
      * destruct Hg as (_ & Hp2 & _ & _ & Hsw2 & _).
        rewrite (AddAndAcquire_run ctx pick k f n ce r2 s s2 Hl Hk Hget
                   ltac:(now rewrite Hp2)) in Hrun.
        injection Hrun as _ <-. apply Hfin; simpl.
        -- exact Hsw2.
        -- now rewrite Hp2.
      * rewrite (AddAndAcquire_parks ctx pick k f n ce s s2 Hl Hk Hget) in Hrun.
        discriminate.
  - destruct (Hn eq_refl) as [Hn1 Hlim]. split; intros r s' Hrun.
    + rewrite Get_miss in Hrun by (try exact Hk; now rewrite Hl).
      injection Hrun as _ <-. now apply Hfin.
    + destruct (f (calls s)) as [v|err] eqn:Hf.
      * rewrite (AddAndAcquire_new_ok ctx pick k f n v s Hl Hk Hn1 Hlim Hf) in Hrun.
        injection Hrun as _ <-. now apply Hfin.
      * rewrite (AddAndAcquire_new_fail ctx pick k f n err s Hl Hk Hn1 Hlim Hf) in Hrun.
        injection Hrun as _ <-. now apply Hfin.
Qed.
End Proofs.

(** * Runs of a pool of numbered resources *)

(** C1. Capacity conservation holds for the entry of key 1 when both its
    cells are idle, and [UpdateIfExists] to the bound 1, with a factory that
    fails for the first cell and works for the second, breaks it: the call
    returns without error and leaves one idle cell and one ticket under a
    bound of 1, so that two acquisitions in a row both succeed and two cells
    are then in use. *)
Theorem UpdateIfExists_breaks_conservation :
  conserved twoIdle (entry1 working) ∧
  UpdateIfExists 1%nat (brokenAt 2) 1 twoIdle = Done (true, None) shrunk ∧
  entryHeap shrunk !! 0%nat = Some entry1' ∧
  cellChans shrunk !! available entry1' = Some (mkChan 1 [1%nat]) ∧
  intChans shrunk !! capacity entry1' = Some (mkChan 1 [1]) ∧
  in_use shrunk entry1' = 0%nat ∧
  census shrunk entry1' = Some 2 ∧
  maxCapacity entry1' = 1 ∧
  ¬ conserved shrunk entry1' ∧
  ∃ s1 s2,
    Get Background 0 1%nat shrunk = Done (103%nat, returnToCacheOf 1, true, None) s1 ∧
    Get Background 0 1%nat s1 = Done (104%nat, returnToCacheOf 2, true, None) s2 ∧
    in_use s2 entry1' = 2%nat.
Proof.
  split; [ vm_compute; reflexivity | ].
  split; [ vm_compute; reflexivity | ].
  split; [ vm_compute; reflexivity | ].
  split; [ vm_compute; reflexivity | ].
  split; [ vm_compute; reflexivity | ].
  split; [ vm_compute; reflexivity | ].
  split; [ vm_compute; reflexivity | ].
  split; [ reflexivity | ].
  split; [ intros Hc; vm_compute in Hc; discriminate | ].
  eexists _, _. split; [ vm_compute; reflexivity | ].
  split; vm_compute; reflexivity.
Qed.

(** ** Instances of the theorems *)

Lemma getValue_failure_and_cancellation_witness :
  (entryHeap noCell !! 0%nat = Some (entry1 broken) ∧
   writer (ce_lock (entry1 broken)) = false) ∧
  (∃ s', getValue 0 Background 0 noCell
         = Done (0%nat, NilReturnCapacityToCache, Some (Failure 7)) s' ∧
         intChans s' !! 0%nat = Some (mkChan 2 [1; 1])) ∧
  getValue 0 Cancelled 0 noCell
  = Done (0%nat, NilReturnCapacityToCache, Some Canceled) noCell.
Proof.
  assert (He : entryHeap noCell !! 0%nat = Some (entry1 broken)) by (vm_compute; reflexivity).
  assert (Hw : writer (ce_lock (entry1 broken)) = false) by (vm_compute; reflexivity).
  split; [ split; [ exact He | exact Hw ] | ].
  split.
  - destruct (getValue_failure_and_cancellation 0 (entry1 broken) Background 0
                noCell He Hw) as [Hfail _].
    destruct (Hfail (mkChan 2 [1; 1]) (Failure 7)) as (s' & Hrun & Hc & _);
      [ vm_compute; reflexivity | vm_compute; reflexivity
      | vm_compute; discriminate | vm_compute; reflexivity | ].
    exists s'. split; [ exact Hrun | exact Hc ].
  - destruct (getValue_failure_and_cancellation 0 (entry1 broken) Cancelled 0
                noCell He Hw) as [_ Hcancel].
    destruct Hcancel as [_ Hrun]; [ vm_compute; reflexivity | exact Hrun ].
Defined.

Lemma cleanupValues_sweeps_idle_cells_witness :
  (entryHeap twoStale !! 0%nat = Some (entry1 working) ∧
   cellChans twoStale !! 0%nat = Some (mkChan 2 [0%nat; 1%nat]) ∧
   intChans twoStale !! 0%nat = Some (mkChan 2 []) ∧
   Forall (idle_cell twoStale) [0%nat; 1%nat]) ∧
  ∃ s',
    cleanupValues 0 twoStale = Done true s' ∧
    cellChans s' !! 0%nat = Some (mkChan 2 []) ∧
    intChans s' !! 0%nat = Some (mkChan 2 [1; 1]) ∧
    trace s' = trace twoStale ++
               [EvRecv 0 0; EvLock 0; EvClose 0 100%nat; EvUnlock 0;
                EvRecv 0 1; EvLock 1; EvClose 1 101%nat; EvUnlock 1].
Proof.
  assert (H1 : entryHeap twoStale !! 0%nat = Some (entry1 working)) by (vm_compute; reflexivity).
  assert (H2 : cellChans twoStale !! available (entry1 working)
               = Some (mkChan 2 [0%nat; 1%nat])) by (vm_compute; reflexivity).
  assert (H3 : intChans twoStale !! capacity (entry1 working) = Some (mkChan 2 []))
    by (vm_compute; reflexivity).
  assert (H4 : Forall (idle_cell twoStale) [0%nat; 1%nat]).
  { repeat constructor; eexists; split; vm_compute; reflexivity. }
  split; [ repeat split; assumption | ].
  destruct (cleanupValues_sweeps_idle_cells 0 (entry1 working)
              (mkChan 2 [0%nat; 1%nat]) (mkChan 2 []) twoStale H1 eq_refl H2 H3 H4)
    as (s' & Hrun & Hq & Ht & Htr & _);
    [ vm_compute; discriminate | vm_compute; discriminate | ].
  vm_compute in Hrun, Hq, Ht, Htr.
  exists s'. split; [ exact Hrun | ]. split; [ exact Hq | ].
  split; [ exact Ht | vm_compute; exact Htr ].
Defined.

Lemma returnToCache_send_then_unlock_witness :
  (cellHeap oneHeld !! 0%nat = Some (mkValue true 0 100%nat 0) ∧
   cellChans oneHeld !! 0%nat = Some (mkChan 2 []) ∧
   conserved oneHeld (entry1 working)) ∧
  ∃ s1 s2 : @Store K0 _ _ V0,
    returnToCache 0 oneHeld = Done () s2 ∧
    trace s2 = trace oneHeld ++ [EvSend 0 0; EvUnlock 0] ∧
    cellChans s1 !! 0%nat = Some (mkChan 2 [0%nat]) ∧
    cellHeap s1 !! 0%nat = Some (mkValue true 0 100%nat 0) ∧
    acquireFromCache 0 s1 = Blocked s1.
Proof.
  assert (H1 : cellHeap oneHeld !! 0%nat = Some (mkValue true 0 100%nat 0))
    by (vm_compute; reflexivity).
  assert (H2 : cellChans oneHeld !! available (entry1 working) = Some (mkChan 2 []))
    by (vm_compute; reflexivity).
  assert (H3 : conserved oneHeld (entry1 working)) by (vm_compute; reflexivity).
  split; [ repeat split; assumption | ].
  destruct (returnToCache_send_then_unlock 0 (mkValue true 0 100%nat 0)
              (entry1 working) (mkChan 2 []) oneHeld H1 eq_refl eq_refl H2 eq_refl H3)
    as (s1 & s2 & _ & _ & Hrun & _ & Htr & Hq & Hc & Hpark & _).
  pose proof (Hpark s1 Hc) as Hparked.
  vm_compute in Htr, Hq.
  exists s1, s2. split; [ exact Hrun | ]. split; [ vm_compute; exact Htr | ].
  split; [ exact Hq | ]. split; [ exact Hc | exact Hparked ].
Defined.

Lemma getAvailableCapacity_counts_and_restores_witness :
  (entryHeap oneHeld !! 0%nat = Some (entry1 working) ∧
   intChans oneHeld !! 0%nat = Some (mkChan 2 [1])) ∧
  getAvailableCapacity 0 oneHeld = Done 1 oneHeld.
Proof.
  assert (H1 : entryHeap oneHeld !! 0%nat = Some (entry1 working)) by (vm_compute; reflexivity).
  assert (H2 : intChans oneHeld !! capacity (entry1 working) = Some (mkChan 2 [1]))
    by (vm_compute; reflexivity).
  split; [ split; assumption | ].
  destruct (getAvailableCapacity_counts_and_restores 0 (entry1 working)
              (mkChan 2 [1]) oneHeld H1 H2)
    as (s' & Hrun & _ & _ & _ & _ & _ & _ & _ & Hsame);
    [ vm_compute; discriminate | ].
  rewrite Hsame in Hrun by (repeat constructor). exact Hrun.
Defined.

Lemma release_then_Get_witness :
  (c_lock (pool fresh) = freeRW ∧ entries (pool fresh) !! 1%nat = None ∧
   1 ≤ Z.of_N chanLimit) ∧
  ∃ s1 s2 s3,
    AddAndAcquire Background 0 1%nat working 1 fresh
    = Done (100%nat, returnToCacheOf 0, false, None) s1 ∧
    invoke (returnToCacheOf 0) s1 = Done () s2 ∧
    Get Background 5 1%nat s2 = Done (100%nat, returnToCacheOf 0, true, None) s3.
Proof.
  assert (H1 : c_lock (pool fresh) = freeRW) by (vm_compute; reflexivity).
  assert (H2 : entries (pool fresh) !! 1%nat = None) by (vm_compute; reflexivity).
  assert (H3 : 1 ≤ Z.of_N chanLimit) by (vm_compute; discriminate).
  split; [ split; [ exact H1 | split; [ exact H2 | exact H3 ] ] | ].
  destruct (release_then_Get Background 0 Background 1%nat working 1 100%nat fresh
              H1 H2 ltac:(lia) H3 eq_refl eq_refl)
    as (s1 & s2 & Hadd & Hrel & Hone & _).
  destruct (Hone eq_refl 5%nat) as (s3 & Hget).
  vm_compute in Hadd.
  exists s1, s2, s3. split; [ exact Hadd | ]. split; [ exact Hrel | exact Hget ].
Defined.

Lemma AddAndAcquire_existing_entry_witness :
  entries (pool oneHeld) !! 1%nat = Some 0%nat ∧
  AddAndAcquire Background 0 1%nat broken 7 oneHeld
  = AddAndAcquire Background 0 1%nat working 2 oneHeld ∧
  ∃ s', AddAndAcquire Background 0 1%nat broken 7 oneHeld
        = Done (101%nat, returnToCacheOf 1, true, None) s' ∧
        same_entries oneHeld s'.
Proof.
  assert (H1 : entries (pool oneHeld) !! 1%nat = Some 0%nat) by (vm_compute; reflexivity).
  split; [ exact H1 | ].
  destruct (AddAndAcquire_existing_entry Background 0 1%nat working 2 0 oneHeld H1)
    as (Hargs & _ & Hkeep).
  split; [ apply Hargs | ].
  eexists. split; [ vm_compute; reflexivity | ].
  eapply Hkeep. rewrite <- (Hargs broken 7). vm_compute. reflexivity.
Defined.

(** ** Where the code departs from the claims *)

(** C3. After a first call whose factory fails, a second call with a factory
    that works still fails: the entry kept the first factory.  And with a
    bound of zero the first call never returns. *)
Lemma AddAndAcquire_retry_uses_stored_factory :
  ∃ s1 s2 s3,
    AddAndAcquire Background 0 1%nat broken 2 fresh
    = Done (0%nat, NilReturnCapacityToCache, false, Some (Failure 7)) s1 ∧
    working (calls s1) = inl 101%nat ∧
    AddAndAcquire Background 0 1%nat working 2 s1
    = Done (0%nat, NilReturnCapacityToCache, true, Some (Failure 7)) s2 ∧
    AddAndAcquire Background 0 1%nat working 0 fresh = Blocked s3.
Proof.
  eexists _, _, _. split; [ vm_compute; reflexivity | ].
  split; [ vm_compute; reflexivity | ].
  split; vm_compute; reflexivity.
Qed.


(** C7. Between the send and the unlock of [returnToCache] an observer takes
    the cell from the queue while the caller that returns it still holds its
    lock. *)
Lemma returnToCache_cell_visible_while_locked :
  ∃ s1 s2 s3,
    (c ← load_cell 0; send_cell (returnChan c) 0) oneHeld = Done () s1 ∧
    cv_Unlock 0 s1 = Done () s2 ∧
    returnToCache 0 oneHeld = Done () s2 ∧
    recv_cell 0 s1 = Done 0%nat s3 ∧
    cv_lock <$> cellHeap s3 !! 0%nat = Some true ∧
    acquireFromCache 0 s3 = Blocked s3.
Proof.
  eexists _, _, _. split; [ vm_compute; reflexivity | ].
  split; [ vm_compute; reflexivity | ].
  split; [ vm_compute; reflexivity | ].
  split; [ vm_compute; reflexivity | ].
  split; vm_compute; reflexivity.
Qed.

(** C9. With a bound of two, acquire, release and [Get] can return a second,
    freshly built cell instead of the released one. *)
Lemma Get_after_release_may_build :
  ∃ s1 s2 s3,
    AddAndAcquire Background 0 1%nat working 2 fresh
    = Done (100%nat, returnToCacheOf 0, false, None) s1 ∧
    invoke (returnToCacheOf 0) s1 = Done () s2 ∧
    Get Background 1 1%nat s2 = Done (101%nat, returnToCacheOf 1, true, None) s3 ∧
    returnToCacheOf 1 ≠ returnToCacheOf 0.
Proof.
  eexists _, _, _. split; [ vm_compute; reflexivity | ].
  split; [ vm_compute; reflexivity | ].
  split; [ vm_compute; reflexivity | discriminate ].
Qed.

(** * The pools of the runs are in order *)

Lemma Sound_fresh : Sound fresh.
Proof. apply Sound_NewLRUCache. Qed.

Lemma Sound_one (s : @Store K0 _ _ V0) :
  pool s = pool oneHeld → entryHeap s = entryHeap oneHeld →
  cellHeap s = cellHeap oneHeld → cellChans s = cellChans oneHeld →
  intChans s = intChans oneHeld → Sound s.
Proof.
  intros Hp Hh Hc Hcc Hic.
  apply (Sound_single 1%nat (entry1 working) [] [1]); unfold K0, V0 in *.
  - rewrite Hp. vm_compute; reflexivity.
  - rewrite Hp. vm_compute; reflexivity.
  - rewrite Hh. vm_compute; reflexivity.
  - reflexivity.
  - reflexivity.
  - rewrite Hcc. vm_compute; reflexivity.
  - rewrite Hic. vm_compute; reflexivity.
  - apply NoDup_nil_2.
  - apply Forall_nil_2.
  - unfold conserved, census, in_use. rewrite Hcc, Hic, Hc. vm_compute; reflexivity.
  - rewrite Hc, Hcc. vm_compute. repeat constructor.
Qed.

Lemma Sound_oneHeld : Sound oneHeld.
Proof. apply Sound_one; vm_compute; reflexivity. Qed.


Lemma Sound_two (s : @Store K0 _ _ V0) :
  pool s = pool twoIdle → entryHeap s = entryHeap twoIdle →
  cellHeap s = cellHeap twoIdle → cellChans s = cellChans twoIdle →
  intChans s = intChans twoIdle → Sound s.
Proof.
  intros Hp Hh Hc Hcc Hic.
  apply (Sound_single 1%nat (entry1 working) [0%nat; 1%nat] []); unfold K0, V0 in *.
  - rewrite Hp. vm_compute; reflexivity.
  - rewrite Hp. vm_compute; reflexivity.
  - rewrite Hh. vm_compute; reflexivity.
  - reflexivity.
  - reflexivity.
  - rewrite Hcc. vm_compute; reflexivity.
  - rewrite Hic. vm_compute; reflexivity.
  - apply NoDup_cons. split; [ | apply NoDup_singleton ].
    intros Hin. apply list_elem_of_singleton in Hin. discriminate.
  - repeat constructor.
    + exists (mkValue false 0 100%nat 0). rewrite Hc.
      split; [ vm_compute; reflexivity | now split ].
    + exists (mkValue false 0 101%nat 0). rewrite Hc.
      split; [ vm_compute; reflexivity | now split ].
  - unfold conserved, census, in_use. rewrite Hcc, Hic, Hc. vm_compute; reflexivity.
  - rewrite Hc, Hcc. vm_compute. repeat constructor.
Qed.

Lemma Sound_twoIdle : Sound twoIdle.
Proof. apply Sound_two; vm_compute; reflexivity. Qed.

Lemma Sound_twoStale : Sound twoStale.
Proof. apply Sound_two; vm_compute; reflexivity. Qed.

Lemma Sound_twoHeld : Sound twoHeld.
Proof.
  apply (Sound_single 1%nat (entry1 working) [] []); unfold K0, V0 in *.
  - vm_compute; reflexivity.
  - vm_compute; reflexivity.
  - vm_compute; reflexivity.
  - reflexivity.
  - reflexivity.
  - vm_compute; reflexivity.
  - vm_compute; reflexivity.
  - apply NoDup_nil_2.
  - apply Forall_nil_2.
  - vm_compute; reflexivity.
  - vm_compute. repeat constructor.
Qed.

Lemma bound_is_enforced_witness :
  (Sound twoHeld ∧ entries (pool twoHeld) !! 1%nat = Some 0%nat ∧
   entryHeap twoHeld !! 0%nat = Some (entry1 working)) ∧
  Z.of_nat (in_use twoHeld (entry1 working)) ≤ 2 ∧
  Z.of_nat (in_use twoHeld (entry1 working)) = 2 ∧
  ∃ s', Get Background 0 1%nat twoHeld = Blocked s'.
Proof.
  assert (Hk : entries (pool twoHeld) !! 1%nat = Some 0%nat) by (vm_compute; reflexivity).
  assert (He : entryHeap twoHeld !! 0%nat = Some (entry1 working))
    by (vm_compute; reflexivity).
  assert (Hfull : Z.of_nat (in_use twoHeld (entry1 working))
                  = maxCapacity (entry1 working)) by (vm_compute; reflexivity).
  split; [ split; [ exact Sound_twoHeld | split; [ exact Hk | exact He ] ] | ].
  destruct (bound_is_enforced Background 0 1%nat 0 (entry1 working) twoHeld
              Sound_twoHeld Hk He) as [Hle Hwait].
  split; [ exact Hle | ]. split; [ exact Hfull | ].
  exact (Hwait Hfull).
Defined.

(** ** Instances of the theorems on pools in order *)

Lemma AddAndAcquire_new_entry_witness :
  (c_lock (pool fresh) = freeRW ∧ entries (pool fresh) !! 1%nat = None ∧
   1 ≤ 2 ≤ Z.of_N chanLimit ∧ Tidy fresh) ∧
  ∃ s',
    AddAndAcquire Background 0 1%nat broken 2 fresh
    = Done (0%nat, NilReturnCapacityToCache, false, Some (Failure 7)) s' ∧
    entries (pool s') !! 1%nat = Some 0%nat ∧
    intChans s' !! 0%nat = Some (mkChan 2 [1; 1]) ∧
    (∃ s'', AddAndAcquire Background 0 1%nat working 2 s'
            = Done (0%nat, NilReturnCapacityToCache, true, Some (Failure 7)) s'') ∧
    ∃ s2 s3,
      cleanupEntries 0 s' = Done () s2 ∧
      entries (pool s2) !! 1%nat = None ∧
      AddAndAcquire Background 0 1%nat working 2 s2
      = Done (101%nat, returnToCacheOf 0, false, None) s3.
Proof.
  assert (H1 : c_lock (pool fresh) = freeRW) by (vm_compute; reflexivity).
  assert (H2 : entries (pool fresh) !! 1%nat = None) by (vm_compute; reflexivity).
  assert (H3 : 1 ≤ 2 ≤ Z.of_N chanLimit) by (split; vm_compute; discriminate).
  assert (H4 : Tidy fresh) by apply Sound_fresh.
  split; [ split; [ exact H1 | split; [ exact H2 | split; [ exact H3 | exact H4 ] ] ] | ].
  destruct (AddAndAcquire_new_entry Background 0 1%nat broken 2 fresh H1 H2 H3)
    as (r & s' & Hrun & Hmap & _ & _ & _ & Hcase).
  change (broken (calls fresh)) with (@inr V0 error (Failure 7)) in Hcase.
  cbv iota in Hcase.
  destruct Hcase as (Hr & Htickets & _ & Hnext & Hswept).
  rewrite Hr in Hrun.
  exists s'. split; [ exact Hrun | ].
  split; [ rewrite Hmap; vm_compute; reflexivity | ].
  split; [ exact Htickets | ].
  split; [ exact (Hnext Background 0%nat working 2 eq_refl) | ].
  destruct (Hswept H4 0%nat) as (s2 & Hsweep & Hgone & Hagain).
  destruct (Hagain Background 0%nat working 2 101%nat H3 eq_refl)
    as (s3 & e3 & Hrun3 & _).
  exists s2, s3. split; [ exact Hsweep | ]. split; [ exact Hgone | exact Hrun3 ].
Defined.


Lemma UpdateIfExists_prefill_and_overflow_witness :
  (Sound twoIdle ∧ entries (pool twoIdle) !! 1%nat = Some 0%nat ∧
   entryHeap twoIdle !! 0%nat = Some (entry1 working) ∧
   cellChans twoIdle !! 0%nat = Some (mkChan 2 [0%nat; 1%nat]) ∧
   intChans twoIdle !! 0%nat = Some (mkChan 2 []) ∧
   0 ≤ 1 ≤ Z.of_N chanLimit) ∧
  ∃ s' err,
    UpdateIfExists 1%nat working 1 twoIdle = Done (true, err) s' ∧
    intChans s' !! 1%nat = Some (mkChan 1 []) ∧
    cellChans s' !! 1%nat = Some (mkChan 1 [0%nat]) ∧
    calls s' = S (calls twoIdle) ∧
    trace s' = trace twoIdle ++
               [EvRecv 0 0; EvLock 0; EvClose 0 100%nat; EvCreate (inl 102%nat);
                EvUnlock 0; EvSend 1 0;
                EvRecv 0 1; EvLock 1; EvClose 1 101%nat; EvUnlock 1] ∧
    cellHeap s' !! 1%nat = cellHeap twoIdle !! 1%nat.
Proof.
  assert (H2 : entries (pool twoIdle) !! 1%nat = Some 0%nat) by (vm_compute; reflexivity).
  assert (H3 : entryHeap twoIdle !! 0%nat = Some (entry1 working)) by (vm_compute; reflexivity).
  assert (H4 : cellChans twoIdle !! available (entry1 working)
               = Some (mkChan (maxCapacity (entry1 working)) [0%nat; 1%nat]))
    by (vm_compute; reflexivity).
  assert (H5 : intChans twoIdle !! capacity (entry1 working)
               = Some (mkChan (maxCapacity (entry1 working)) []))
    by (vm_compute; reflexivity).
  assert (H6 : 0 ≤ 1 ≤ Z.of_N chanLimit) by (split; vm_compute; discriminate).
  split.
  { split; [ exact Sound_twoIdle | ]. split; [ exact H2 | ]. split; [ exact H3 | ].
    split; [ exact H4 | ]. split; [ exact H5 | exact H6 ]. }
  destruct (UpdateIfExists_prefill_and_overflow 1%nat working 1 0 (entry1 working)
              [0%nat; 1%nat] [] twoIdle Sound_twoIdle H2 H3 H4 H5 H6)
    as (_ & _ & Hfits & _).
  destruct Hfits as (s' & Hrun & _ & Htickets & Hqueue & _ & Hcalls & Htrace & Hover);
    [ vm_compute; discriminate | ].
  vm_compute in Hrun. destruct Hrun as [err Hrun].
  destruct (Hover 1%nat 1%nat (mkValue false 0 101%nat 0))
    as (_ & _ & Hsame & _);
    [ reflexivity | vm_compute; reflexivity | vm_compute; discriminate | ].
  vm_compute in Htickets, Hqueue, Hcalls.
  exists s', err. split; [ vm_compute; exact Hrun | ]. split; [ exact Htickets | ].
  split; [ exact Hqueue | ]. split; [ vm_compute; exact Hcalls | ].
  split; [ rewrite Htrace; vm_compute; reflexivity | ].
  rewrite Hsame. vm_compute. reflexivity.
Defined.

(** * Instances of the theorems on pools in order *)

Lemma missing_key_is_reported_witness :
  (writer (c_lock (pool twoStale)) = false ∧
   entries (pool twoStale) !! 2%nat = None) ∧
  (∃ s', Get Background 0 2%nat twoStale
         = Done (0%nat, NilReturnCapacityToCache, false, None) s' ∧
         sweeps s' = 1%nat ∧ lastChecked (pool s') = 31 * Minute) ∧
  UpdateIfExists 2%nat working 5 twoStale = Done (false, None) twoStale.
Proof.
  assert (Hw : writer (c_lock (pool twoStale)) = false) by (vm_compute; reflexivity).
  assert (Hk : entries (pool twoStale) !! 2%nat = None) by (vm_compute; reflexivity).
  split; [ split; [ exact Hw | exact Hk ] | ].
  destruct (missing_key_is_reported Background 0 2%nat working 5 twoStale Hw Hk)
    as [Hg Hu].
  split; [ | exact Hu ].
  eexists. split; [ exact Hg | ]. split; vm_compute; reflexivity.
Defined.

Lemma Keys_lists_every_key_once_witness :
  writer (c_lock (pool twoIdle)) = false ∧
  ∃ keys, Keys 0 twoIdle = Done keys twoIdle ∧ length keys = 1%nat ∧
          1%nat ∈ keys.
Proof.
  assert (Hw : writer (c_lock (pool twoIdle)) = false) by (vm_compute; reflexivity).
  split; [ exact Hw | ].
  destruct (Keys_lists_every_key_once 0 twoIdle Hw) as (keys & Hrun & _ & Hin & Hlen).
  exists keys. split; [ exact Hrun | ]. split.
  - rewrite Hlen. vm_compute; reflexivity.
  - apply Hin. exists 0%nat. vm_compute; reflexivity.
Defined.

Lemma AddAndAcquire_zero_capacity_wedges_witness :
  (c_lock (pool fresh) = freeRW ∧ entries (pool fresh) !! 1%nat = None) ∧
  ∃ s', AddAndAcquire Background 0 1%nat working 0 fresh = Blocked s' ∧
        Get Cancelled 0 1%nat s' = Blocked s' ∧
        UpdateIfExists 1%nat working 2 s' = Blocked s'.
Proof.
  assert (Hl : c_lock (pool fresh) = freeRW) by (vm_compute; reflexivity).
  assert (Hk : entries (pool fresh) !! 1%nat = None) by (vm_compute; reflexivity).
  split; [ split; [ exact Hl | exact Hk ] | ].
  destruct (AddAndAcquire_zero_capacity_wedges Background 0 1%nat working fresh Hl Hk)
    as (s' & Hrun & _ & _ & Hall).
  exists s'. split; [ exact Hrun | ].
  destruct (Hall Cancelled 0%nat 1%nat working 2 0%nat) as (_ & Hg & Hu & _).
  split; [ exact Hg | exact Hu ].
Defined.

Lemma bound_out_of_range_panics_witness :
  ((-1 < 0 ∨ Z.of_N chanLimit < -1) ∧
   (4611686018427387904 < 0 ∨ Z.of_N chanLimit < 4611686018427387904)) ∧
  AddAndAcquire Background 0 1%nat working (-1) fresh = Panic fresh ∧
  AddAndAcquire Background 0 1%nat working 4611686018427387904 fresh
  = Panic fresh ∧
  UpdateIfExists 1%nat working (-1) twoIdle = Panic twoIdle.
Proof.
  assert (Hn : -1 < 0 ∨ Z.of_N chanLimit < -1) by (left; lia).
  assert (Hbig : 4611686018427387904 < 0
                 ∨ Z.of_N chanLimit < 4611686018427387904)
    by (right; vm_compute; reflexivity).
  split; [ split; [ exact Hn | exact Hbig ] | ].
  destruct (bound_out_of_range_panics 1%nat working (-1) fresh Hn) as [Hadd _].
  destruct (bound_out_of_range_panics 1%nat working 4611686018427387904 fresh Hbig)
    as [Hadd' _].
  destruct (bound_out_of_range_panics 1%nat working (-1) twoIdle Hn) as [_ Hupd].
  split; [ | split ].
  - rewrite (Hadd Background 0%nat) by (vm_compute; reflexivity).
    vm_compute. reflexivity.
  - rewrite (Hadd' Background 0%nat) by (vm_compute; reflexivity).
    vm_compute. reflexivity.
  - apply (Hupd 0%nat); vm_compute; reflexivity.
Defined.

Lemma exhausted_entry_waits_witness :
  (c_lock (pool twoHeld) = freeRW ∧ entries (pool twoHeld) !! 1%nat = Some 0%nat ∧
   entryHeap twoHeld !! 0%nat = Some (entry1 working) ∧
   cellChans twoHeld !! 0%nat = Some (mkChan 2 []) ∧
   intChans twoHeld !! 0%nat = Some (mkChan 2 [])) ∧
  (∃ s', Get Background 0 1%nat twoHeld = Blocked s') ∧
  Get Cancelled 0 1%nat twoHeld
  = Done (0%nat, NilReturnCapacityToCache, true, Some Canceled) twoHeld.
Proof.
  assert (Hl : c_lock (pool twoHeld) = freeRW) by (vm_compute; reflexivity).
  assert (Hk : entries (pool twoHeld) !! 1%nat = Some 0%nat) by (vm_compute; reflexivity).
  assert (He : entryHeap twoHeld !! 0%nat = Some (entry1 working))
    by (vm_compute; reflexivity).
  assert (Ha : cellChans twoHeld !! available (entry1 working) = Some (mkChan 2 []))
    by (vm_compute; reflexivity).
  assert (Hc : intChans twoHeld !! capacity (entry1 working) = Some (mkChan 2 []))
    by (vm_compute; reflexivity).
  split; [ now repeat split | ].
  pose proof (exhausted_entry_waits Background 0 1%nat 0 (entry1 working) 2 2 twoHeld
                Hl Hk He eq_refl Ha Hc) as Hlive.
  pose proof (exhausted_entry_waits Cancelled 0 1%nat 0 (entry1 working) 2 2 twoHeld
                Hl Hk He eq_refl Ha Hc) as Hdone.
  simpl in Hlive, Hdone. destruct Hlive as [Hlive _]. destruct Hdone as [Hdone _].
  split; [ exact Hlive | ].
  etransitivity; [ exact Hdone | ]. vm_compute; reflexivity.
Defined.

Lemma Get_keeps_Sound_witness :
  Sound twoIdle ∧
  ∃ s', Get Background 0 1%nat twoIdle
        = Done (100%nat, returnToCacheOf 0, true, None) s' ∧
        Sound s' ∧ in_use s' (entry1 working) = 1%nat.
Proof.
  split; [ exact Sound_twoIdle | ].
  pose proof (Get_keeps_Sound Background 0 1%nat twoIdle Sound_twoIdle) as H.
  assert (Hrun : Get Background 0 1%nat twoIdle
                 = Done (100%nat, returnToCacheOf 0, true, None)
                     (run (Get Background 0 1%nat) twoIdle))
    by (vm_compute; reflexivity).
  rewrite Hrun in H. destruct H as [HS _].
  eexists. split; [ exact Hrun | ]. split; [ exact HS | vm_compute; reflexivity ].
Defined.

Lemma AddAndAcquire_keeps_Sound_witness :
  (Sound fresh ∧
   (entries (pool fresh) !! 1%nat = None → 1 ≤ 2 ≤ Z.of_N chanLimit)) ∧
  AddAndAcquire Background 0 1%nat working 2 fresh
  = Done (100%nat, returnToCacheOf 0, false, None) oneHeld ∧
  Sound oneHeld.
Proof.
  assert (Hn : entries (pool fresh) !! 1%nat = None → 1 ≤ 2 ≤ Z.of_N chanLimit)
    by (intros _; split; vm_compute; discriminate).
  split; [ split; [ exact Sound_fresh | exact Hn ] | ].
  pose proof (AddAndAcquire_keeps_Sound Background 0 1%nat working 2 fresh
                Sound_fresh Hn) as H.
  assert (Hrun : AddAndAcquire Background 0 1%nat working 2 fresh
                 = Done (100%nat, returnToCacheOf 0, false, None) oneHeld)
    by (vm_compute; reflexivity).
  rewrite Hrun in H. destruct H as [HS _].
  split; [ exact Hrun | exact HS ].
Defined.

Lemma release_keeps_Tidy_witness :
  (Tidy oneHeld ∧ entries (pool oneHeld) !! 1%nat = Some 0%nat ∧
   entryHeap oneHeld !! 0%nat = Some (entry1 working) ∧
   cellHeap oneHeld !! 0%nat = Some (mkValue true 0 100%nat 0) ∧
   held_for (entry1 working) (mkValue true 0 100%nat 0) = true) ∧
  ∃ s', invoke (returnToCacheOf 0) oneHeld = Done () s' ∧ Tidy s' ∧
        in_use oneHeld (entry1 working) = S (in_use s' (entry1 working)) ∧
        cellChans s' !! 0%nat = Some (mkChan 2 [0%nat]).
Proof.
  assert (HT : Tidy oneHeld) by apply Sound_oneHeld.
  assert (Hk : entries (pool oneHeld) !! 1%nat = Some 0%nat) by (vm_compute; reflexivity).
  assert (He : entryHeap oneHeld !! 0%nat = Some (entry1 working))
    by (vm_compute; reflexivity).
  assert (Hcv : cellHeap oneHeld !! 0%nat = Some (mkValue true 0 100%nat 0))
    by (vm_compute; reflexivity).
  assert (Hh : held_for (entry1 working) (mkValue true 0 100%nat 0) = true)
    by reflexivity.
  split.
  { split; [ exact HT | ]. split; [ exact Hk | ]. split; [ exact He | ].
    split; [ exact Hcv | exact Hh ]. }
  destruct (release_keeps_Tidy 1%nat 0 (entry1 working) 0 _ oneHeld HT Hk He Hcv Hh)
    as (s' & Hrun & HT' & _ & _ & Hin & _ & buf & Ha & Ha').
  exists s'. split; [ exact Hrun | ]. split; [ exact HT' | ].
  split; [ exact Hin | ].
  assert (buf = []) as ->.
  { vm_compute in Ha. now injection Ha. }
  exact Ha'.
Defined.

Lemma cleanupEntries_keeps_Sound_witness :
  Sound twoStale ∧
  ∃ s', cleanupEntries 0 twoStale = Done () s' ∧ Sound s' ∧
        entries (pool s') !! 1%nat = None.
Proof.
  split; [ exact Sound_twoStale | ].
  destruct (cleanupEntries_keeps_Sound 0 twoStale Sound_twoStale)
    as (s' & Hrun & HS & Hmap & _).
  exists s'. split; [ exact Hrun | ]. split; [ exact HS | ].
  rewrite Hmap. vm_compute; reflexivity.
Defined.

Lemma UpdateIfExists_keeps_Sound_witness :
  (Sound twoIdle ∧ entries (pool twoIdle) !! 1%nat = Some 0%nat ∧
   entryHeap twoIdle !! 0%nat = Some (entry1 working) ∧
   cellChans twoIdle !! 0%nat = Some (mkChan 2 [0%nat; 1%nat]) ∧
   in_use twoIdle (entry1 working) = 0%nat ∧ 0 ≤ 3 ≤ Z.of_N chanLimit ∧
   (Z.of_nat (length [0%nat; 1%nat]) ≤ 3 ∨
    failures (fates (brokenAt 2) 3 2 (calls twoIdle) 0) = [])) ∧
  ∃ s', UpdateIfExists 1%nat (brokenAt 2) 3 twoIdle = Done (true, None) s' ∧
        Sound s' ∧
        cellChans s' !! 1%nat = Some (mkChan 3 [1%nat]) ∧
        entryHeap s' !! 0%nat = Some (mkEntry freeRW 1 1 3 (brokenAt 2) 1%nat).
Proof.
  assert (Hk : entries (pool twoIdle) !! 1%nat = Some 0%nat) by (vm_compute; reflexivity).
  assert (He : entryHeap twoIdle !! 0%nat = Some (entry1 working))
    by (vm_compute; reflexivity).
  assert (Ha : cellChans twoIdle !! available (entry1 working)
               = Some (mkChan (maxCapacity (entry1 working)) [0%nat; 1%nat]))
    by (vm_compute; reflexivity).
  assert (Hin : in_use twoIdle (entry1 working) = 0%nat) by (vm_compute; reflexivity).
  assert (Hm : 0 ≤ 3 ≤ Z.of_N chanLimit) by (split; vm_compute; discriminate).
  assert (Hcond : Z.of_nat (length [0%nat; 1%nat]) ≤ 3 ∨
                  failures (fates (brokenAt 2) 3 (length [0%nat; 1%nat])
                              (calls twoIdle) 0) = [])
    by (left; simpl; lia).
  split.
  { split; [ exact Sound_twoIdle | ]. split; [ exact Hk | ]. split; [ exact He | ].
    split; [ exact Ha | ]. split; [ exact Hin | ]. split; [ exact Hm | exact Hcond ]. }
  destruct (UpdateIfExists_keeps_Sound 1%nat (brokenAt 2) 3 0 (entry1 working)
              [0%nat; 1%nat] twoIdle Sound_twoIdle Hk He Ha Hin Hm Hcond)
    as (s' & Hrun & HS & _ & Hen & Hq & _).
  exists s'. split.
  { rewrite Hrun. vm_compute. reflexivity. }
  split; [ exact HS | ]. split.
  - etransitivity; [ | etransitivity; [ exact Hq | ] ];
      [ f_equal; vm_compute; reflexivity | vm_compute; reflexivity ].
  - etransitivity; [ | etransitivity; [ exact Hen | ] ];
      [ reflexivity | vm_compute; reflexivity ].
Defined.

Lemma UpdateIfExists_shrink_breaks_conservation_witness :
  (Sound twoIdle ∧ entries (pool twoIdle) !! 1%nat = Some 0%nat ∧
   entryHeap twoIdle !! 0%nat = Some (entry1 working) ∧
   cellChans twoIdle !! 0%nat = Some (mkChan 2 [0%nat; 1%nat]) ∧
   in_use twoIdle (entry1 working) = 0%nat ∧ 0 ≤ 1 ≤ Z.of_N chanLimit ∧
   1 < Z.of_nat (length [0%nat; 1%nat]) ∧
   failures (fates (brokenAt 2) 1 2 (calls twoIdle) 0) ≠ [] ∧
   Z.of_nat (length (failures (fates (brokenAt 2) 1 2 (calls twoIdle) 0))) ≤ 1) ∧
  ∃ s', UpdateIfExists 1%nat (brokenAt 2) 1 twoIdle = Done (true, None) s' ∧
        entryHeap s' !! 0%nat = Some entry1' ∧
        census s' entry1' = Some 2 ∧
        ¬ conserved s' entry1'.
Proof.
  assert (Hk : entries (pool twoIdle) !! 1%nat = Some 0%nat) by (vm_compute; reflexivity).
  assert (He : entryHeap twoIdle !! 0%nat = Some (entry1 working))
    by (vm_compute; reflexivity).
  assert (Ha : cellChans twoIdle !! available (entry1 working)
               = Some (mkChan (maxCapacity (entry1 working)) [0%nat; 1%nat]))
    by (vm_compute; reflexivity).
  assert (Hin : in_use twoIdle (entry1 working) = 0%nat) by (vm_compute; reflexivity).
  assert (Hm : 0 ≤ 1 ≤ Z.of_N chanLimit) by (split; vm_compute; discriminate).
  assert (Hlt : 1 < Z.of_nat (length [0%nat; 1%nat])) by (simpl; lia).
  assert (Hfail : failures (fates (brokenAt 2) 1 (length [0%nat; 1%nat])
                              (calls twoIdle) 0) ≠ [])
    by (vm_compute; discriminate).
  assert (Hfit : Z.of_nat (length (failures (fates (brokenAt 2) 1
                                              (length [0%nat; 1%nat])
                                              (calls twoIdle) 0))) ≤ 1)
    by (vm_compute; discriminate).
  split.
  { split; [ exact Sound_twoIdle | ]. split; [ exact Hk | ]. split; [ exact He | ].
    split; [ exact Ha | ]. split; [ exact Hin | ]. split; [ exact Hm | ].
    split; [ exact Hlt | ]. split; [ exact Hfail | exact Hfit ]. }
  destruct (UpdateIfExists_shrink_breaks_conservation 1%nat (brokenAt 2) 1 0
              (entry1 working) [0%nat; 1%nat] twoIdle
              Sound_twoIdle Hk He Ha Hin Hm Hlt Hfail Hfit)
    as (s' & Hrun & Hen & Hcensus & _ & Hbroken).
  exists s'. split.
  { rewrite Hrun. vm_compute. reflexivity. }
  split; [ vm_compute in Hen; exact Hen | ]. split.
  - vm_compute in Hcensus. vm_compute. exact Hcensus.
  - intros Hc. apply Hbroken. vm_compute in Hc. vm_compute. exact Hc.
Defined.

Lemma UpdateIfExists_waits_for_cells_in_use_witness :
  (Sound oneHeld ∧ entries (pool oneHeld) !! 1%nat = Some 0%nat ∧
   entryHeap oneHeld !! 0%nat = Some (entry1 working) ∧
   cellChans oneHeld !! 0%nat = Some (mkChan 2 []) ∧
   in_use oneHeld (entry1 working) ≠ 0%nat ∧ 0 ≤ 2 ≤ Z.of_N chanLimit) ∧
  ∃ s', UpdateIfExists 1%nat working 2 oneHeld = Blocked s' ∧
        AddAndAcquire Background 0 2%nat working 1 s' = Blocked s' ∧
        cleanupEntries 0 s' = Blocked s' ∧
        cellChans s' !! 0%nat = Some (mkChan 2 []) ∧
        ∃ s'', invoke (returnToCacheOf 0) s' = Done () s'' ∧
               cellChans s'' !! 0%nat = Some (mkChan 2 [0%nat]).
Proof.
  assert (Hk : entries (pool oneHeld) !! 1%nat = Some 0%nat) by (vm_compute; reflexivity).
  assert (He : entryHeap oneHeld !! 0%nat = Some (entry1 working))
    by (vm_compute; reflexivity).
  assert (Ha : cellChans oneHeld !! available (entry1 working)
               = Some (mkChan (maxCapacity (entry1 working)) []))
    by (vm_compute; reflexivity).
  assert (Hin : in_use oneHeld (entry1 working) ≠ 0%nat) by (vm_compute; discriminate).
  assert (Hm : 0 ≤ 2 ≤ Z.of_N chanLimit) by (split; vm_compute; discriminate).
  assert (Hcv : cellHeap oneHeld !! 0%nat = Some (mkValue true 0 100%nat 0))
    by (vm_compute; reflexivity).
  split.
  { split; [ exact Sound_oneHeld | ]. split; [ exact Hk | ]. split; [ exact He | ].
    split; [ exact Ha | ]. split; [ exact Hin | exact Hm ]. }
  destruct (UpdateIfExists_waits_for_cells_in_use 1%nat working 2 0 (entry1 working)
              [] oneHeld Sound_oneHeld Hk He Ha Hin Hm)
    as (s' & Hrun & _ & _ & Hall & Hqueue & _).
  destruct Hqueue as (Hold & _ & Hrelease); [ vm_compute; discriminate | ].
  destruct (Hrelease 0%nat (mkValue true 0 100%nat 0) Hcv eq_refl)
    as (s'' & Hrel & Hback).
  destruct (Hall Background 0%nat 2%nat working 1 0%nat) as [Hadd Hsweep].
  exists s'. split; [ exact Hrun | ]. split; [ exact Hadd | ].
  split; [ exact Hsweep | ]. split; [ exact Hold | ].
  exists s''. split; [ exact Hrel | exact Hback ].
Defined.


Lemma sweep_is_launched_when_due_witness :
  (Sound twoStale ∧
   (entries (pool twoStale) !! 1%nat = None → 1 ≤ 2 ≤ Z.of_N chanLimit)) ∧
  dueSweep twoStale = true ∧
  ∃ r s', Get Background 0 1%nat twoStale = Done r s' ∧
          sweeps s' = S (sweeps twoStale) ∧
          lastChecked (pool s') = clock twoStale.
Proof.
  assert (Hn : entries (pool twoStale) !! 1%nat = None → 1 ≤ 2 ≤ Z.of_N chanLimit)
    by (intros _; split; vm_compute; discriminate).
  assert (Hdue : dueSweep twoStale = true) by (vm_compute; reflexivity).
  split; [ split; [ exact Sound_twoStale | exact Hn ] | ].
  split; [ exact Hdue | ].
  destruct (sweep_is_launched_when_due Background 0 1%nat working 2 twoStale
              Sound_twoStale Hn) as [HG _].
  assert (Hrun : ∃ r, Get Background 0 1%nat twoStale
                      = Done r (run (Get Background 0 1%nat) twoStale))
    by (eexists; vm_compute; reflexivity).
  destruct Hrun as [r Hrun].
  pose proof (HG _ _ Hrun) as Hafter. unfold K0, V0 in *. rewrite Hdue in Hafter.
  destruct Hafter as [Hsw Hlc].
  eexists _, _. split; [ exact Hrun | ]. split; [ exact Hsw | exact Hlc ].
Defined.
